(** * gimlet: SMILES decoding and hydrogen completion

    A shallow embedding of [gin/i_o/from_smiles.py] and
    [gin/deterministic/hydrogen.py].  Tensors of rank one are lists,
    tensors of rank two are lists of rows, [int64] indices are [Z], bond
    orders ([float32] in the source) are exact rationals [Q].  An
    operation that raises in eager mode (an index out of range, a shape
    mismatch) yields [None]. *)

From Stdlib Require Import List ZArith QArith Bool Ascii String Lia Sorted.
Import ListNotations.

Local Open Scope Z_scope.

Notation "x <- e ;; k" :=
  (match e with Some x => k | None => None end)
  (at level 61, e at next level, right associativity, only parsing).

(** ** Tensor primitives used by both source files *)
Module Tensor.

Definition matrix := list (list Q).

(** [t[i]] for an index tensor entry [i]: out of range is an error. *)
Definition index {A : Type} (l : list A) (i : Z) : option A :=
  if i <? 0 then None else nth_error l (Z.to_nat i).

(** [tf.gather(l, idxs)] along the only axis of a rank-one tensor. *)
Fixpoint gather {A : Type} (l : list A) (idxs : list Z) : option (list A) :=
  match idxs with
  | [] => Some []
  | i :: rest =>
      x <- index l i ;;
      xs <- gather l rest ;;
      Some (x :: xs)
  end.

(** [tf.range(n)] *)
Definition range (n : Z) : list Z := map Z.of_nat (seq 0 (Z.to_nat n)).

Fixpoint where_from (k : Z) (mask : list bool) : list Z :=
  match mask with
  | [] => []
  | b :: rest => if b then k :: where_from (k + 1) rest
                 else where_from (k + 1) rest
  end.

(** [tf.reshape(tf.where(mask), [-1])] on a rank-one mask. *)
Definition tf_where (mask : list bool) : list Z := where_from 0 mask.

(** [tf.boolean_mask(l, mask)] on rank-one tensors of one length. *)
Fixpoint boolean_mask {A : Type} (l : list A) (mask : list bool) : list A :=
  match l, mask with
  | x :: l', b :: mask' =>
      if b then x :: boolean_mask l' mask' else boolean_mask l' mask'
  | _, _ => []
  end.

Fixpoint replace_nth {A : Type} (n : nat) (l : list A) (x : A) : list A :=
  match l, n with
  | [], _ => []
  | _ :: l', O => x :: l'
  | y :: l', S n' => y :: replace_nth n' l' x
  end.

(** [m[i, j]] *)
Definition entry (m : matrix) (i j : Z) : option Q :=
  row <- index m i ;; index row j.

(** One row of a [scatter_nd_update]: [m[i, j] = v]. *)
Definition set_entry (m : matrix) (i j : Z) (v : Q) : option matrix :=
  row <- index m i ;;
  _ <- index row j ;;
  Some (replace_nth (Z.to_nat i) m (replace_nth (Z.to_nat j) row v)).

(** [m.scatter_nd_update(idxs, vals)]: the updates are applied in
    order, so the last one written to a position stays; the two tensors
    must have as many rows. *)
Fixpoint scatter_nd_update (m : matrix) (idxs : list (Z * Z)) (vals : list Q)
  : option matrix :=
  match idxs, vals with
  | [], [] => Some m
  | (i, j) :: idxs', v :: vals' =>
      m' <- set_entry m i j v ;;
      scatter_nd_update m' idxs' vals'
  | _, _ => None
  end.

(** [tf.gather_nd(m, idxs)] *)
Fixpoint gather_nd (m : matrix) (idxs : list (Z * Z)) : option (list Q) :=
  match idxs with
  | [] => Some []
  | (i, j) :: rest =>
      v <- entry m i j ;;
      vs <- gather_nd m rest ;;
      Some (v :: vs)
  end.

(** [tf.eye(n + 1)[1:, :-1]]: ones on the first superdiagonal. *)
Definition chain_matrix (n : Z) : matrix :=
  map (fun i => map (fun j => if j =? i + 1 then 1%Q else 0%Q) (range n))
      (range n).

Fixpoint zip_with {A B C : Type} (f : A -> B -> C) (l : list A) (l' : list B)
  : list C :=
  match l, l' with
  | x :: r, y :: r' => f x y :: zip_with f r r'
  | _, _ => []
  end.

(** Column [j] of a matrix whose rows all reach column [j]. *)
Definition column (m : matrix) (j : nat) : list Q :=
  map (fun row => nth j row 0%Q) m.

(** [tf.transpose(m)] of a square matrix. *)
Definition transpose (m : matrix) : matrix :=
  map (fun j => column m j) (seq 0 (List.length m)).

(** [m + m'] entry by entry. *)
Definition add (m m' : matrix) : matrix := zip_with (zip_with Qplus) m m'.

(** [tf.gather(tf.gather(m, idxs, axis=0), idxs, axis=1)] *)
Definition submatrix (m : matrix) (idxs : list Z) : option matrix :=
  rows <- gather m idxs ;;
  (fix cols (rs : list (list Q)) : option matrix :=
     match rs with
     | [] => Some []
     | r :: rs' => r' <- gather r idxs ;; m' <- cols rs' ;; Some (r' :: m')
     end) rows.

(** [tf.sort] on an [int64] vector. *)
Fixpoint insert_sorted (x : Z) (l : list Z) : list Z :=
  match l with
  | [] => [x]
  | y :: r => if x <=? y then x :: l else y :: insert_sorted x r
  end.

Definition sort (l : list Z) : list Z := fold_right insert_sorted [] l.

Definition sum_Q (l : list Q) : Q := fold_right Qplus 0%Q l.

(** An [n] by [n] tensor. *)
Definition square (n : nat) (m : matrix) : Prop :=
  List.length m = n /\ Forall (fun row => List.length row = n) m.

(** A place inside an [n] by [n] tensor. *)
Definition inside (n : nat) (p : Z * Z) : Prop :=
  0 <= fst p < Z.of_nat n /\ 0 <= snd p < Z.of_nat n.

End Tensor.

(** ** [gin/i_o/from_smiles.py] *)
Module FromSmiles.
Import Tensor.

Local Open Scope char_scope.
Local Open Scope Z_scope.

Definition chars (s : string) : list ascii := list_ascii_of_string s.

Definition in_chars (c : ascii) (l : list ascii) : bool :=
  existsb (Ascii.eqb c) l.

(** [ORGANIC_ATOMS]: bromine and chlorine under their one-letter names. *)
Definition ORGANIC_ATOMS : list ascii :=
  ["C"; "c"; "N"; "n"; "O"; "o"; "S"; "s"; "P"; "p"; "F"; "R"; "L"; "I"].

(** [TOPOLOGY_MARKS] *)
Definition TOPOLOGY_MARKS : list ascii :=
  ["="; "#"; "("; ")"; "1"; "2"; "3"; "4"; "5"; "6"; "7"; "8"; "9"].

(** The alternatives of [N_ATOM_COUNTER_STR]. *)
Definition N_ATOM_COUNTER : list ascii :=
  TOPOLOGY_MARKS ++ ["l"; "r"; "["; "]"; "@"; "H"; "/"; "\"].

(** *** Normalizer *)

Definition is_space (c : ascii) : bool :=
  in_chars c [" "; "009"; "010"; "011"; "012"; "013"].

Fixpoint strip_left (s : list ascii) : list ascii :=
  match s with
  | c :: s' => if is_space c then strip_left s' else s
  | [] => []
  end.

(** [tf.strings.strip] *)
Definition strip (s : list ascii) : list ascii :=
  rev (strip_left (rev (strip_left s))).

Fixpoint is_prefix (p s : list ascii) : bool :=
  match p, s with
  | [], _ => true
  | a :: p', b :: s' => Ascii.eqb a b && is_prefix p' s'
  | _ :: _, [] => false
  end.

(** [tf.strings.regex_replace(s, p1|p2|..., rep)] for literal
    alternatives: matches are taken left to right and do not overlap;
    [skip] counts the characters of the current match still to drop. *)
Fixpoint regex_replace_from (pats : list (list ascii)) (rep : list ascii)
  (s : list ascii) (skip : nat) : list ascii :=
  match s with
  | [] => []
  | c :: s' =>
      match skip with
      | S k => regex_replace_from pats rep s' k
      | O =>
          match find (fun p => is_prefix p s) pats with
          | Some p => rep ++ regex_replace_from pats rep s' (pred (List.length p))
          | None => c :: regex_replace_from pats rep s' 0
          end
      end
  end.

Definition regex_replace (s : list ascii) (pats : list string) (rep : string)
  : list ascii :=
  regex_replace_from (map chars pats) (chars rep) s 0.

(** A pattern that is an alternation of single characters. *)
Definition regex_replace_chars (s : list ascii) (cs : list ascii)
  (rep : list ascii) : list ascii :=
  flat_map (fun c => if in_chars c cs then rep else [c]) s.

(** [n_atoms]: counted on the stripped string, before any rewriting. *)
Definition count_atoms (smiles : list ascii) : Z :=
  Z.of_nat (List.length (regex_replace_chars smiles N_ATOM_COUNTER [])).

(** "get rid of the longer bits" *)
Definition normalize (smiles : list ascii) : list ascii :=
  let smiles := regex_replace smiles ["Br"%string] "R" in
  let smiles := regex_replace smiles ["Cl"%string] "L" in
  let smiles :=
    regex_replace smiles
      ["[C@H]"%string; "[C@@H]"%string; "[C@]"%string; "[C@@]"%string] "C" in
  let smiles := regex_replace smiles ["[nH]"%string] "n" in
  let smiles := regex_replace smiles ["/"%string] "" in
  regex_replace smiles ["\"%string] "".

Definition atoms_only (smiles : list ascii) : list ascii :=
  regex_replace_chars smiles TOPOLOGY_MARKS [].

(** [smiles_aromatic] *)
Definition aromatic_marks (smiles_atoms_only : list ascii) : list ascii :=
  regex_replace_chars smiles_atoms_only ["c"; "n"; "o"; "p"] ["A"].

(** "translate atoms notations to idxs" *)
Definition translate_atoms (smiles_atoms_only : list ascii) : list ascii :=
  let s := regex_replace_chars smiles_atoms_only ["C"; "c"] ["0"] in
  let s := regex_replace_chars s ["N"; "n"] ["1"] in
  let s := regex_replace_chars s ["O"; "o"] ["2"] in
  let s := regex_replace_chars s ["S"; "s"] ["3"] in
  let s := regex_replace_chars s ["P"; "p"] ["4"] in
  let s := regex_replace_chars s ["F"] ["5"] in
  let s := regex_replace_chars s ["L"] ["6"] in
  let s := regex_replace_chars s ["R"] ["7"] in
  regex_replace_chars s ["I"] ["8"].

(** [tf.strings.to_number] on a one-byte string. *)
Definition to_number (c : ascii) : option Z :=
  let n := Z.of_nat (nat_of_ascii c) - 48 in
  if (0 <=? n) && (n <=? 9) then Some n else None.

Fixpoint to_numbers (s : list ascii) : option (list Z) :=
  match s with
  | [] => Some []
  | c :: s' => n <- to_number c ;; ns <- to_numbers s' ;; Some (n :: ns)
  end.

(** *** Chain builder: the topology index map *)

Definition topology_only (smiles : list ascii) : list ascii :=
  regex_replace_chars smiles ORGANIC_ATOMS ["0"].

Definition is_topology (c : ascii) : bool := negb (Ascii.eqb c "0").

(** Positions of the topology characters in the raw string. *)
Definition topology_positions (smiles_topology_only : list ascii) : list Z :=
  tf_where (map is_topology smiles_topology_only).

(** [topology_chrs] *)
Definition topology_characters (smiles_topology_only : list ascii)
  : option (list ascii) :=
  gather smiles_topology_only (topology_positions smiles_topology_only).

(** "shifting the indices of the topology characters":
    [topology_idxs - tf.range(len) - 1]. *)
Definition shift_indices (topology_idxs : list Z) : list Z :=
  zip_with (fun p k => p - k - 1) topology_idxs
    (range (Z.of_nat (List.length topology_idxs))).

(** The entries of [idxs] at the places where [chrs] holds [c]. *)
Definition marked (idxs : list Z) (chrs : list ascii) (c : ascii)
  : option (list Z) :=
  gather idxs (tf_where (map (Ascii.eqb c) chrs)).

(** *** Bond-order resolver *)

Definition bond_orders (adjacency_map : matrix) (chrs : list ascii)
  (idxs : list Z) : option matrix :=
  double_bond_idxs <- marked idxs chrs "=" ;;
  triple_bond_idxs <- marked idxs chrs "#" ;;
  m <- scatter_nd_update adjacency_map
         (map (fun a => (a, a + 1)%Z) double_bond_idxs)
         (map (fun _ => 2%Q) double_bond_idxs) ;;
  scatter_nd_update m
    (map (fun a => (a, a + 1)%Z) triple_bond_idxs)
    (map (fun _ => 3%Q) triple_bond_idxs).

(** *** Branch resolver *)

Definition if_left (idx : Z) (bracket_queue : list Z)
  (bracket_pairs : list (Z * Z)) : list Z * list (Z * Z) :=
  (bracket_queue ++ [idx], bracket_pairs).

Definition if_right (topology_idxs : list Z) (idx : Z)
  (bracket_queue : list Z) (bracket_pairs : list (Z * Z))
  : option (list Z * list (Z * Z)) :=
  right_idx <- index topology_idxs idx ;;
  top <- nth_error (rev bracket_queue) 0 ;;
  left_idx <- index topology_idxs top ;;
  Some (removelast bracket_queue, bracket_pairs ++ [(left_idx, right_idx)]).

(** The [tf.while_loop] over the topology characters; [idx] is the
    position of the head of [chrs] in [topology_chrs]. *)
Fixpoint bracket_loop (topology_idxs : list Z) (chrs : list ascii) (idx : Z)
  (bracket_queue : list Z) (bracket_pairs : list (Z * Z))
  : option (list (Z * Z)) :=
  match chrs with
  | [] => Some bracket_pairs
  | chr_flag :: rest =>
      let st := if Ascii.eqb chr_flag "("
                then if_left idx bracket_queue bracket_pairs
                else (bracket_queue, bracket_pairs) in
      st' <- (if Ascii.eqb chr_flag ")"
              then if_right topology_idxs idx (fst st) (snd st)
              else Some st) ;;
      bracket_loop topology_idxs rest (idx + 1) (fst st') (snd st')
  end.

(** The recorded pairs, the placeholder row dropped. *)
Definition bracket_pairs (chrs : list ascii) (idxs : list Z)
  : option (list (Z * Z)) :=
  ps <- bracket_loop idxs chrs 0 [] [(-1, -1)%Z] ;;
  Some (tl ps).

(** "we discard the right bracket at the end of the smiles string" *)
Definition discard_trailing (n_atoms : Z) (pairs : list (Z * Z))
  : list Z * list Z :=
  let left_bracket_idxs := map fst pairs in
  let right_bracket_idxs := map snd pairs in
  let right_bracket_idxs :=
    boolean_mask right_bracket_idxs
      (map (fun r => negb (r =? n_atoms - 1)) right_bracket_idxs) in
  (firstn (List.length right_bracket_idxs) left_bracket_idxs,
   right_bracket_idxs).

(** The entries of a tensor with their places along the axis. *)
Fixpoint enumerate_from {A : Type} (k : Z) (l : list A) : list (Z * A) :=
  match l with
  | [] => []
  | x :: rest => (k, x) :: enumerate_from (k + 1) rest
  end.

Definition enumerate {A : Type} (l : list A) : list (Z * A) :=
  enumerate_from 0 l.

(** [left_right_overlaps]: the places [(i, j)], row by row, where
    [left[j] - right[i] = 0]. *)
Definition left_right_overlaps (lefts rights : list Z) : list (Z * Z) :=
  flat_map
    (fun ir =>
       map (fun jl => (fst ir, fst jl))
         (filter (fun jl => snd jl - snd ir =? 0) (enumerate lefts)))
    (enumerate rights).

(** Row-major order on places, the order of [tf.where]. *)
Definition row_major (p q : Z * Z) : Prop :=
  fst p < fst q \/ (fst p = fst q /\ snd p < snd q).

Definition process_right_left_overlap (rights : list Z) (overlap : Z * Z)
  (lefts : list Z) : option (list Z) :=
  v <- index lefts (fst overlap) ;;
  Some (zip_with (fun k l => if k =? snd overlap then v else l)
          (range (Z.of_nat (List.length rights))) lefts).

Fixpoint process_overlaps (rights : list Z) (overlaps : list (Z * Z))
  (lefts : list Z) : option (list Z) :=
  match overlaps with
  | [] => Some lefts
  | ov :: rest =>
      lefts' <- process_right_left_overlap rights ov lefts ;;
      process_overlaps rights rest lefts'
  end.

(** The two scatter updates that move the bond after a branch. *)
Definition rewire (adjacency_map : matrix) (lefts rights : list Z)
  : option matrix :=
  let current_bond_idxs := map (fun r => (r, r + 1)%Z) rights in
  current_bond_order <- gather_nd adjacency_map current_bond_idxs ;;
  let new_bond_idxs := zip_with (fun l r => (l, r + 1)%Z) lefts rights in
  m <- scatter_nd_update adjacency_map current_bond_idxs
         (map (fun _ => 0%Q) current_bond_order) ;;
  scatter_nd_update m new_bond_idxs current_bond_order.

Definition branches (n_atoms : Z) (adjacency_map : matrix)
  (chrs : list ascii) (idxs : list Z) : option matrix :=
  pairs <- bracket_pairs chrs idxs ;;
  let '(lefts, rights) := discard_trailing n_atoms pairs in
  lefts <- process_overlaps rights (left_right_overlaps lefts rights) lefts ;;
  rewire adjacency_map lefts rights.

(** *** Ring-closure resolver *)

Definition max_iter : Z := 5.

Definition connection_chrs : list ascii := ["1"; "2"; "3"; "4"; "5"; "6"].

(** The places below the diagonal of the meshgrid of the sorted
    connection indices: [(c[x], c[y])] for [x < y], row [y] by row. *)
Definition connection_pairs (connection_idxs : list Z) : list (Z * Z) :=
  flat_map
    (fun y =>
       map (fun x => (snd x, snd y))
         (filter (fun x => fst x <? fst y) (enumerate connection_idxs)))
    (enumerate connection_idxs).

Definition ring_loop_body (chrs : list ascii) (idxs : list Z) (idx : Z)
  (bond_idxs_to_update : list (Z * Z)) (bond_orders_to_update : list Q)
  : option (list (Z * Z) * list Q) :=
  connection_chr <- index connection_chrs idx ;;
  connection_idxs <- marked idxs chrs connection_chr ;;
  let connection_idxs := connection_pairs (sort connection_idxs) in
  Some (bond_idxs_to_update ++ connection_idxs,
        if (0 <? Z.of_nat (List.length connection_idxs))
        then bond_orders_to_update
               ++ map (fun _ => 1%Q) connection_idxs
        else bond_orders_to_update).

(** The loop condition: [idx < max_iter] and the current digit occurs. *)
Definition ring_loop_cond (chrs : list ascii) (idx : Z) : option bool :=
  connection_chr <- index connection_chrs idx ;;
  Some ((idx <? max_iter)
        && (existsb (Ascii.eqb connection_chr) chrs
            && (0 <? Z.of_nat (List.length chrs)))).

Fixpoint ring_loop (fuel : nat) (chrs : list ascii) (idxs : list Z) (idx : Z)
  (bond_idxs_to_update : list (Z * Z)) (bond_orders_to_update : list Q)
  : option (list (Z * Z) * list Q) :=
  go_on <- ring_loop_cond chrs idx ;;
  if go_on then
    match fuel with
    | O => None
    | S fuel' =>
        st <- ring_loop_body chrs idxs idx
                bond_idxs_to_update bond_orders_to_update ;;
        ring_loop fuel' chrs idxs (idx + 1) (fst st) (snd st)
    end
  else Some (bond_idxs_to_update, bond_orders_to_update).

(** The bonds the ring stage writes, the placeholder rows dropped. *)
Definition ring_updates (chrs : list ascii) (idxs : list Z)
  : option (list (Z * Z) * list Q) :=
  st <- (if 0 <? Z.of_nat (List.length chrs)
         then ring_loop (Z.to_nat max_iter) chrs idxs 0 [(-1, -1)] [(-1)%Q]
         else Some ([(-1, -1)], [(-1)%Q])) ;;
  Some (tl (fst st), tl (snd st)).

Definition rings (adjacency_map : matrix) (chrs : list ascii) (idxs : list Z)
  : option matrix :=
  st <- ring_updates chrs idxs ;;
  scatter_nd_update adjacency_map (fst st) (snd st).

(** The digit occurs in the topology-marker stream. *)
Definition occurs (chrs : list ascii) (c : ascii) : bool :=
  existsb (Ascii.eqb c) chrs.

(** The pairs that one round of the loop adds for the digit [c]. *)
Definition ring_pairs (chrs : list ascii) (idxs : list Z) (c : ascii)
  : list (Z * Z) :=
  connection_pairs (sort (boolean_mask idxs (map (Ascii.eqb c) chrs))).

(** The digits at the head of [digits] that occur, up to the first one
    that does not. *)
Fixpoint leading (chrs : list ascii) (digits : list ascii) : list ascii :=
  match digits with
  | [] => []
  | d :: rest => if occurs chrs d then d :: leading chrs rest else []
  end.

(** The digits for which the loop runs its body. *)
Definition resolved_digits (chrs : list ascii) : list ascii :=
  leading chrs (firstn (Z.to_nat max_iter) connection_chrs).

(** The digit character of a number below ten. *)
Definition digit (k : nat) : ascii := ascii_of_nat (48 + k).

(** *** Aromaticity *)

(** The places of the nonzero entries of a matrix, row by row: what
    [tf.boolean_mask] keeps under a numeric mask. *)
Definition nonzero_places (m : matrix) : list (Z * Z) :=
  flat_map
    (fun r =>
       map (fun c => (fst r, fst c))
         (filter (fun c => negb (Qeq_bool (snd c) 0)) (enumerate (snd r))))
    (enumerate m).

Fixpoint gather_pairs (l : list Z) (places : list (Z * Z))
  : option (list (Z * Z)) :=
  match places with
  | [] => Some []
  | (a, b) :: rest =>
      x <- index l a ;;
      y <- index l b ;;
      ps <- gather_pairs l rest ;;
      Some ((x, y) :: ps)
  end.

Definition aromatic_idxs (smiles_aromatic : list ascii) : list Z :=
  tf_where (map (Ascii.eqb "A") smiles_aromatic).

Definition aromaticity (adjacency_map : matrix) (aromatic_idxs : list Z)
  : option matrix :=
  aromatic_adjacency_map <- submatrix adjacency_map aromatic_idxs ;;
  (* the stack holds (column, row); the reversal swaps the pair back *)
  let aromatic_idxs_2d :=
    map (fun rc => (snd rc, fst rc)) (nonzero_places aromatic_adjacency_map) in
  gathered <- gather_pairs aromatic_idxs aromatic_idxs_2d ;;
  let current_bond_idxs := map (fun p => (snd p, fst p)) gathered in
  current_bond_order <- gather_nd adjacency_map current_bond_idxs ;;
  let modified_bond_order :=
    map (fun o => if Qle_bool 1 o then (o + (1 # 2))%Q else o)
      current_bond_order in
  scatter_nd_update adjacency_map current_bond_idxs modified_bond_order.

(** *** Conjugated systems *)

(** [adjacency_map + tf.transpose(adjacency_map)] *)
Definition full (adjacency_map : matrix) : matrix :=
  add adjacency_map (transpose adjacency_map).

(** The atoms that enter the search: those on a bond of order two,
    then the aromatic ones, carbon, nitrogen and oxygen only. *)
Definition sp2_candidates (n_atoms : Z) (atoms : list Z)
  (adjacency_map_full : matrix) (aromatic_idxs : list Z) : option (list Z) :=
  let sp2_idxs :=
    boolean_mask (range n_atoms)
      (map (existsb (fun x => Qeq_bool x 2)) adjacency_map_full) in
  let sp2_idxs := sp2_idxs ++ aromatic_idxs in
  elements <- gather atoms sp2_idxs ;;
  Some (boolean_mask sp2_idxs
          (map (fun e => (e =? 0) || ((e =? 1) || (e =? 2))) elements)).

(** [tf.greater(x, 0)] *)
Definition positive (x : Q) : bool := negb (Qle_bool x 0).

Definition zip3_with {A B C D : Type} (f : A -> B -> C -> D)
  (l : list A) (l' : list B) (l'' : list C) : list D :=
  zip_with (fun ab c => f (fst ab) (snd ab) c) (combine l l') l''.

Definition loop_body_inner (sp2_adjacency_map : matrix)
  (queue : list Z) (visited : list bool) (conjugate_system : list Z)
  : option (list Z * list bool * list Z) :=
  (* dequeue *)
  idx <- nth_error (rev queue) 0 ;;
  let queue := removelast queue in
  let places := range (Z.of_nat (List.length sp2_adjacency_map)) in
  let is_self := map (fun k => k =? idx) places in
  row <- index sp2_adjacency_map idx ;;
  let is_neighbors := map positive row in
  let is_unvisited_neighbors :=
    zip_with andb is_neighbors (map negb visited) in
  seen <- index visited idx ;;
  let self_is_unvisited := negb seen in
  let conjugate_system :=
    if self_is_unvisited then conjugate_system ++ [idx]
    else conjugate_system in
  let neighbors_unvisited := boolean_mask places is_unvisited_neighbors in
  let conjugate_system := conjugate_system ++ neighbors_unvisited in
  let queue := queue ++ neighbors_unvisited in
  let visited :=
    zip3_with (fun u s v => if u || s then true else v)
      is_unvisited_neighbors is_self visited in
  Some (queue, visited, conjugate_system).

(** [while len(queue) > 0]; the fuel bounds the number of rounds. *)
Fixpoint inner_loop (fuel : nat) (sp2_adjacency_map : matrix)
  (queue : list Z) (visited : list bool) (conjugate_system : list Z)
  : option (list bool * list Z) :=
  match queue with
  | [] => Some (visited, conjugate_system)
  | _ :: _ =>
      match fuel with
      | O => None
      | S fuel' =>
          st <- loop_body_inner sp2_adjacency_map queue visited
                  conjugate_system ;;
          let '(queue, visited, conjugate_system) := st in
          inner_loop fuel' sp2_adjacency_map queue visited conjugate_system
      end
  end.

(** The candidates not visited yet, among [size]. *)
Definition pending (size : nat) (visited : list bool) : list Z :=
  boolean_mask (range (Z.of_nat size)) (map negb visited).

Definition loop_body_outer (sp2_adjacency_map : matrix)
  (conjugate_systems : list (list Z)) (visited : list bool)
  : option (list (list Z) * list bool) :=
  let size := List.length visited in
  (* start with the first element that is not visited *)
  first <- nth_error
             (boolean_mask (range (Z.of_nat (List.length sp2_adjacency_map)))
                (map negb visited)) 0 ;;
  st <- inner_loop (S size) sp2_adjacency_map [first] visited [] ;;
  let '(visited, conjugate_system) := st in
  let conjugate_system :=
    if (3 <=? Z.of_nat (List.length conjugate_system))
    then conjugate_system else [] in
  if (size <? List.length conjugate_system)%nat then None
  else
    let conjugate_system :=
      conjugate_system
        ++ repeat (-1) (size - List.length conjugate_system) in
    Some (conjugate_systems ++ [conjugate_system], visited).

(** [while] some candidate is not visited. *)
Fixpoint outer_loop (fuel : nat) (sp2_adjacency_map : matrix)
  (conjugate_systems : list (list Z)) (visited : list bool)
  : option (list (list Z)) :=
  if existsb negb visited then
    match fuel with
    | O => None
    | S fuel' =>
        st <- loop_body_outer sp2_adjacency_map conjugate_systems visited ;;
        outer_loop fuel' sp2_adjacency_map (fst st) (snd st)
    end
  else Some conjugate_systems.

(** The components kept: the rows with an entry other than the padding. *)
Definition conjugate_systems (sp2_idxs : list Z) (sp2_adjacency_map : matrix)
  : option (list (list Z)) :=
  let size := List.length sp2_idxs in
  systems <- outer_loop size sp2_adjacency_map
               [map (fun _ => -1) sp2_idxs] (repeat false size) ;;
  Some (boolean_mask systems
          (map (existsb (fun k => -1 <? k)) systems)).

(** [tf.linalg.band_part(m, 0, -1)], flattened: the entries below the
    diagonal become zero. *)
Definition upper_band (m : matrix) : list Q :=
  flat_map
    (fun r =>
       map (fun c => if fst c <? fst r then 0%Q else snd c)
         (enumerate (snd r)))
    (enumerate m).

(** The places [(s[i], s[j])], row by row. *)
Definition system_places (system_idxs : list Z) : list (Z * Z) :=
  flat_map (fun a => map (fun b => (a, b)) system_idxs) system_idxs.

(** The body of the last loop for one conjugated system: the places to
    overwrite and the mean bond order to write there. *)
Definition system_update (adjacency_map : matrix) (sp2_idxs : list Z)
  (sp2_adjacency_map : matrix) (padded : list Z)
  : option (list (Z * Z) * list Q) :=
  let conjugate_system := filter (fun k => -1 <? k) padded in
  system_idxs <- gather sp2_idxs conjugate_system ;;
  system_adjacency_map_full <- submatrix sp2_adjacency_map conjugate_system ;;
  let system_adjacency_map_flatten := upper_band system_adjacency_map_full in
  let system_total_bond_order := sum_Q system_adjacency_map_flatten in
  let system_total_bond_count :=
    List.length (filter positive system_adjacency_map_flatten) in
  let system_mean_bond_order :=
    (system_total_bond_order
       / inject_Z (Z.of_nat system_total_bond_count))%Q in
  let system_idxs_2d := system_places system_idxs in
  orders <- gather_nd adjacency_map system_idxs_2d ;;
  let system_idxs_2d := boolean_mask system_idxs_2d (map positive orders) in
  Some (system_idxs_2d,
        repeat system_mean_bond_order system_total_bond_count).

Fixpoint systems_loop (adjacency_map : matrix) (sp2_idxs : list Z)
  (sp2_adjacency_map : matrix) (systems : list (list Z))
  (bond_idxs_to_update : list (Z * Z)) (bond_orders_to_update : list Q)
  : option (list (Z * Z) * list Q) :=
  match systems with
  | [] => Some (bond_idxs_to_update, bond_orders_to_update)
  | system :: rest =>
      up <- system_update adjacency_map sp2_idxs sp2_adjacency_map system ;;
      systems_loop adjacency_map sp2_idxs sp2_adjacency_map rest
        (bond_idxs_to_update ++ fst up) (bond_orders_to_update ++ snd up)
  end.

Definition conjugation (n_atoms : Z) (atoms : list Z) (adjacency_map : matrix)
  (aromatic_idxs : list Z) : option matrix :=
  let adjacency_map_full := full adjacency_map in
  sp2_idxs <- sp2_candidates n_atoms atoms adjacency_map_full aromatic_idxs ;;
  sp2_adjacency_map <- submatrix adjacency_map_full sp2_idxs ;;
  systems <- conjugate_systems sp2_idxs sp2_adjacency_map ;;
  ups <- systems_loop adjacency_map sp2_idxs sp2_adjacency_map systems
           [(-1, -1)] [(-1)%Q] ;;
  scatter_nd_update adjacency_map (tl (fst ups)) (tl (snd ups)).

(** *** The whole decoder *)

Record stages := {
  n_atoms : Z;
  atoms : list Z;
  topology_chrs : list ascii;
  topology_idxs : list Z;
  aromatic : list Z;
  chain : matrix;
  after_bond_orders : matrix;
  after_branches : matrix;
  after_rings : matrix;
  after_aromaticity : matrix;
  resolved : matrix
}.

(** The decoder with the adjacency map as it stands after each stage. *)
Definition decode (smiles : string) : option stages :=
  let smiles := strip (chars smiles) in
  let n_atoms := count_atoms smiles in
  let adjacency_map := chain_matrix n_atoms in
  let smiles := normalize smiles in
  let smiles_atoms_only := atoms_only smiles in
  let smiles_aromatic := aromatic_marks smiles_atoms_only in
  atoms <- to_numbers (translate_atoms smiles_atoms_only) ;;
  let smiles_topology_only := topology_only smiles in
  topology_chrs <- topology_characters smiles_topology_only ;;
  let topology_idxs :=
    shift_indices (topology_positions smiles_topology_only) in
  m1 <- bond_orders adjacency_map topology_chrs topology_idxs ;;
  m2 <- branches n_atoms m1 topology_chrs topology_idxs ;;
  m3 <- rings m2 topology_chrs topology_idxs ;;
  let aromatic := aromatic_idxs smiles_aromatic in
  m4 <- aromaticity m3 aromatic ;;
  m5 <- conjugation n_atoms atoms m4 aromatic ;;
  Some {| n_atoms := n_atoms; atoms := atoms;
          topology_chrs := topology_chrs; topology_idxs := topology_idxs;
          aromatic := aromatic; chain := adjacency_map;
          after_bond_orders := m1; after_branches := m2; after_rings := m3;
          after_aromaticity := m4; resolved := m5 |}.

Definition smiles_to_organic_topological_molecule (smiles : string)
  : option (list Z * matrix) :=
  st <- decode smiles ;;
  Some (atoms st, resolved st).

End FromSmiles.

(** ** [gin/deterministic/hydrogen.py] *)
Module Hydrogen.
Import Tensor.

(** What [add_hydrogen] reads of [typing.TypingGAFF(mol)], the atom
    typer outside this file: one flag per heavy atom and predicate. *)
Record TypingGAFF := {
  is_carbon : list bool;
  is_nitrogen : list bool;
  is_phosphorus : list bool;
  is_oxygen : list bool;
  is_sulfur : list bool;
  is_sp1 : list bool;
  is_sp2 : list bool;
  is_sp3 : list bool;
  is_connected_to_1_heavy : list bool;
  is_connected_to_2_heavy : list bool;
  is_connected_to_3_heavy : list bool
}.

Definition logical_and := zip_with andb.
Definition logical_or := zip_with orb.

(** [tf.reshape(l, [-1, n])] on a rank-one tensor: rows of [n]; the
    missing size cannot be inferred when [n] is zero. *)
Fixpoint reshape_rows (fuel n : nat) (l : list bool)
  : option (list (list bool)) :=
  match l with
  | [] => if (n =? 0)%nat then None else Some []
  | _ :: _ =>
      match fuel with
      | O => None
      | S fuel' =>
          if ((n =? 0) || (List.length l <? n))%nat then None
          else
            rows <- reshape_rows fuel' n (skipn n l) ;;
            Some (firstn n l :: rows)
      end
  end.

(** [tf.reduce_any(rows, axis=0)] for rows of length [n]. *)
Fixpoint reduce_any (n : nat) (rows : list (list bool)) : list bool :=
  match rows with
  | [] => repeat false n
  | r :: rest => zip_with orb r (reduce_any n rest)
  end.

(** The idiom of [has_one] and [has_two]: the rules concatenated,
    reshaped to one row per rule, and joined column by column. *)
Definition any_rule (n : nat) (rules : list (list bool))
  : option (list bool) :=
  let flat := List.concat rules in
  rows <- reshape_rows (List.length flat) n flat ;;
  Some (reduce_any n rows).

Definition has_one (n : nat) (t : TypingGAFF) : option (list bool) :=
  any_rule n
    [ (* sp3 carbon *)
      logical_and (is_carbon t)
        (logical_and (is_sp3 t) (is_connected_to_3_heavy t));
      (* sp2 carbon *)
      logical_and (is_carbon t)
        (logical_and (is_sp2 t) (is_connected_to_2_heavy t));
      (* sp1 carbon *)
      logical_and (is_carbon t)
        (logical_and (is_sp1 t) (is_connected_to_1_heavy t));
      (* sp3 nitrogen or phosphorus *)
      logical_and (logical_or (is_nitrogen t) (is_phosphorus t))
        (logical_and (is_sp3 t) (is_connected_to_2_heavy t));
      (* sp2 nitrogen or phosphorus *)
      logical_and (logical_or (is_nitrogen t) (is_phosphorus t))
        (logical_and (is_sp2 t) (is_connected_to_1_heavy t));
      (* sp3 oxygen or sulfur *)
      logical_and (logical_or (is_oxygen t) (is_sulfur t)) (is_sp3 t) ].

Definition has_two (n : nat) (t : TypingGAFF) : option (list bool) :=
  any_rule n
    [ (* sp3 carbon *)
      logical_and (is_carbon t)
        (logical_and (is_sp3 t) (is_connected_to_2_heavy t));
      (* sp2 carbon *)
      logical_and (is_carbon t)
        (logical_and (is_sp2 t) (is_connected_to_1_heavy t));
      (* sp3 nitrogen or phosphorus *)
      logical_and (logical_or (is_nitrogen t) (is_phosphorus t))
        (logical_and (is_sp3 t) (is_connected_to_1_heavy t)) ].

Definition has_three (t : TypingGAFF) : list bool :=
  logical_and (is_carbon t)
    (logical_and (is_sp3 t) (is_connected_to_1_heavy t)).

(** [new_line]: the column with a one in the row of atom [parent]. *)
Definition new_line (n : nat) (parent : Z) : list Q :=
  map (fun k => if k =? parent then 1%Q else 0%Q) (range (Z.of_nat n)).

(** [tf.concat([hydrogen_block, new_line, ...], axis=1)] with [copies]
    copies of the column. *)
Definition append_line (copies : nat) (hydrogen_block : matrix)
  (line : list Q) : matrix :=
  zip_with (fun row x => row ++ repeat x copies) hydrogen_block line.

(** [one_body], [two_body] and [three_body]. *)
Definition body (copies n : nat) (idxs : list Z) (idx : Z)
  (hydrogen_block : matrix) : option matrix :=
  parent <- index idxs idx ;;
  Some (append_line copies hydrogen_block (new_line n parent)).

(** One [tf.while_loop]: [idx] runs from zero up to the number of atoms
    flagged. *)
Fixpoint while_loop (copies n : nat) (idxs : list Z) (rounds : list Z)
  (hydrogen_block : matrix) : option matrix :=
  match rounds with
  | [] => Some hydrogen_block
  | idx :: rest =>
      block <- body copies n idxs idx hydrogen_block ;;
      while_loop copies n idxs rest block
  end.

Definition count_nonzero (mask : list bool) : Z :=
  Z.of_nat (List.length (filter (fun b => b) mask)).

Definition molecule : Type := list Z * matrix.

(** The shape test behind the concatenations: [n] rows of length [n]. *)
Definition is_square (n : nat) (m : matrix) : bool :=
  (List.length m =? n)%nat
  && forallb (fun row => (List.length row =? n)%nat) m.

Definition add_hydrogen (atom_types : TypingGAFF) (mol : molecule)
  : option molecule :=
  let atoms := fst mol in
  let adjacency_map := snd mol in
  let n := List.length atoms in
  let n_atoms := Z.of_nat n in
  has_one <- has_one n atom_types ;;
  let one_idxs := boolean_mask (range n_atoms) has_one in
  has_two <- has_two n atom_types ;;
  let two_idxs := boolean_mask (range n_atoms) has_two in
  let has_three := has_three atom_types in
  let three_idxs := boolean_mask (range n_atoms) has_three in
  let hydrogen_block := repeat [(-1)%Q] n in
  hydrogen_block <-
    while_loop 1 n one_idxs (range (count_nonzero has_one)) hydrogen_block ;;
  hydrogen_block <-
    while_loop 2 n two_idxs (range (count_nonzero has_two)) hydrogen_block ;;
  hydrogen_block <-
    while_loop 3 n three_idxs (range (count_nonzero has_three))
      hydrogen_block ;;
  (* get rid of the first block *)
  let hydrogen_block := map (@tl Q) hydrogen_block in
  first_row <- nth_error hydrogen_block 0 ;;
  let n_hydrogens := List.length first_row in
  let atoms := atoms ++ repeat 9 n_hydrogens in
  (* the two [tf.concat] need [n] rows of [n] columns *)
  if negb (is_square n adjacency_map) then None
  else
    let adjacency_map := zip_with (@app Q) adjacency_map hydrogen_block in
    let adjacency_map :=
      adjacency_map ++ repeat (repeat 0%Q (n + n_hydrogens)) n_hydrogens in
    Some (atoms, adjacency_map).

(** Every predicate of the typing has one flag per atom. *)
Definition well_typed (n : nat) (t : TypingGAFF) : Prop :=
  Forall (fun flags => List.length flags = n)
    [is_carbon t; is_nitrogen t; is_phosphorus t; is_oxygen t; is_sulfur t;
     is_sp1 t; is_sp2 t; is_sp3 t; is_connected_to_1_heavy t;
     is_connected_to_2_heavy t; is_connected_to_3_heavy t].

(** The heavy atom behind each hydrogen column, in the order in which
    the three loops append the columns. *)
Definition parents (one_idxs two_idxs three_idxs : list Z) : list Z :=
  flat_map (fun p => repeat p 1) one_idxs
  ++ flat_map (fun p => repeat p 2) two_idxs
  ++ flat_map (fun p => repeat p 3) three_idxs.

(** The entry of row [i] in a column whose parent is [p]. *)
Definition bond_to (i p : Z) : Q := if i =? p then 1%Q else 0%Q.

(** An sp3 carbon without heavy neighbours, as the typing reports it. *)
Definition lone_sp3_carbon : TypingGAFF :=
  {| is_carbon := [true]; is_nitrogen := [false]; is_phosphorus := [false];
     is_oxygen := [false]; is_sulfur := [false];
     is_sp1 := [false]; is_sp2 := [false]; is_sp3 := [true];
     is_connected_to_1_heavy := [false];
     is_connected_to_2_heavy := [false];
     is_connected_to_3_heavy := [false] |}.

End Hydrogen.

(** ** Words for the properties of the two files *)
Module Vocabulary.
Import Tensor FromSmiles.

Local Open Scope char_scope.
Local Open Scope Z_scope.

(** The string the resolver stages read: stripped, the longer bits
    rewritten. *)
Definition prepared (smiles : string) : list ascii :=
  normalize (strip (chars smiles)).

(** A character that the topology-only stream shows as the filler. *)
Definition is_atom (c : ascii) : bool :=
  in_chars c ORGANIC_ATOMS || Ascii.eqb c "0".

(** A character that the decoder can place: an atom or a topology mark. *)
Definition supported (c : ascii) : bool :=
  is_atom c || in_chars c TOPOLOGY_MARKS.

(** The table of the docstring, [C, N, O, S, P, F, Cl, Br, I] to
    [0 .. 8], on the one-letter names; the filler reads as carbon. *)
Definition element_code (c : ascii) : option Z :=
  match c with
  | "C" | "c" | "0" => Some 0
  | "N" | "n" => Some 1
  | "O" | "o" => Some 2
  | "S" | "s" => Some 3
  | "P" | "p" => Some 4
  | "F" => Some 5
  | "L" => Some 6
  | "R" => Some 7
  | "I" => Some 8
  | _ => None
  end.

Fixpoint element_codes (s : list ascii) : option (list Z) :=
  match s with
  | [] => Some []
  | c :: s' =>
      a <- element_code c ;; rest <- element_codes s' ;; Some (a :: rest)
  end.

(** A closing bracket arrives while [depth] plus the opening brackets
    read so far do not exceed the closing ones. *)
Definition unmatched_close (depth : nat) (chrs : list ascii) : Prop :=
  exists pre post,
    chrs = pre ++ ")" :: post
    /\ (depth + count_occ Ascii.ascii_dec pre "("
        <= count_occ Ascii.ascii_dec pre ")")%nat.

(** The atoms written with one plain capital letter. *)
Definition plain_atoms : list ascii := ["C"; "N"; "O"; "S"; "P"; "F"; "I"].

(** Nothing is recorded below the diagonal: a bond is stored once, at
    the place [(i, j)] with [i <= j]. *)
Definition upper_triangular (m : matrix) : Prop :=
  forall i j x, j < i -> entry m i j = Some x -> x = 0%Q.

(** The bond [(i, j)] of order [v] joins two aromatic atoms. *)
Definition aromatic_bond (aromatic_idxs : list Z) (i j : Z) (v : Q) : bool :=
  existsb (Z.eqb i) aromatic_idxs && existsb (Z.eqb j) aromatic_idxs
  && negb (Qeq_bool v 0).

(** An atom that enters the search for conjugated systems: aromatic
    or on a bond of order two, and carbon, nitrogen or oxygen. *)
Definition sp2_atom (atoms : list Z) (m : matrix) (aromatic_idxs : list Z)
  (a : Z) : Prop :=
  (In a aromatic_idxs
   \/ exists row, index (full m) a = Some row
                  /\ existsb (fun x => Qeq_bool x 2) row = true)
  /\ exists e, index atoms a = Some e /\ 0 <= e <= 2.

(** The members of a row of [conjugate_systems], the padding dropped
    as the last loop drops it. *)
Definition members (padded : list Z) : list Z :=
  filter (fun k => -1 <? k) padded.

(** A row the outer loop records: distinct candidates, none or at
    least three. *)
Definition system_row (size : nat) (padded : list Z) : Prop :=
  NoDup (members padded)
  /\ Forall (fun k => 0 <= k < Z.of_nat size) (members padded)
  /\ (members padded = [] \/ (3 <= List.length (members padded))%nat).

(** A row the search returns. *)
Definition conjugated_system (size : nat) (padded : list Z) : Prop :=
  NoDup (members padded)
  /\ Forall (fun k => 0 <= k < Z.of_nat size) (members padded)
  /\ (3 <= List.length (members padded))%nat.

(** No entry is negative. *)
Definition nonnegative (m : matrix) : Prop :=
  forall i j x, entry m i j = Some x -> (0 <= x)%Q.

End Vocabulary.

(** ** The hydrogen rules, atom by atom *)
Module Rules.
Import Tensor Hydrogen.

(** The flag of atom [i] in one predicate of the typing. *)
Definition flag (l : list bool) (i : nat) : bool := nth i l false.

(** The six rules joined by [has_one], read for atom [i]. *)
Definition one_hydrogen (t : TypingGAFF) (i : nat) : bool :=
  (flag (is_carbon t) i
   && (flag (is_sp3 t) i && flag (is_connected_to_3_heavy t) i))
  || ((flag (is_carbon t) i
       && (flag (is_sp2 t) i && flag (is_connected_to_2_heavy t) i))
  || ((flag (is_carbon t) i
       && (flag (is_sp1 t) i && flag (is_connected_to_1_heavy t) i))
  || (((flag (is_nitrogen t) i || flag (is_phosphorus t) i)
       && (flag (is_sp3 t) i && flag (is_connected_to_2_heavy t) i))
  || (((flag (is_nitrogen t) i || flag (is_phosphorus t) i)
       && (flag (is_sp2 t) i && flag (is_connected_to_1_heavy t) i))
  || ((flag (is_oxygen t) i || flag (is_sulfur t) i)
      && flag (is_sp3 t) i))))).

(** The three rules joined by [has_two]. *)
Definition two_hydrogens (t : TypingGAFF) (i : nat) : bool :=
  (flag (is_carbon t) i
   && (flag (is_sp3 t) i && flag (is_connected_to_2_heavy t) i))
  || ((flag (is_carbon t) i
       && (flag (is_sp2 t) i && flag (is_connected_to_1_heavy t) i))
  || ((flag (is_nitrogen t) i || flag (is_phosphorus t) i)
      && (flag (is_sp3 t) i && flag (is_connected_to_1_heavy t) i))).

(** The rule of [has_three]. *)
Definition three_hydrogens (t : TypingGAFF) (i : nat) : bool :=
  flag (is_carbon t) i
  && (flag (is_sp3 t) i && flag (is_connected_to_1_heavy t) i).

(** The hydrogens the three loops append for atom [i]: the rule sets
    are not exclusive, an atom flagged by several receives the sum. *)
Definition granted (t : TypingGAFF) (i : nat) : nat :=
  (if one_hydrogen t i then 1 else 0)
  + (if two_hydrogens t i then 2 else 0)
  + (if three_hydrogens t i then 3 else 0).

(** The bonds of a row to the hydrogen columns, the first [n] columns
    being the heavy atoms. *)
Definition hydrogens_of (n : nat) (row : list Q) : nat :=
  List.length (filter (fun x => Qeq_bool x 1) (skipn n row)).

End Rules.

(** ** Facts about the tensor primitives *)
Module TensorFacts.
Import Tensor.

Lemma index_of_nat {A : Type} (l : list A) (k : nat) :
  index l (Z.of_nat k) = nth_error l k.
Proof.
  unfold index. destruct (Z.ltb_spec (Z.of_nat k) 0); [lia|].
  now rewrite Nat2Z.id.
Qed.

Lemma index_inv {A : Type} (l : list A) (i : Z) (x : A) :
  index l i = Some x ->
  0 <= i < Z.of_nat (List.length l) /\ nth_error l (Z.to_nat i) = Some x.
Proof.
  unfold index. destruct (Z.ltb_spec i 0); [discriminate|].
  intros E. split; [|exact E].
  assert (Z.to_nat i < List.length l)%nat
    by (apply nth_error_Some; congruence).
  lia.
Qed.

Lemma index_some {A : Type} (l : list A) (i : Z) :
  0 <= i < Z.of_nat (List.length l) -> exists x, index l i = Some x.
Proof.
  intros [H0 H1]. unfold index. destruct (Z.ltb_spec i 0); [lia|].
  destruct (nth_error l (Z.to_nat i)) eqn:E; [eauto|].
  apply nth_error_None in E. lia.
Qed.

Lemma index_none {A : Type} (l : list A) (i : Z) :
  ~ 0 <= i < Z.of_nat (List.length l) -> index l i = None.
Proof.
  intros H. destruct (index l i) eqn:E; [|reflexivity].
  apply index_inv in E. tauto.
Qed.

Lemma index_map {A B : Type} (f : A -> B) (l : list A) (i : Z) :
  index (map f l) i = option_map f (index l i).
Proof.
  unfold index. destruct (i <? 0); [reflexivity|]. apply nth_error_map.
Qed.

Lemma length_range (n : Z) : List.length (range n) = Z.to_nat n.
Proof. unfold range. now rewrite length_map, length_seq. Qed.

Lemma index_range (n i : Z) : 0 <= i < n -> index (range n) i = Some i.
Proof.
  intros H. unfold range. rewrite index_map. unfold index.
  destruct (Z.ltb_spec i 0); [lia|].
  rewrite nth_error_seq.
  destruct (Nat.ltb_spec (Z.to_nat i) (Z.to_nat n)); [|lia].
  simpl. f_equal. lia.
Qed.

Lemma in_range (n k : Z) : In k (range n) <-> 0 <= k < n.
Proof.
  unfold range. rewrite in_map_iff. split.
  - intros [x [<- Hx]]. apply in_seq in Hx. lia.
  - intros H. exists (Z.to_nat k). split; [lia|]. apply in_seq. lia.
Qed.

Lemma range_succ (n : nat) :
  range (Z.of_nat (S n)) = range (Z.of_nat n) ++ [Z.of_nat n].
Proof.
  unfold range. rewrite !Nat2Z.id, seq_S, map_app. reflexivity.
Qed.

Lemma length_replace_nth {A : Type} (k : nat) (l : list A) (x : A) :
  List.length (replace_nth k l x) = List.length l.
Proof.
  revert k; induction l as [|y l IH]; intros [|k]; simpl; auto.
Qed.

Lemma nth_error_replace_nth {A : Type} (k k' : nat) (l : list A) (x : A) :
  nth_error (replace_nth k l x) k' =
  if (k =? k')%nat then option_map (fun _ => x) (nth_error l k')
  else nth_error l k'.
Proof.
  revert k k'; induction l as [|y l IH]; intros [|k] [|k']; simpl; auto;
    destruct (k =? k')%nat; reflexivity.
Qed.

Lemma length_zip_with {A B C : Type} (f : A -> B -> C) l l' :
  List.length (zip_with f l l') = Nat.min (List.length l) (List.length l').
Proof.
  revert l'; induction l as [|x l IH]; intros [|y l']; simpl; auto.
Qed.

Lemma nth_error_zip_with {A B C : Type} (f : A -> B -> C) l l' k :
  nth_error (zip_with f l l') k =
  match nth_error l k, nth_error l' k with
  | Some x, Some y => Some (f x y)
  | _, _ => None
  end.
Proof.
  revert l' k; induction l as [|x l IH]; intros [|y l'] [|k]; simpl; auto.
  destruct (nth_error l k); reflexivity.
Qed.

Lemma in_zip_with_rows {A B C : Type} (f : A -> B -> C) l l' z :
  In z (zip_with f l l') -> exists x y, In x l /\ In y l' /\ z = f x y.
Proof.
  revert l'; induction l as [|a l IH]; intros [|b l']; simpl; try tauto.
  intros [<-|H]; [exists a, b; auto|].
  destruct (IH _ H) as [x [y [? [? ?]]]]. exists x, y. auto.
Qed.

Lemma zip_with_map {A B C D : Type} (f : B -> C -> D) (g : A -> B)
  (h : A -> C) (l : list A) :
  zip_with f (map g l) (map h l) = map (fun x => f (g x) (h x)) l.
Proof. induction l as [|x l IH]; simpl; congruence. Qed.

Lemma index_app_l {A : Type} (l l' : list A) (i : Z) :
  0 <= i < Z.of_nat (List.length l) -> index (l ++ l') i = index l i.
Proof.
  intros H. unfold index. destruct (Z.ltb_spec i 0); [lia|].
  apply nth_error_app1. lia.
Qed.

Lemma index_app_r {A : Type} (l l' : list A) (k : Z) :
  0 <= k -> index (l ++ l') (Z.of_nat (List.length l) + k) = index l' k.
Proof.
  intros H. unfold index.
  destruct (Z.ltb_spec (Z.of_nat (List.length l) + k) 0); [lia|].
  destruct (Z.ltb_spec k 0); [lia|].
  rewrite nth_error_app2 by lia. f_equal. lia.
Qed.

Lemma index_repeat {A : Type} (x : A) (n : nat) (i : Z) :
  0 <= i < Z.of_nat n -> index (repeat x n) i = Some x.
Proof.
  intros H. unfold index. destruct (Z.ltb_spec i 0); [lia|].
  apply nth_error_repeat. lia.
Qed.

Lemma index_zip_with {A B C : Type} (f : A -> B -> C) l l' i :
  index (zip_with f l l') i =
  match index l i, index l' i with
  | Some x, Some y => Some (f x y)
  | _, _ => None
  end.
Proof.
  unfold index. destruct (i <? 0); [reflexivity|]. apply nth_error_zip_with.
Qed.

Lemma index_zip3_with {A B C D : Type} (f : A -> B -> C -> D) l l' l'' i :
  index (FromSmiles.zip3_with f l l' l'') i =
  match index l i, index l' i, index l'' i with
  | Some x, Some y, Some z => Some (f x y z)
  | _, _, _ => None
  end.
Proof.
  unfold FromSmiles.zip3_with. rewrite index_zip_with.
  assert (H : index (combine l l') i =
              match index l i, index l' i with
              | Some x, Some y => Some (x, y)
              | _, _ => None
              end).
  { unfold index. destruct (i <? 0); [reflexivity|].
    generalize (Z.to_nat i). clear. revert l'.
    induction l as [|x l IH]; intros [|y l'] [|k]; simpl; auto.
    destruct (nth_error l k); reflexivity. }
  rewrite H. destruct (index l i), (index l' i), (index l'' i); reflexivity.
Qed.

(** *** Reading and writing one entry *)

Lemma entry_inside (n : nat) (m : matrix) (i j : Z) :
  square n m -> inside n (i, j) -> exists v, entry m i j = Some v.
Proof.
  intros [Hl Hr] [Hi Hj]; simpl in *. unfold entry.
  destruct (index_some m i) as [row E]; [lia|]. rewrite E.
  apply index_some.
  apply index_inv in E as [_ E]. apply nth_error_In in E.
  rewrite Forall_forall in Hr. rewrite (Hr _ E). exact Hj.
Qed.

Lemma entry_inv (n : nat) (m : matrix) (i j : Z) (v : Q) :
  square n m -> entry m i j = Some v -> inside n (i, j).
Proof.
  intros [Hl Hr]. unfold entry.
  destruct (index m i) as [row|] eqn:E; [|discriminate].
  intros E'. apply index_inv in E as [Hi E]. apply index_inv in E' as [Hj _].
  apply nth_error_In in E. rewrite Forall_forall in Hr.
  rewrite (Hr _ E) in Hj. split; simpl; lia.
Qed.

Lemma set_entry_square (n : nat) (m m' : matrix) i j v :
  square n m -> set_entry m i j v = Some m' -> square n m'.
Proof.
  intros [Hl Hr]. unfold set_entry.
  destruct (index m i) as [row|] eqn:E; [|discriminate].
  destruct (index row j) eqn:E'; [|discriminate].
  intros [= <-]. split.
  - now rewrite length_replace_nth.
  - apply Forall_forall. intros r Hin.
    apply In_nth_error in Hin as [k Hk].
    rewrite nth_error_replace_nth in Hk.
    rewrite Forall_forall in Hr.
    destruct (Nat.eqb_spec (Z.to_nat i) k).
    + destruct (nth_error m k) eqn:Ek; [|discriminate].
      injection Hk as <-. rewrite length_replace_nth.
      apply index_inv in E as [_ E]. apply nth_error_In in E. auto.
    + apply nth_error_In in Hk. auto.
Qed.

Lemma set_entry_some (n : nat) (m : matrix) i j v :
  square n m -> inside n (i, j) -> exists m', set_entry m i j v = Some m'.
Proof.
  intros Hs Hin. destruct (entry_inside n m i j Hs Hin) as [w E].
  unfold entry in E. unfold set_entry.
  destruct (index m i) as [row|]; [|discriminate]. rewrite E. eauto.
Qed.

Lemma set_entry_same (m m' : matrix) i j v :
  set_entry m i j v = Some m' -> entry m' i j = Some v.
Proof.
  unfold set_entry, entry.
  destruct (index m i) as [row|] eqn:E; [|discriminate].
  destruct (index row j) as [w|] eqn:E'; [|discriminate].
  intros [= <-].
  apply index_inv in E as [Hi E]. apply index_inv in E' as [Hj E'].
  unfold index. destruct (Z.ltb_spec i 0); [lia|].
  rewrite nth_error_replace_nth, Nat.eqb_refl, E. simpl.
  destruct (Z.ltb_spec j 0); [lia|].
  now rewrite nth_error_replace_nth, Nat.eqb_refl, E'.
Qed.

Lemma set_entry_other (m m' : matrix) i j v i' j' :
  set_entry m i j v = Some m' -> (i, j) <> (i', j') ->
  entry m' i' j' = entry m i' j'.
Proof.
  unfold set_entry, entry.
  destruct (index m i) as [row|] eqn:E; [|discriminate].
  destruct (index row j) as [w|] eqn:E'; [|discriminate].
  intros [= <-] Hne.
  apply index_inv in E as [Hi E]. apply index_inv in E' as [Hj E'].
  unfold index at 1 3. destruct (Z.ltb_spec i' 0); [reflexivity|].
  rewrite nth_error_replace_nth.
  destruct (Nat.eqb_spec (Z.to_nat i) (Z.to_nat i')) as [Ei|Ei];
    [|reflexivity].
  assert (i = i') by lia. subst i'.
  rewrite E. simpl. unfold index. destruct (Z.ltb_spec j' 0); [reflexivity|].
  rewrite nth_error_replace_nth.
  destruct (Nat.eqb_spec (Z.to_nat j) (Z.to_nat j')) as [Ej|Ej];
    [|reflexivity].
  assert (j = j') by lia. congruence.
Qed.

(** *** Scatter updates *)

Lemma scatter_square (n : nat) idxs : forall m vals m',
  square n m -> scatter_nd_update m idxs vals = Some m' -> square n m'.
Proof.
  induction idxs as [|[i j] idxs IH]; intros m [|v vals] m' Hs; simpl;
    try discriminate.
  - now intros [= <-].
  - destruct (set_entry m i j v) as [m1|] eqn:E; [|discriminate].
    apply IH. eapply set_entry_square; eauto.
Qed.

Lemma scatter_some (n : nat) idxs : forall m vals,
  square n m -> List.length idxs = List.length vals ->
  Forall (inside n) idxs ->
  exists m', scatter_nd_update m idxs vals = Some m'.
Proof.
  induction idxs as [|[i j] idxs IH]; intros m [|v vals] Hs Hl Hin;
    simpl in *; try discriminate; eauto.
  inversion Hin as [|? ? H1 H2]; subst.
  destruct (set_entry_some n m i j v Hs H1) as [m1 E]. rewrite E.
  apply IH; auto. eapply set_entry_square; eauto.
Qed.

(** A place that no update names keeps its entry. *)
Lemma scatter_other idxs : forall m vals m' i j,
  scatter_nd_update m idxs vals = Some m' -> ~ In (i, j) idxs ->
  entry m' i j = entry m i j.
Proof.
  induction idxs as [|[a b] idxs IH]; intros m [|v vals] m' i j; simpl;
    try discriminate.
  - now intros [= <-].
  - destruct (set_entry m a b v) as [m1|] eqn:E; [|discriminate].
    intros Hsc Hnin. rewrite (IH _ _ _ _ _ Hsc) by tauto.
    eapply set_entry_other; [eassumption|].
    intros [= -> ->]. apply Hnin. now left.
Qed.

(** A place that is named, and always with the value [v], ends at [v]. *)
Lemma scatter_const idxs : forall m vals m' i j v,
  scatter_nd_update m idxs vals = Some m' -> In (i, j) idxs ->
  (forall w, In ((i, j), w) (combine idxs vals) -> w = v) ->
  entry m' i j = Some v.
Proof.
  induction idxs as [|[a b] idxs IH]; intros m [|w vals] m' i j v; simpl;
    try discriminate; try tauto.
  destruct (set_entry m a b w) as [m1|] eqn:E; [|discriminate].
  intros Hsc Hin Hv.
  destruct (in_dec (fun p q : Z * Z =>
              match Z.eq_dec (fst p) (fst q), Z.eq_dec (snd p) (snd q) with
              | left e1, left e2 =>
                  left (eq_trans (surjective_pairing p)
                          (eq_trans (f_equal2 pair e1 e2)
                             (eq_sym (surjective_pairing q))))
              | right ne, _ => right (fun e => ne (f_equal fst e))
              | _, right ne => right (fun e => ne (f_equal snd e))
              end) (i, j) idxs) as [Hin'|Hnin].
  - eapply IH; eauto.
  - rewrite (scatter_other _ _ _ _ _ _ Hsc Hnin).
    destruct Hin as [[= -> ->]|]; [|tauto].
    assert (w = v) by (apply Hv; now left). subst.
    eapply set_entry_same; eauto.
Qed.

Lemma gather_nd_some (n : nat) (m : matrix) idxs :
  square n m -> Forall (inside n) idxs ->
  exists vs, gather_nd m idxs = Some vs
             /\ List.length vs = List.length idxs
             /\ forall k i j, nth_error idxs k = Some (i, j) ->
                              nth_error vs k = entry m i j.
Proof.
  intros Hs. induction idxs as [|[i j] idxs IH]; intros Hin; simpl.
  - exists []. repeat split; auto. intros [|k]; discriminate.
  - inversion Hin as [|? ? H1 H2]; subst.
    destruct (entry_inside n m i j Hs H1) as [v E]. rewrite E.
    destruct (IH H2) as [vs [-> [Hl Hk]]].
    exists (v :: vs). repeat split; simpl; auto.
    intros [|k] i' j'; simpl; [intros [= <- <-]; auto|apply Hk].
Qed.

(** *** Masks *)

Lemma gather_where_from {A : Type} (l : list A) : forall pre mask,
  List.length mask = List.length l ->
  gather (pre ++ l) (where_from (Z.of_nat (List.length pre)) mask)
  = Some (boolean_mask l mask).
Proof.
  induction l as [|x l IH]; intros pre [|b mask] Hl; simpl in *;
    try discriminate; auto.
  injection Hl as Hl.
  specialize (IH (pre ++ [x]) mask Hl).
  rewrite length_app, <- app_assoc in IH. simpl in IH.
  replace (Z.of_nat (List.length pre + 1)) with
    (Z.of_nat (List.length pre) + 1) in IH by lia.
  destruct b; simpl; rewrite ?IH; auto.
  rewrite index_of_nat, nth_error_app2, Nat.sub_diag by lia. reflexivity.
Qed.

Lemma gather_where {A : Type} (l : list A) (mask : list bool) :
  List.length mask = List.length l ->
  gather l (tf_where mask) = Some (boolean_mask l mask).
Proof. intros H. exact (gather_where_from l [] mask H). Qed.

Lemma in_boolean_mask {A : Type} (l : list A) : forall mask x,
  In x (boolean_mask l mask) -> In x l.
Proof.
  induction l as [|y l IH]; intros [|b mask] x; simpl; try tauto.
  destruct b; simpl; intros H; [destruct H; auto|]; right; eapply IH; eauto.
Qed.

Lemma length_boolean_mask {A : Type} (l : list A) : forall mask,
  List.length l = List.length mask ->
  List.length (boolean_mask l mask)
  = List.length (filter (fun b : bool => b) mask).
Proof.
  induction l as [|x l IH]; intros [|b mask] H; simpl in *;
    try discriminate; auto.
  destruct b; simpl; auto.
Qed.

Lemma boolean_mask_map {A : Type} (f : A -> bool) (l : list A) :
  boolean_mask l (map f l) = filter f l.
Proof. induction l as [|x l IH]; simpl; [|destruct (f x)]; congruence. Qed.

End TensorFacts.

(** ** The resolver stages of [smiles_to_organic_topological_molecule] *)
Module Resolver.
Import Tensor TensorFacts FromSmiles.

Local Open Scope char_scope.
Local Open Scope Z_scope.

Lemma marked_eq (idxs : list Z) (chrs : list ascii) (c : ascii) :
  List.length chrs = List.length idxs ->
  marked idxs chrs c = Some (boolean_mask idxs (map (Ascii.eqb c) chrs)).
Proof.
  intros H. unfold marked. apply gather_where. now rewrite length_map.
Qed.

(** The marked entries are the anchors of the occurrences of [c]. *)
Lemma in_marked (c : ascii) (idxs : list Z) : forall chrs a,
  In a (boolean_mask idxs (map (Ascii.eqb c) chrs)) <->
  exists p, nth_error chrs p = Some c /\ nth_error idxs p = Some a.
Proof.
  induction idxs as [|x idxs IH]; intros [|d chrs] a; simpl.
  - split; [tauto|]. intros [[|p] [H _]]; discriminate.
  - split; [tauto|]. intros [[|p] [_ H]]; discriminate.
  - split; [tauto|]. intros [[|p] [H _]]; discriminate.
  - destruct (Ascii.eqb_spec c d) as [<-|Hne]; simpl; rewrite IH; split.
    + intros [<-|[p Hp]]; [exists 0%nat; auto|exists (S p); auto].
    + intros [[|p] [H1 H2]]; simpl in *; [left; congruence|right; eauto].
    + intros [p Hp]. exists (S p); auto.
    + intros [[|p] [H1 H2]]; simpl in *; [congruence|eauto].
Qed.

Lemma combine_const {A B C : Type} (c : C) (l : list A) (l' : list B) x w :
  In (x, w) (combine l (map (fun _ => c) l')) -> w = c.
Proof.
  intros H. apply in_combine_r in H.
  apply in_map_iff in H as [y [<- _]]. reflexivity.
Qed.

(** [decode] runs the stages one after the other. *)
Lemma decode_stages (smiles : string) (st : stages) :
  decode smiles = Some st ->
  bond_orders (chain st) (topology_chrs st) (topology_idxs st)
  = Some (after_bond_orders st)
  /\ branches (n_atoms st) (after_bond_orders st) (topology_chrs st)
       (topology_idxs st) = Some (after_branches st)
  /\ rings (after_branches st) (topology_chrs st) (topology_idxs st)
     = Some (after_rings st)
  /\ aromaticity (after_rings st) (aromatic st) = Some (after_aromaticity st)
  /\ conjugation (n_atoms st) (atoms st) (after_aromaticity st) (aromatic st)
     = Some (resolved st).
Proof.
  unfold decode.
  repeat match goal with
         | |- context [match ?e with Some _ => _ | None => _ end] =>
             destruct e eqn:?; try discriminate
         end.
  intros [= <-]. simpl. auto.
Qed.

Lemma length_gather {A : Type} (l : list A) (idxs : list Z) : forall xs,
  gather l idxs = Some xs -> List.length xs = List.length idxs.
Proof.
  induction idxs as [|i idxs IH]; simpl; intros xs.
  - now intros [= <-].
  - destruct (index l i); [|discriminate].
    destruct (gather l idxs) as [ys|]; [|discriminate].
    intros [= <-]. simpl. f_equal. now apply IH.
Qed.

Lemma square_chain_matrix (n : Z) : square (Z.to_nat n) (chain_matrix n).
Proof.
  unfold chain_matrix. split.
  - now rewrite length_map, length_range.
  - apply Forall_forall. intros row H. apply in_map_iff in H as [i [<- _]].
    now rewrite length_map, length_range.
Qed.

(** The stages of [decode] receive aligned topology tensors and a
    square adjacency map. *)
Lemma decode_shapes (smiles : string) (st : stages) :
  decode smiles = Some st ->
  List.length (topology_chrs st) = List.length (topology_idxs st)
  /\ square (Z.to_nat (n_atoms st)) (chain st).
Proof.
  unfold decode.
  repeat match goal with
         | |- context [match ?e with Some _ => _ | None => _ end] =>
             destruct e eqn:?; try discriminate
         end.
  intros [= <-]. cbn [topology_chrs topology_idxs n_atoms chain]. split.
  - match goal with
    | H : topology_characters _ = Some _ |- _ =>
        apply length_gather in H; rewrite H
    end.
    unfold shift_indices. rewrite length_zip_with, length_range. lia.
  - apply square_chain_matrix.
Qed.

(** C8.  Bond-order resolver: after the stage every triple-bond marker
    with anchor [a] has left order 3 on the bond between atoms [a] and
    [a + 1], and every double-bond marker order 2 there (no triple-bond
    marker sharing the anchor); the stage succeeds when each marker is
    flanked by two atoms.  In the decoded molecule of "C=C" the bond
    (0, 1) has order 2, in that of "C#C" order 3. *)
Theorem bond_order_markers :
  (forall (n : nat) (m : matrix) (chrs : list ascii) (idxs : list Z),
      square n m ->
      List.length chrs = List.length idxs ->
      (forall p c a,
          nth_error chrs p = Some c -> c = "=" \/ c = "#" ->
          nth_error idxs p = Some a -> 0 <= a /\ a + 1 < Z.of_nat n) ->
      exists m',
        bond_orders m chrs idxs = Some m'
        /\ (forall p a,
               nth_error chrs p = Some "#" -> nth_error idxs p = Some a ->
               entry m' a (a + 1) = Some 3%Q)
        /\ (forall p a,
               nth_error chrs p = Some "=" -> nth_error idxs p = Some a ->
               (forall q, nth_error chrs q = Some "#" ->
                          nth_error idxs q <> Some a) ->
               entry m' a (a + 1) = Some 2%Q))
  /\ (exists st, decode "C=C" = Some st
                 /\ entry (resolved st) 0 1 = Some 2%Q)
  /\ (exists st, decode "C#C" = Some st
                 /\ entry (resolved st) 0 1 = Some 3%Q).
Proof.
  split; [|split; eexists; split; vm_compute; reflexivity].
  intros n m chrs idxs Hs Hl Hflank.
  unfold bond_orders. rewrite !marked_eq by assumption.
  set (doubles := boolean_mask idxs (map (Ascii.eqb "=") chrs)).
  set (triples := boolean_mask idxs (map (Ascii.eqb "#") chrs)).
  assert (Hin : forall c l, (c = "=" \/ c = "#") ->
                l = boolean_mask idxs (map (Ascii.eqb c) chrs) ->
                Forall (inside n) (map (fun a => (a, a + 1)) l)).
  { intros c l Hc ->. apply Forall_forall. intros [i j] Hij.
    apply in_map_iff in Hij as [a [[= <- <-] Ha]].
    apply in_marked in Ha as [p [H1 H2]].
    destruct (Hflank p c a H1 Hc H2). split; simpl; lia. }
  destruct (scatter_some n (map (fun a => (a, a + 1)) doubles) m
              (map (fun _ => 2%Q) doubles) Hs) as [m1 E1];
    [now rewrite !length_map|apply (Hin "="); auto|].
  rewrite E1.
  assert (Hs1 : square n m1) by (eapply scatter_square; eauto).
  destruct (scatter_some n (map (fun a => (a, a + 1)) triples) m1
              (map (fun _ => 3%Q) triples) Hs1) as [m2 E2];
    [now rewrite !length_map|apply (Hin "#"); auto|].
  exists m2. split; [exact E2|]. split.
  - intros p a H1 H2.
    eapply scatter_const; [exact E2| |intros w; apply combine_const].
    apply in_map_iff. exists a. split; [reflexivity|].
    apply in_marked. eauto.
  - intros p a H1 H2 Hno.
    rewrite (scatter_other _ _ _ _ _ _ E2).
    + eapply scatter_const; [exact E1| |intros w; apply combine_const].
      apply in_map_iff. exists a. split; [reflexivity|].
      apply in_marked. eauto.
    + intros Hin'. apply in_map_iff in Hin' as [b [[= <-] Hb]].
      apply in_marked in Hb as [q [Hq1 Hq2]]. exact (Hno q Hq1 Hq2).
Qed.

(** The stage of [decode "C=CC#C"] is within the theorem's reach. *)
Lemma bond_order_markers_witness :
  exists m',
    bond_orders (chain_matrix 4) ["="; "#"] [0; 2] = Some m'
    /\ entry m' 2 3 = Some 3%Q /\ entry m' 0 1 = Some 2%Q.
Proof.
  destruct (proj1 bond_order_markers 4%nat (chain_matrix 4) ["="; "#"] [0; 2])
    as [m' [E [H3 H2]]].
  - split; [reflexivity|]. repeat constructor.
  - reflexivity.
  - intros [|[|[|p]]] c a; simpl; intros [= <-] _ [= <-]; lia.
  - exists m'. split; [exact E|]. split.
    + apply (H3 1%nat); reflexivity.
    + apply (H2 0%nat); try reflexivity.
      intros [|[|[|q]]]; simpl; congruence.
Defined.

(** *** Ring closures *)

Lemma occurs_nonempty (chrs : list ascii) (c : ascii) :
  occurs chrs c = true -> (0 <? Z.of_nat (List.length chrs)) = true.
Proof. destruct chrs; [discriminate|reflexivity]. Qed.

(** One round of the ring loop. *)
Lemma ring_loop_unfold (fuel : nat) chrs idxs k d ai ao :
  List.length chrs = List.length idxs ->
  index connection_chrs k = Some d ->
  (k <? max_iter) = true ->
  ring_loop (S fuel) chrs idxs k ai ao =
  if occurs chrs d
  then ring_loop fuel chrs idxs (k + 1) (ai ++ ring_pairs chrs idxs d)
         (ao ++ map (fun _ => 1%Q) (ring_pairs chrs idxs d))
  else Some (ai, ao).
Proof.
  intros Hl Hd Hk. cbn [ring_loop].
  unfold ring_loop_cond, ring_loop_body. rewrite Hd, Hk.
  fold (occurs chrs d). destruct (occurs chrs d) eqn:Ho; simpl.
  - rewrite (occurs_nonempty _ _ Ho), marked_eq by assumption.
    fold (ring_pairs chrs idxs d). cbn [fst snd].
    destruct (ring_pairs chrs idxs d) eqn:Ep; [|reflexivity].
    simpl. now rewrite !app_nil_r.
  - reflexivity.
Qed.

Lemma ring_loop_end (fuel : nat) chrs idxs ai ao :
  ring_loop fuel chrs idxs 5 ai ao = Some (ai, ao).
Proof. destruct fuel; reflexivity. Qed.

Ltac ring_done :=
  cbn [Z.add Pos.add Pos.succ fst snd tl flat_map app map];
  rewrite <- ?app_assoc, ?map_app, ?app_nil_r; reflexivity.

(** The loop never runs out of rounds: it writes the pairs of the
    leading digits, each with order one. *)
Lemma ring_updates_eq (chrs : list ascii) (idxs : list Z) :
  List.length chrs = List.length idxs ->
  ring_updates chrs idxs =
  Some (flat_map (ring_pairs chrs idxs) (resolved_digits chrs),
        map (fun _ => 1%Q)
          (flat_map (ring_pairs chrs idxs) (resolved_digits chrs))).
Proof.
  intros Hl. unfold ring_updates, resolved_digits.
  destruct (0 <? Z.of_nat (List.length chrs)) eqn:Hn.
  - change (Z.to_nat max_iter) with 5%nat.
    cbn [firstn connection_chrs leading].
    rewrite (ring_loop_unfold 4 chrs idxs 0 "1" _ _ Hl eq_refl eq_refl).
    destruct (occurs chrs "1"); [|reflexivity].
    rewrite (ring_loop_unfold 3 chrs idxs 1 "2" _ _ Hl eq_refl eq_refl).
    destruct (occurs chrs "2"); [|ring_done].
    rewrite (ring_loop_unfold 2 chrs idxs 2 "3" _ _ Hl eq_refl eq_refl).
    destruct (occurs chrs "3"); [|ring_done].
    rewrite (ring_loop_unfold 1 chrs idxs 3 "4" _ _ Hl eq_refl eq_refl).
    destruct (occurs chrs "4"); [|ring_done].
    rewrite (ring_loop_unfold 0 chrs idxs 4 "5" _ _ Hl eq_refl eq_refl).
    destruct (occurs chrs "5"); [|ring_done].
    rewrite ring_loop_end. ring_done.
  - destruct chrs; [|discriminate]. reflexivity.
Qed.

Lemma in_insert_sorted (x y : Z) (l : list Z) :
  In y (insert_sorted x l) <-> y = x \/ In y l.
Proof.
  induction l as [|z l IH]; simpl; [intuition|].
  destruct (x <=? z); simpl; rewrite ?IH; intuition.
Qed.

Lemma in_sort (y : Z) (l : list Z) : In y (sort l) <-> In y l.
Proof.
  unfold sort. induction l as [|x l IH]; simpl; [tauto|].
  rewrite in_insert_sorted, IH. intuition.
Qed.

Lemma in_enumerate_from {A : Type} (l : list A) : forall s k (x : A),
  In (k, x) (enumerate_from s l) <->
  s <= k /\ nth_error l (Z.to_nat (k - s)) = Some x.
Proof.
  induction l as [|y l IH]; intros s k x; simpl.
  - split; [tauto|]. intros [_ H]. destruct (Z.to_nat (k - s)); discriminate.
  - rewrite IH. split.
    + intros [[= <- <-]|[Hk Hx]].
      * rewrite Z.sub_diag. simpl. split; [lia|reflexivity].
      * split; [lia|].
        replace (Z.to_nat (k - s)) with (S (Z.to_nat (k - (s + 1)))) by lia.
        exact Hx.
    + intros [Hk Hx]. destruct (Z.eq_dec k s) as [->|Hne].
      * rewrite Z.sub_diag in Hx. simpl in Hx. left. congruence.
      * right. split; [lia|].
        replace (Z.to_nat (k - s)) with (S (Z.to_nat (k - (s + 1)))) in Hx
          by lia.
        exact Hx.
Qed.

Lemma in_enumerate_iff {A : Type} (l : list A) (k : Z) (x : A) :
  In (k, x) (enumerate l) <-> index l k = Some x.
Proof.
  unfold enumerate. rewrite in_enumerate_from, Z.sub_0_r. unfold index.
  destruct (Z.ltb_spec k 0); split; try lia; try tauto; try discriminate.
Qed.

Lemma in_enumerate {A : Type} (l : list A) (k : Z) (x : A) :
  In (k, x) (enumerate l) -> In x l.
Proof.
  rewrite in_enumerate_iff. intros H. apply index_inv in H as [_ H].
  eapply nth_error_In; eauto.
Qed.

Lemma in_connection_pairs (l : list Z) (a b : Z) :
  In (a, b) (connection_pairs l) -> In a l /\ In b l.
Proof.
  unfold connection_pairs. intros H.
  apply in_flat_map in H as [[ky y] [Hy H]].
  apply in_map_iff in H as [[kx x] [[= <- <-] Hx]].
  apply filter_In in Hx as [Hx _].
  split; eapply in_enumerate; eauto.
Qed.

Lemma ring_pairs_anchors chrs idxs c a b :
  In (a, b) (ring_pairs chrs idxs c) -> In a idxs /\ In b idxs.
Proof.
  unfold ring_pairs. intros H. apply in_connection_pairs in H as [Ha Hb].
  rewrite in_sort in Ha, Hb. split; eapply in_boolean_mask; eauto.
Qed.

(** The digits resolved are those up to five whose predecessors all
    occur. *)
Lemma resolved_digits_iff (chrs : list ascii) (d : ascii) :
  In d (resolved_digits chrs) <->
  exists k, (1 <= k <= 5)%nat /\ d = digit k
            /\ forall k', (1 <= k' <= k)%nat -> occurs chrs (digit k') = true.
Proof.
  unfold resolved_digits.
  change (firstn (Z.to_nat max_iter) connection_chrs)
    with [digit 1; digit 2; digit 3; digit 4; digit 5].
  cbn [leading]. split.
  - intros H.
    destruct (occurs chrs (digit 1)) eqn:E1; [|destruct H].
    destruct H as [<-|H];
      [exists 1%nat; repeat split; auto; intros k' Hk';
       assert (k' = 1)%nat as -> by lia; assumption|].
    destruct (occurs chrs (digit 2)) eqn:E2; [|destruct H].
    destruct H as [<-|H];
      [exists 2%nat; repeat split; auto; intros k' Hk';
       assert (k' = 1 \/ k' = 2)%nat as [->| ->] by lia; assumption|].
    destruct (occurs chrs (digit 3)) eqn:E3; [|destruct H].
    destruct H as [<-|H];
      [exists 3%nat; repeat split; auto; intros k' Hk';
       assert (k' = 1 \/ k' = 2 \/ k' = 3)%nat as [->|[->| ->]] by lia;
       assumption|].
    destruct (occurs chrs (digit 4)) eqn:E4; [|destruct H].
    destruct H as [<-|H];
      [exists 4%nat; repeat split; auto; intros k' Hk';
       assert (k' = 1 \/ k' = 2 \/ k' = 3 \/ k' = 4)%nat
         as [->|[->|[->| ->]]] by lia;
       assumption|].
    destruct (occurs chrs (digit 5)) eqn:E5; [|destruct H].
    destruct H as [<-|[]].
    exists 5%nat; repeat split; auto; intros k' Hk'.
    assert (k' = 1 \/ k' = 2 \/ k' = 3 \/ k' = 4 \/ k' = 5)%nat
      as [->|[->|[->|[->| ->]]]] by lia; assumption.
  - intros [k [Hk [-> Hall]]].
    assert (H1 : occurs chrs (digit 1) = true) by (apply Hall; lia).
    rewrite H1.
    destruct (Nat.eq_dec k 1) as [->|]; [now left|right].
    assert (H2 : occurs chrs (digit 2) = true) by (apply Hall; lia).
    rewrite H2.
    destruct (Nat.eq_dec k 2) as [->|]; [now left|right].
    assert (H3 : occurs chrs (digit 3) = true) by (apply Hall; lia).
    rewrite H3.
    destruct (Nat.eq_dec k 3) as [->|]; [now left|right].
    assert (H4 : occurs chrs (digit 4) = true) by (apply Hall; lia).
    rewrite H4.
    destruct (Nat.eq_dec k 4) as [->|]; [now left|right].
    assert (H5 : occurs chrs (digit 5) = true) by (apply Hall; lia).
    rewrite H5.
    assert (k = 5)%nat as -> by lia. now left.
Qed.

Lemma rings_without_one (m : matrix) chrs idxs :
  List.length chrs = List.length idxs ->
  occurs chrs "1" = false -> rings m chrs idxs = Some m.
Proof.
  intros Hl H1. unfold rings. rewrite ring_updates_eq by assumption.
  unfold resolved_digits.
  change (firstn (Z.to_nat max_iter) connection_chrs)
    with ["1"; "2"; "3"; "4"; "5"].
  cbn [leading]. rewrite H1. reflexivity.
Qed.

Section RingStage.

(** The stage runs on an [n] by [n] adjacency map and on the two
    aligned topology tensors, every anchor being an atom index. *)
Variables (n : nat) (m : matrix) (chrs : list ascii) (idxs : list Z).
Hypothesis Hsquare : square n m.
Hypothesis Hlength : List.length chrs = List.length idxs.
Hypothesis Hanchor : forall a, In a idxs -> 0 <= a < Z.of_nat n.

(** What the ring stage does to the adjacency map. *)
Lemma rings_spec :
  exists m',
    rings m chrs idxs = Some m'
    /\ square n m'
    /\ (forall d a b,
           In d (resolved_digits chrs) -> In (a, b) (ring_pairs chrs idxs d) ->
           entry m' a b = Some 1%Q)
    /\ (forall a b,
           (forall d, In d (resolved_digits chrs) ->
                      ~ In (a, b) (ring_pairs chrs idxs d)) ->
           entry m' a b = entry m a b).
Proof.
  unfold rings. rewrite ring_updates_eq by assumption.
  cbn [fst snd].
  set (pairs := flat_map (ring_pairs chrs idxs) (resolved_digits chrs)).
  destruct (scatter_some n pairs m (map (fun _ => 1%Q) pairs) Hsquare)
    as [m' E].
  - now rewrite length_map.
  - apply Forall_forall. intros [a b] Hp. unfold pairs in Hp.
    apply in_flat_map in Hp as [d [_ Hp]].
    apply ring_pairs_anchors in Hp as [Ha Hb]. split; simpl; auto.
  - exists m'. split; [exact E|]. split; [eapply scatter_square; eauto|].
    split.
    + intros d a b Hd Hp.
      eapply scatter_const; [exact E| |].
      * apply in_flat_map. eauto.
      * intros w Hw. eapply combine_const; eauto.
    + intros a b Hno. eapply scatter_other; [exact E|].
      intros Hp. apply in_flat_map in Hp as [d [Hd Hp]]. exact (Hno d Hd Hp).
Qed.

(** C2, as the code has it.  The ring stage takes the digits 1 to 5 in
    increasing order and stops at the first that does not occur: when
    "1" is absent the adjacency map is returned as it was; the pairs of
    a digit whose predecessors all occur are set to order 1; every
    place that is not such a pair keeps its entry, so a digit that
    occurs after an absent smaller one is not resolved. *)
Theorem ring_digits_leading_run :
  exists m',
    rings m chrs idxs = Some m'
    /\ (occurs chrs "1" = false -> m' = m)
    /\ (forall k a b,
           (1 <= k <= 5)%nat ->
           (forall k', (1 <= k' <= k)%nat -> occurs chrs (digit k') = true) ->
           In (a, b) (ring_pairs chrs idxs (digit k)) ->
           entry m' a b = Some 1%Q)
    /\ (forall a b,
           (forall k,
               (1 <= k <= 5)%nat ->
               (forall k', (1 <= k' <= k)%nat ->
                           occurs chrs (digit k') = true) ->
               ~ In (a, b) (ring_pairs chrs idxs (digit k))) ->
           entry m' a b = entry m a b).
Proof.
  destruct rings_spec as [m' [E [_ [Hset Hkeep]]]].
  exists m'. split; [exact E|]. split; [|split].
  - intros H1. rewrite (rings_without_one m chrs idxs Hlength H1) in E.
    congruence.
  - intros k a b Hk Hall Hp. apply (Hset (digit k)); auto.
    apply resolved_digits_iff. eauto.
  - intros a b Hno. apply Hkeep. intros d Hd.
    apply resolved_digits_iff in Hd as [k [Hk [-> Hall]]]. auto.
Qed.

(** C3, as the code has it.  A digit from one to five whose
    predecessors all occur and that occurs exactly twice, after the
    atoms [a] and [b], leaves a bond of order 1 between the two; a
    place that is not joined by one of the digits 1 to 5 keeps its
    entry whatever the digits 6 to 9 say. *)
Theorem ring_digit_pair (k : nat) (a b : Z) :
  (1 <= k <= 5)%nat ->
  (forall k', (1 <= k' <= k)%nat -> occurs chrs (digit k') = true) ->
  boolean_mask idxs (map (Ascii.eqb (digit k)) chrs) = [a; b] ->
  exists m',
    rings m chrs idxs = Some m'
    /\ entry m' (Z.min a b) (Z.max a b) = Some 1%Q
    /\ (forall i j,
           (forall k', (1 <= k' <= 5)%nat ->
                       ~ In (i, j) (ring_pairs chrs idxs (digit k'))) ->
           entry m' i j = entry m i j).
Proof.
  intros Hk Hall Hab.
  destruct rings_spec as [m' [E [_ [Hset Hkeep]]]].
  exists m'. split; [exact E|]. split.
  - apply (Hset (digit k)); [apply resolved_digits_iff; eauto|].
    unfold ring_pairs. rewrite Hab. unfold sort. cbn [fold_right insert_sorted].
    destruct (Z.leb_spec a b).
    + rewrite Z.min_l, Z.max_r by lia. now left.
    + rewrite Z.min_r, Z.max_l by lia. now left.
  - intros i j Hno. apply Hkeep. intros d Hd.
    apply resolved_digits_iff in Hd as [k' [Hk' [-> _]]]. auto.
Qed.

(** C6, as the code has it.  The ring stage overwrites: every pair of
    atoms joined by a digit it resolves ends at order 1 whatever the
    entry held before, so the entry is unchanged exactly when it held
    1 already; every other place keeps its entry. *)
Theorem ring_bonds_overwrite :
  exists m',
    rings m chrs idxs = Some m'
    /\ (forall d a b,
           In d (resolved_digits chrs) ->
           In (a, b) (ring_pairs chrs idxs d) ->
           entry m' a b = Some 1%Q
           /\ (entry m' a b = entry m a b <-> entry m a b = Some 1%Q))
    /\ (forall a b,
           (forall d, In d (resolved_digits chrs) ->
                      ~ In (a, b) (ring_pairs chrs idxs d)) ->
           entry m' a b = entry m a b).
Proof.
  destruct rings_spec as [m' [E [_ [Hset Hkeep]]]].
  exists m'. split; [exact E|]. split; [|exact Hkeep].
  intros d a b Hd Hp. pose proof (Hset d a b Hd Hp) as H1.
  split; [exact H1|]. rewrite H1. split; congruence.
Qed.

End RingStage.

Lemma ring_digits_leading_run_witness :
  exists m',
    rings (chain_matrix 6) ["1"; "1"] [0; 5] = Some m'
    /\ entry m' 0 5 = Some 1%Q.
Proof.
  destruct (ring_digits_leading_run 6 (chain_matrix 6) ["1"; "1"] [0; 5])
    as [m' [E [_ [Hset _]]]].
  - split; [reflexivity|]. repeat constructor.
  - reflexivity.
  - intros a [<-|[<-|[]]]; lia.
  - exists m'. split; [exact E|].
    apply (Hset 1%nat); [lia| |simpl; auto].
    intros k' Hk'. assert (k' = 1)%nat as -> by lia. reflexivity.
Defined.

(** Counterexample to C2 as worded: in "C2CCCCC2" the digit 2 occurs, at the atoms
    0 and 5, and no smaller digit does; the ring stage leaves the
    adjacency map as it was and the two atoms stay unbonded. *)
Lemma ring_digit_after_gap_unresolved :
  exists st,
    decode "C2CCCCC2" = Some st
    /\ occurs (topology_chrs st) "2" = true
    /\ ring_pairs (topology_chrs st) (topology_idxs st) "2" = [(0, 5)]
    /\ after_rings st = after_branches st
    /\ entry (resolved st) 0 5 = Some 0%Q.
Proof. eexists. split; [vm_compute; reflexivity|]. now vm_compute. Qed.

Lemma ring_digit_pair_witness :
  exists m',
    rings (chain_matrix 6) ["1"; "2"; "1"; "2"] [0; 1; 3; 5] = Some m'
    /\ entry m' 1 5 = Some 1%Q.
Proof.
  assert (Hs : square 6 (chain_matrix 6))
    by (split; [reflexivity|repeat constructor]).
  assert (Ha : forall x, In x [0; 1; 3; 5] -> 0 <= x < Z.of_nat 6)
    by (intros x [<-|[<-|[<-|[<-|[]]]]]; lia).
  destruct (ring_digit_pair 6 (chain_matrix 6) ["1"; "2"; "1"; "2"]
              [0; 1; 3; 5] Hs eq_refl Ha 2 1 5) as [m' [E [H _]]].
  - lia.
  - intros k' Hk'. assert (k' = 1 \/ k' = 2)%nat as [->| ->] by lia;
      reflexivity.
  - reflexivity.
  - exists m'. split; [exact E|exact H].
Defined.

(** Counterexample to C3 as worded: in a chain of six three-membered rings closed
    with the digits 1 to 6 in turn, the digit 6 occurs exactly twice,
    after the atoms 15 and 17, every smaller digit is resolved, and the
    atoms 15 and 17 stay unbonded. *)
Lemma ring_digit_six_unresolved :
  exists st,
    decode "C1CC1C2CC2C3CC3C4CC4C5CC5C6CC6" = Some st
    /\ boolean_mask (topology_idxs st)
         (map (Ascii.eqb "6") (topology_chrs st)) = [15; 17]
    /\ entry (after_rings st) 12 14 = Some 1%Q
    /\ entry (after_rings st) 15 17 = Some 0%Q
    /\ entry (resolved st) 15 17 = Some 0%Q.
Proof. eexists. split; [vm_compute; reflexivity|]. now vm_compute. Qed.

Lemma ring_bonds_overwrite_witness :
  exists m',
    rings (chain_matrix 3) ["1"; "1"] [0; 2] = Some m'
    /\ entry m' 0 2 = Some 1%Q /\ entry m' 0 1 = Some 1%Q.
Proof.
  destruct (ring_bonds_overwrite 3 (chain_matrix 3) ["1"; "1"] [0; 2])
    as [m' [E [Hset Hkeep]]].
  - split; [reflexivity|]. repeat constructor.
  - reflexivity.
  - intros a [<-|[<-|[]]]; lia.
  - exists m'. split; [exact E|]. split.
    + apply (Hset "1"); simpl; auto.
    + rewrite Hkeep; [reflexivity|].
      intros d [<-|[]]. simpl. intros [[=]|[]].
Defined.

(** Counterexample to C6 as worded: in "C1CC1=C1CC1" the digit 1 joins the atoms 2
    and 3, whose bond had order 2 before the ring stage and has order 1
    after it. *)
Lemma ring_bond_replaces_double :
  exists st,
    decode "C1CC1=C1CC1" = Some st
    /\ In (2, 3) (ring_pairs (topology_chrs st) (topology_idxs st) "1")
    /\ entry (after_branches st) 2 3 = Some 2%Q
    /\ entry (after_rings st) 2 3 = Some 1%Q
    /\ entry (resolved st) 2 3 = Some 1%Q.
Proof.
  eexists. split; [vm_compute; reflexivity|].
  split; [vm_compute; tauto|]. now vm_compute.
Qed.

(** *** Branches *)

Lemma in_combine_nth {A B : Type} (l : list A) : forall (l' : list B) x y,
  In (x, y) (combine l l') ->
  exists k, nth_error l k = Some x /\ nth_error l' k = Some y.
Proof.
  induction l as [|a l IH]; intros [|b l'] x y; simpl; try tauto.
  intros [[= <- <-]|H]; [exists 0%nat; auto|].
  destruct (IH _ _ _ H) as [k Hk]. exists (S k). exact Hk.
Qed.

Lemma in_zip_with_nth {A B C : Type} (f : A -> B -> C) l l' z :
  In z (zip_with f l l') ->
  exists k x y, nth_error l k = Some x /\ nth_error l' k = Some y
                /\ z = f x y.
Proof.
  intros H. apply In_nth_error in H as [k Hk].
  rewrite nth_error_zip_with in Hk.
  destruct (nth_error l k) as [x|] eqn:E1; [|discriminate].
  destruct (nth_error l' k) as [y|] eqn:E2; [|discriminate].
  exists k, x, y. repeat split; congruence.
Qed.

(** C4.  Branch resolver, the rewiring.  For every pair [(left, right)]
    of the bracket lists whose [right + 1] is an atom index (and whose
    branch holds an atom, [left <> right]), the stage leaves 0 on the
    bond [(right, right + 1)] and, on the bond [(left, right + 1)], the
    order that [(right, right + 1)] held before.  In the molecule
    decoded from "CC(C)C" atom 1 is bonded with order 1 to the atoms 0,
    2 and 3, and the bond (2, 3) is 0. *)
Theorem branch_rewire :
  (forall (n : nat) (m : matrix) (lefts rights : list Z),
      square n m ->
      List.length lefts = List.length rights ->
      (forall k l r,
          nth_error lefts k = Some l -> nth_error rights k = Some r ->
          0 <= l < Z.of_nat n /\ 0 <= r /\ r + 1 < Z.of_nat n /\ l <> r) ->
      exists m',
        rewire m lefts rights = Some m'
        /\ forall k l r,
            nth_error lefts k = Some l -> nth_error rights k = Some r ->
            entry m' r (r + 1) = Some 0%Q
            /\ entry m' l (r + 1) = entry m r (r + 1))
  /\ (exists st,
         decode "CC(C)C" = Some st
         /\ entry (resolved st) 0 1 = Some 1%Q
         /\ entry (resolved st) 1 2 = Some 1%Q
         /\ entry (resolved st) 1 3 = Some 1%Q
         /\ entry (resolved st) 2 3 = Some 0%Q).
Proof.
  split; [|eexists; split; [vm_compute; reflexivity|now vm_compute]].
  intros n m lefts rights Hs Hl Hok. unfold rewire.
  set (cur := map (fun r => (r, r + 1)) rights).
  set (new := zip_with (fun l r => (l, r + 1)) lefts rights).
  assert (Hlefts : forall k r, nth_error rights k = Some r ->
                               exists l, nth_error lefts k = Some l).
  { intros k r Hr. destruct (nth_error lefts k) eqn:E; [eauto|].
    apply nth_error_None in E.
    assert (k < List.length rights)%nat by (apply nth_error_Some; congruence).
    lia. }
  assert (Hcur : Forall (inside n) cur).
  { apply Forall_forall. intros [i j] Hij.
    apply in_map_iff in Hij as [r [[= <- <-] Hr]].
    apply In_nth_error in Hr as [k Hr].
    destruct (Hlefts k r Hr) as [l Hk].
    destruct (Hok k l r Hk Hr) as [_ [? [? _]]]. split; simpl; lia. }
  assert (Hnew : Forall (inside n) new).
  { apply Forall_forall. intros z Hz.
    apply in_zip_with_nth in Hz as [k [l [r [Hk [Hr ->]]]]].
    destruct (Hok k l r Hk Hr) as [? [? [? _]]]. split; simpl; lia. }
  destruct (gather_nd_some n m cur Hs Hcur) as [orders [-> [Hlen Hord]]].
  destruct (scatter_some n cur m (map (fun _ => 0%Q) orders) Hs) as [m1 E1];
    [now rewrite length_map|assumption|].
  rewrite E1.
  assert (Hs1 : square n m1) by (eapply scatter_square; eauto).
  destruct (scatter_some n new m1 orders Hs1) as [m2 E2];
    [|assumption|].
  { unfold new. rewrite length_zip_with, Hlen. unfold cur.
    rewrite length_map. lia. }
  exists m2. split; [exact E2|].
  intros k l r Hk Hr.
  assert (Hcur_k : nth_error cur k = Some (r, r + 1))
    by (unfold cur; rewrite nth_error_map, Hr; reflexivity).
  split.
  - rewrite (scatter_other _ _ _ _ _ _ E2).
    + eapply scatter_const; [exact E1| |].
      * eapply nth_error_In; eauto.
      * intros w Hw. eapply combine_const; eauto.
    + intros Hin. apply in_zip_with_nth in Hin
        as [k' [l' [r' [Hk' [Hr' [= Hl' Heq]]]]]].
      destruct (Hok k' l' r' Hk' Hr') as [_ [_ [_ Hne]]]. lia.
  - destruct (entry_inside n m r (r + 1) Hs) as [v Ev].
    { destruct (Hok k l r Hk Hr) as [_ [? [? _]]]. split; simpl; lia. }
    rewrite Ev. eapply scatter_const; [exact E2| |].
    + apply (nth_error_In new k). unfold new.
      rewrite nth_error_zip_with, Hk, Hr. reflexivity.
    + intros w Hw. apply in_combine_nth in Hw as [k' [Hn Ho]].
      unfold new in Hn. rewrite nth_error_zip_with in Hn.
      destruct (nth_error lefts k') as [l'|] eqn:Hk'; [|discriminate].
      destruct (nth_error rights k') as [r'|] eqn:Hr'; [|discriminate].
      injection Hn as _ Heq. assert (r' = r) by lia. subst r'.
      assert (Hc : nth_error cur k' = Some (r, r + 1))
        by (unfold cur; rewrite nth_error_map, Hr'; reflexivity).
      rewrite (Hord k' r (r + 1) Hc) in Ho. congruence.
Qed.

(** The rewiring of "CC(C)C": the bracket pair (1, 2). *)
Lemma branch_rewire_witness :
  exists m',
    rewire (chain_matrix 4) [1] [2] = Some m'
    /\ entry m' 2 3 = Some 0%Q /\ entry m' 1 3 = Some 1%Q.
Proof.
  destruct (proj1 branch_rewire 4%nat (chain_matrix 4) [1] [2])
    as [m' [E H]].
  - split; [reflexivity|]. repeat constructor.
  - reflexivity.
  - intros [|[|k]] l r; simpl; intros [= <-] [= <-]; lia.
  - exists m'. split; [exact E|].
    destruct (H 0%nat 1 2 eq_refl eq_refl) as [H0 H1].
    split; [exact H0|exact H1].
Defined.

(** *** The overlap pass *)

Lemma sorted_enumerate_from {A : Type} (l : list A) : forall s,
  StronglySorted (fun a b => fst a < fst b) (enumerate_from s l).
Proof.
  induction l as [|x l IH]; intros s; simpl; constructor; auto.
  apply Forall_forall. intros [k y] H.
  apply in_enumerate_from in H as [H _]. simpl. lia.
Qed.

Lemma sorted_filter {A : Type} (R : A -> A -> Prop) (f : A -> bool) l :
  StronglySorted R l -> StronglySorted R (filter f l).
Proof.
  induction 1 as [|x l Hs IH Hall]; simpl; [constructor|].
  destruct (f x); [constructor|]; auto.
  apply Forall_forall. intros y Hy. apply filter_In in Hy as [Hy _].
  rewrite Forall_forall in Hall. auto.
Qed.

Lemma sorted_map {A B : Type} (R : A -> A -> Prop) (R' : B -> B -> Prop)
  (f : A -> B) l :
  (forall a b, R a b -> R' (f a) (f b)) ->
  StronglySorted R l -> StronglySorted R' (map f l).
Proof.
  intros Hf. induction 1 as [|x l Hs IH Hall]; simpl; constructor; auto.
  apply Forall_forall. intros y Hy. apply in_map_iff in Hy as [z [<- Hz]].
  rewrite Forall_forall in Hall. auto.
Qed.

Lemma sorted_app {A : Type} (R : A -> A -> Prop) l : forall l',
  StronglySorted R l -> StronglySorted R l' ->
  (forall a b, In a l -> In b l' -> R a b) ->
  StronglySorted R (l ++ l').
Proof.
  induction l as [|x l IH]; intros l' H1 H2 H; simpl; auto.
  apply StronglySorted_inv in H1 as [H1 Hall]. constructor.
  - apply IH; auto. intros a b Ha Hb. apply H; simpl; auto.
  - apply Forall_app. split; [exact Hall|].
    apply Forall_forall. intros b Hb. apply H; simpl; auto.
Qed.

Lemma sorted_flat_map {A B : Type} (R : A -> A -> Prop) (R' : B -> B -> Prop)
  (g : A -> list B) l :
  (forall x, StronglySorted R' (g x)) ->
  (forall x y a b, R x y -> In a (g x) -> In b (g y) -> R' a b) ->
  StronglySorted R l -> StronglySorted R' (flat_map g l).
Proof.
  intros Hg Hcross. induction 1 as [|x l Hs IH Hall]; simpl; [constructor|].
  apply sorted_app; auto.
  intros a b Ha Hb. apply in_flat_map in Hb as [y [Hy Hb]].
  rewrite Forall_forall in Hall. eapply Hcross; eauto.
Qed.

Lemma sorted_after {A : Type} (R : A -> A -> Prop) pre : forall x post,
  StronglySorted R (pre ++ x :: post) -> Forall (R x) post.
Proof.
  induction pre as [|y pre IH]; intros x post H; simpl in H;
    apply StronglySorted_inv in H as [H Hall]; auto.
Qed.

(** The overlaps are listed row by row. *)
Lemma sorted_overlaps (lefts rights : list Z) :
  StronglySorted row_major (left_right_overlaps lefts rights).
Proof.
  unfold left_right_overlaps.
  apply sorted_flat_map with (R := fun a b : Z * Z => fst a < fst b).
  - intros ir. apply sorted_map with (R := fun a b : Z * Z => fst a < fst b).
    + intros a b H. right. simpl. auto.
    + apply sorted_filter, sorted_enumerate_from.
  - intros x y a b Hxy Ha Hb.
    apply in_map_iff in Ha as [? [<- _]]. apply in_map_iff in Hb as [? [<- _]].
    left. exact Hxy.
  - apply sorted_enumerate_from.
Qed.

(** An overlap is a right bracket and a left bracket on one atom. *)
Lemma in_overlaps (lefts rights : list Z) (i j : Z) :
  In (i, j) (left_right_overlaps lefts rights) <->
  exists r, index rights i = Some r /\ index lefts j = Some r.
Proof.
  unfold left_right_overlaps. rewrite in_flat_map. split.
  - intros [[i' r] [Hr H]]. apply in_map_iff in H as [[j' l] [[= <- <-] H]].
    apply filter_In in H as [Hl Heq]. simpl in *.
    apply in_enumerate_iff in Hr, Hl.
    exists r. split; auto. assert (l = r) by lia. congruence.
  - intros [r [Hr Hl]]. exists (i, r). split; [now apply in_enumerate_iff|].
    apply in_map_iff. exists (j, r). split; [reflexivity|].
    apply filter_In. split; [now apply in_enumerate_iff|].
    simpl. lia.
Qed.

(** One round of the pass: place [j] takes the entry of place [i]. *)
Lemma process_step (rights lefts : list Z) (i j v : Z) :
  List.length lefts = List.length rights ->
  index lefts i = Some v ->
  exists lefts',
    process_right_left_overlap rights (i, j) lefts = Some lefts'
    /\ List.length lefts' = List.length lefts
    /\ forall k, index lefts' k =
                 if k =? j then option_map (fun _ => v) (index lefts k)
                 else index lefts k.
Proof.
  intros Hl Hv. unfold process_right_left_overlap. cbn [fst snd].
  rewrite Hv. eexists. split; [reflexivity|]. split.
  - rewrite length_zip_with, length_range. lia.
  - intros k. unfold index. destruct (Z.ltb_spec k 0).
    + destruct (k =? j); reflexivity.
    + rewrite nth_error_zip_with.
      destruct (nth_error lefts (Z.to_nat k)) as [x|] eqn:E.
      * assert (Hk : (Z.to_nat k < List.length lefts)%nat)
          by (apply nth_error_Some; congruence).
        pose proof (index_range (Z.of_nat (List.length rights)) k) as Hr.
        unfold index in Hr. destruct (Z.ltb_spec k 0); [lia|].
        rewrite Hr by lia. destruct (k =? j); reflexivity.
      * destruct (nth_error (range _) (Z.to_nat k));
          destruct (k =? j); reflexivity.
Qed.

Lemma process_app (rights : list Z) pre : forall post lefts,
  process_overlaps rights (pre ++ post) lefts =
  (mid <- process_overlaps rights pre lefts ;;
   process_overlaps rights post mid).
Proof.
  induction pre as [|ov pre IH]; intros post lefts; simpl; [reflexivity|].
  destruct (process_right_left_overlap rights ov lefts); auto.
Qed.

Lemma process_some (rights : list Z) ovs : forall lefts,
  List.length lefts = List.length rights ->
  (forall i j, In (i, j) ovs -> 0 <= i < Z.of_nat (List.length rights)) ->
  exists final,
    process_overlaps rights ovs lefts = Some final
    /\ List.length final = List.length rights.
Proof.
  induction ovs as [|[i j] ovs IH]; intros lefts Hl Hin; simpl; [eauto|].
  destruct (index_some lefts i) as [v Hv];
    [rewrite Hl; apply (Hin i j); now left|].
  destruct (process_step rights lefts i j v Hl Hv) as [l' [-> [Hl' _]]].
  apply IH; [congruence|]. intros i' j' H. apply (Hin i' j'). now right.
Qed.

(** A place that no later overlap aims at keeps its entry. *)
Lemma process_keep (rights : list Z) ovs : forall lefts final k,
  List.length lefts = List.length rights ->
  process_overlaps rights ovs lefts = Some final ->
  (forall i, ~ In (i, k) ovs) ->
  index final k = index lefts k.
Proof.
  induction ovs as [|[i j] ovs IH]; intros lefts final k Hl; simpl.
  - now intros [= <-].
  - destruct (index lefts i) as [v|] eqn:Hv.
    + destruct (process_step rights lefts i j v Hl Hv) as [l' [E [Hl' Hk]]].
      rewrite E. intros Hp Hno.
      rewrite (IH l' final k) by (try congruence; auto;
                                  intros i' H; apply (Hno i'); now right).
      rewrite Hk. destruct (Z.eqb_spec k j) as [->|]; [|reflexivity].
      exfalso. apply (Hno i). now left.
    + unfold process_right_left_overlap. cbn [fst]. rewrite Hv. discriminate.
Qed.

(** C5.  Branch resolver, the overlap pass.  For bracket lists as the
    scan records them (right markers in written order, every branch
    holding an atom): each overlap, a later pair [j] whose left anchor
    equals the right marker of an earlier pair [i], is taken in turn
    and rewrites the left anchor of [j] to that of [i], which has
    reached its final value by then; after the pass the left anchor of
    [j] is the final left anchor of the pair that closes just before it
    (the last with that right marker), and a pair without overlap keeps
    its anchor.  In the molecule decoded from "CC(C)(C)C" both pairs
    are anchored at atom 1, and the atoms 2, 3 and 4 are bonded to
    atom 1. *)
Theorem overlap_pass :
  (forall (lefts rights : list Z),
      List.length lefts = List.length rights ->
      (forall i i' r r',
          i <= i' -> index rights i = Some r -> index rights i' = Some r' ->
          r <= r') ->
      (forall k l r,
          index lefts k = Some l -> index rights k = Some r -> l < r) ->
      exists final,
        process_overlaps rights (left_right_overlaps lefts rights) lefts
        = Some final
        /\ List.length final = List.length lefts
        /\ (forall pre i j post,
               left_right_overlaps lefts rights = pre ++ (i, j) :: post ->
               i < j
               /\ exists mid mid',
                   process_overlaps rights pre lefts = Some mid
                   /\ process_right_left_overlap rights (i, j) mid = Some mid'
                   /\ index mid' j = index mid i
                   /\ index mid i = index final i)
        /\ (forall i j r,
               index rights i = Some r -> index lefts j = Some r ->
               (forall i', i < i' -> index rights i' <> Some r) ->
               index final j = index final i)
        /\ (forall j l,
               index lefts j = Some l ->
               (forall i, index rights i <> Some l) ->
               index final j = Some l))
  /\ (exists st,
         decode "CC(C)(C)C" = Some st
         /\ bracket_pairs (topology_chrs st) (topology_idxs st)
            = Some [(1, 2); (2, 3)]
         /\ process_overlaps [2; 3] (left_right_overlaps [1; 2] [2; 3]) [1; 2]
            = Some [1; 1]
         /\ entry (resolved st) 1 2 = Some 1%Q
         /\ entry (resolved st) 1 3 = Some 1%Q
         /\ entry (resolved st) 1 4 = Some 1%Q
         /\ entry (resolved st) 2 3 = Some 0%Q
         /\ entry (resolved st) 3 4 = Some 0%Q).
Proof.
  split; [|eexists; split; [vm_compute; reflexivity|now vm_compute]].
  intros lefts rights Hl Hsorted Hatom.
  set (ovs := left_right_overlaps lefts rights).
  assert (Hov : forall i j, In (i, j) ovs ->
                0 <= i < Z.of_nat (List.length rights)
                /\ 0 <= j < Z.of_nat (List.length rights) /\ i < j).
  { intros i j H. apply in_overlaps in H as [r [Hr Hj]].
    pose proof (index_inv _ _ _ Hr) as [Hi _].
    pose proof (index_inv _ _ _ Hj) as [Hj' _]. rewrite Hl in Hj'.
    repeat split; try lia.
    destruct (index_some rights j Hj') as [r' Hr'].
    pose proof (Hatom j r r' Hj Hr').
    destruct (Z.lt_ge_cases i j) as [|Hge]; [assumption|].
    pose proof (Hsorted j i r' r Hge Hr' Hr). lia. }
  destruct (process_some rights ovs lefts Hl) as [final [E Hlf]];
    [intros i j H; apply (Hov i j H)|].
  assert (HA : forall pre i j post,
             ovs = pre ++ (i, j) :: post ->
             exists mid mid',
               process_overlaps rights pre lefts = Some mid
               /\ process_right_left_overlap rights (i, j) mid = Some mid'
               /\ process_overlaps rights post mid' = Some final
               /\ List.length mid' = List.length rights
               /\ index mid' j = index mid i
               /\ index mid i = index final i).
  { intros pre i j post Hsplit.
    assert (Hin : In (i, j) ovs) by (rewrite Hsplit; apply in_elt).
    destruct (Hov i j Hin) as [Hi [Hj Hij]].
    destruct (process_some rights pre lefts Hl) as [mid [Em Hlm]].
    { intros i' j' H. apply (Hov i' j'). rewrite Hsplit.
      apply in_or_app. now left. }
    pose proof E as E'. rewrite Hsplit, process_app, Em in E'.
    destruct (index_some mid i) as [v Hv]; [now rewrite Hlm|].
    destruct (process_step rights mid i j v Hlm Hv) as [mid' [Es [Hl' Hk]]].
    simpl in E'. rewrite Es in E'.
    exists mid, mid'. repeat split; auto; try congruence.
    - rewrite Hk, Z.eqb_refl, Hv.
      destruct (index_some mid j) as [w ->]; [now rewrite Hlm|reflexivity].
    - rewrite (process_keep rights post mid' final i) by
        (try congruence; auto; intros i' H;
         assert (Hin' : In (i', i) ovs)
           by (rewrite Hsplit; apply in_or_app; right; now right);
         destruct (Hov i' i Hin') as [_ [_ Hlt]];
         pose proof (sorted_overlaps lefts rights) as Hs;
         fold ovs in Hs; rewrite Hsplit in Hs;
         apply sorted_after in Hs; rewrite Forall_forall in Hs;
         destruct (Hs _ H) as [Hrm|[Hrm _]]; simpl in Hrm; lia).
      rewrite Hk. destruct (Z.eqb_spec i j); [lia|reflexivity]. }
  exists final. split; [exact E|]. split; [congruence|]. split; [|split].
  - intros pre i j post Hsplit.
    destruct (HA pre i j post Hsplit) as [mid [mid' [H1 [H2 [_ [_ [H3 H4]]]]]]].
    split; [|exists mid, mid'; auto].
    apply (Hov i j). fold ovs in Hsplit. rewrite Hsplit. apply in_elt.
  - intros i j r Hr Hj Hlast.
    assert (Hin : In (i, j) ovs) by (apply in_overlaps; eauto).
    destruct (in_split _ _ Hin) as [pre [post Hsplit]].
    destruct (HA pre i j post Hsplit)
      as [mid [mid' [_ [_ [Ep [Hl' [H3 H4]]]]]]].
    rewrite <- H4, <- H3.
    apply (process_keep rights post mid' final j Hl' Ep).
    intros i' H.
    pose proof (sorted_overlaps lefts rights) as Hs.
    fold ovs in Hs. rewrite Hsplit in Hs.
    apply sorted_after in Hs. rewrite Forall_forall in Hs.
    assert (Hlt : i < i')
      by (destruct (Hs _ H) as [Hrm|[_ Hrm]]; simpl in Hrm; lia).
    assert (Hin' : In (i', j) ovs)
      by (rewrite Hsplit; apply in_or_app; right; now right).
    apply in_overlaps in Hin' as [r' [Hr' Hj']].
    apply (Hlast i' Hlt). congruence.
  - intros j l Hj Hno. rewrite <- Hj.
    apply (process_keep rights ovs lefts final j Hl E).
    intros i H. apply in_overlaps in H as [r [Hr Hj']].
    apply (Hno i). congruence.
Qed.

Ltac index_cases H :=
  let H' := fresh in
  pose proof (index_inv _ _ _ H) as [H' _]; simpl in H'.

(** The bracket lists of "CC(C)(C)C": the pairs (1, 2) and (2, 3). *)
Lemma overlap_pass_witness :
  exists final,
    process_overlaps [2; 3] (left_right_overlaps [1; 2] [2; 3]) [1; 2]
    = Some final
    /\ index final 1 = index final 0.
Proof.
  destruct (proj1 overlap_pass [1; 2] [2; 3]) as [final [E [_ [_ [H _]]]]].
  - reflexivity.
  - intros i i' r r' Hle Hi Hi'. index_cases Hi. index_cases Hi'.
    assert (i = 0 \/ i = 1) as [->| ->] by lia;
      assert (i' = 0 \/ i' = 1) as [->| ->] by lia;
      simpl in Hi, Hi'; injection Hi as <-; injection Hi' as <-; lia.
  - intros k l r Hk Hr. index_cases Hk.
    assert (k = 0 \/ k = 1) as [->| ->] by lia;
      simpl in Hk, Hr; injection Hk as <-; injection Hr as <-; lia.
  - exists final. split; [exact E|].
    apply (H 0 1 2); try reflexivity.
    intros i' Hlt Hi'. index_cases Hi'.
    assert (i' = 1) as -> by lia. discriminate.
Defined.

(** *** The bracket lists the scan records *)

Lemma where_from_sorted (mask : list bool) : forall k,
  StronglySorted Z.lt (where_from k mask)
  /\ Forall (fun p => k <= p) (where_from k mask).
Proof.
  induction mask as [|b mask IH]; intros k; simpl.
  - split; constructor.
  - destruct (IH (k + 1)) as [Hs Hall]. destruct b.
    + split; constructor; auto; try lia.
      * eapply Forall_impl; [|exact Hall]. simpl. intros; lia.
      * eapply Forall_impl; [|exact Hall]. simpl. intros; lia.
    + split; auto. eapply Forall_impl; [|exact Hall]. simpl. intros; lia.
Qed.

Lemma shifted_above (ps : list Z) : forall start lo,
  StronglySorted Z.lt ps -> Forall (fun p => lo < p) ps ->
  Forall (fun y => lo - Z.of_nat start <= y)
    (zip_with (fun p k => p - k - 1) ps
       (map Z.of_nat (seq start (List.length ps)))).
Proof.
  induction ps as [|p ps IH]; intros start lo Hs Hall; simpl; constructor.
  - inversion Hall; subst. lia.
  - apply StronglySorted_inv in Hs as [Hs Hp]. inversion Hall; subst.
    specialize (IH (S start) (lo + 1) Hs).
    eapply Forall_impl; [|apply IH].
    + simpl. intros y Hy. lia.
    + eapply Forall_impl; [|exact Hp]. simpl. intros; lia.
Qed.

(** The anchors never decrease along the topology characters. *)
Lemma shift_indices_sorted (mask : list bool) :
  StronglySorted Z.le (shift_indices (tf_where mask)).
Proof.
  unfold shift_indices, tf_where, range. rewrite Nat2Z.id.
  destruct (where_from_sorted mask 0) as [Hs _]. revert Hs.
  generalize (where_from 0 mask) as ps. generalize 0%nat as start.
  intros start ps. revert start.
  induction ps as [|p ps IH]; intros start Hs; simpl; constructor.
  - apply IH. now apply StronglySorted_inv in Hs.
  - apply StronglySorted_inv in Hs as [Hs Hp].
    pose proof (shifted_above ps (S start) p Hs Hp) as H.
    eapply Forall_impl; [|exact H]. simpl. intros y Hy. lia.
Qed.

Lemma sorted_index (l : list Z) :
  StronglySorted Z.le l ->
  forall i i' r r',
    i <= i' -> index l i = Some r -> index l i' = Some r' -> r <= r'.
Proof.
  intros Hs i i' r r' Hle Hi Hi'.
  apply index_inv in Hi as [Hi0 Hi]. apply index_inv in Hi' as [Hi0' Hi'].
  assert (Hn : (Z.to_nat i <= Z.to_nat i')%nat) by lia.
  revert Hn Hi Hi'. generalize (Z.to_nat i) (Z.to_nat i'). clear - Hs.
  induction Hs as [|x l Hs IH Hall]; intros [|a] [|b] Hn; simpl;
    try discriminate; try lia.
  - intros [= <-] [= <-]. lia.
  - intros [= <-] Hb. apply nth_error_In in Hb.
    rewrite Forall_forall in Hall. auto.
  - apply IH. lia.
Qed.

Lemma sorted_snoc (l : list Z) (x : Z) :
  StronglySorted Z.le l -> Forall (fun y => y <= x) l ->
  StronglySorted Z.le (l ++ [x]).
Proof.
  intros Hs Hall. apply sorted_app; auto.
  - repeat constructor.
  - intros a b Ha [<-|[]]. rewrite Forall_forall in Hall. auto.
Qed.

Lemma sorted_boolean_mask (l : list Z) : forall mask,
  StronglySorted Z.le l -> StronglySorted Z.le (boolean_mask l mask).
Proof.
  induction l as [|x l IH]; intros [|b mask] Hs; simpl; try constructor.
  apply StronglySorted_inv in Hs as [Hs Hall]. destruct b; auto.
  constructor; auto. apply Forall_forall. intros y Hy.
  apply in_boolean_mask in Hy. rewrite Forall_forall in Hall. auto.
Qed.

(** The scan appends the right markers in written order. *)
Lemma bracket_loop_sorted (idxs : list Z) :
  StronglySorted Z.le idxs ->
  forall chrs idx queue acc pairs,
    0 <= idx -> acc <> [] ->
    StronglySorted Z.le (map snd (tl acc)) ->
    Forall (fun r => forall k v, idx <= k -> index idxs k = Some v -> r <= v)
      (map snd (tl acc)) ->
    bracket_loop idxs chrs idx queue acc = Some pairs ->
    StronglySorted Z.le (map snd (tl pairs)).
Proof.
  intros Hidxs. induction chrs as [|c chrs IH];
    intros idx queue acc pairs Hidx Hne Hs Hall; simpl.
  - now intros [= <-].
  - destruct (Ascii.eqb c ")").
    + set (st := if Ascii.eqb c "(" then if_left idx queue acc
                 else (queue, acc)).
      assert (Hst : snd st = acc) by (unfold st; destruct (Ascii.eqb c "(");
                                      reflexivity).
      unfold if_right. rewrite Hst.
      destruct (index idxs idx) as [right_idx|] eqn:Er; [|discriminate].
      destruct (nth_error (rev (fst st)) 0) as [top|]; [|discriminate].
      destruct (index idxs top) as [left_idx|]; [|discriminate].
      cbn [fst snd]. apply IH; try lia.
      * destruct acc; [contradiction|discriminate].
      * destruct acc as [|a acc]; [contradiction|]. cbn [app tl].
        rewrite map_app. apply sorted_snoc; auto.
        eapply Forall_impl; [|exact Hall]. simpl. intros r Hr.
        apply (Hr idx right_idx); auto. lia.
      * destruct acc as [|a acc]; [contradiction|]. cbn [app tl].
        rewrite map_app. apply Forall_app. split.
        -- eapply Forall_impl; [|exact Hall]. simpl. intros r Hr k v Hk.
           apply Hr. lia.
        -- repeat constructor. simpl. intros k v Hk Hv.
           apply (sorted_index idxs Hidxs idx k); auto. lia.
    + destruct (Ascii.eqb c "("); cbn [fst snd if_left]; apply IH; auto;
        try lia; eapply Forall_impl; try exact Hall; simpl;
        intros r Hr k v Hk; apply Hr; lia.
Qed.

(** The right markers handed to the overlap pass never decrease, as
    [overlap_pass] asks. *)
Lemma scan_rights_sorted (chrs : list ascii) (idxs : list Z)
  (pairs : list (Z * Z)) (n_atoms : Z) :
  StronglySorted Z.le idxs ->
  bracket_pairs chrs idxs = Some pairs ->
  forall i i' r r',
    i <= i' ->
    index (snd (discard_trailing n_atoms pairs)) i = Some r ->
    index (snd (discard_trailing n_atoms pairs)) i' = Some r' ->
    r <= r'.
Proof.
  intros Hidxs. unfold bracket_pairs.
  destruct (bracket_loop idxs chrs 0 [] [(-1, -1)]) as [ps|] eqn:E;
    [|discriminate].
  intros [= <-]. apply sorted_index. unfold discard_trailing. cbn [snd].
  apply sorted_boolean_mask.
  eapply (bracket_loop_sorted idxs Hidxs chrs 0 [] [(-1, -1)]); eauto;
    try lia; try discriminate; constructor.
Qed.

Lemma decode_anchors_sorted (smiles : string) (st : stages) :
  decode smiles = Some st -> StronglySorted Z.le (topology_idxs st).
Proof.
  unfold decode.
  repeat match goal with
         | |- context [match ?e with Some _ => _ | None => _ end] =>
             destruct e eqn:?; try discriminate
         end.
  intros [= <-]. cbn [topology_idxs]. apply shift_indices_sorted.
Qed.

End Resolver.

(** ** The hydrogen completer *)
Module Completer.
Import Tensor TensorFacts Hydrogen.

Local Open Scope Z_scope.

Lemma reshape_rows_cons (fuel n : nat) (x : bool) (l : list bool) :
  reshape_rows (S fuel) n (x :: l) =
  if ((n =? 0) || (List.length (x :: l) <? n))%nat then None
  else
    rows <- reshape_rows fuel n (skipn n (x :: l)) ;;
    Some (firstn n (x :: l) :: rows).
Proof. reflexivity. Qed.

Lemma skipn_row {A : Type} (n : nat) (r l : list A) :
  List.length r = n -> skipn n (r ++ l) = l.
Proof.
  intros <-. rewrite skipn_app, skipn_all, Nat.sub_diag. reflexivity.
Qed.

Lemma firstn_row {A : Type} (n : nat) (r l : list A) :
  List.length r = n -> firstn n (r ++ l) = r.
Proof.
  intros <-. rewrite firstn_app, firstn_all, Nat.sub_diag. simpl.
  apply app_nil_r.
Qed.

(** Reshaping the concatenation of rows of length [n] gives the rows. *)
Lemma reshape_rows_concat (n : nat) (rows : list (list bool)) :
  (0 < n)%nat ->
  Forall (fun r => List.length r = n) rows ->
  forall fuel, (List.length (List.concat rows) <= fuel)%nat ->
               reshape_rows fuel n (List.concat rows) = Some rows.
Proof.
  intros Hn. induction 1 as [|r rows Hr Hall IH]; intros fuel Hf; simpl.
  - destruct fuel; simpl; destruct (Nat.eqb_spec n 0); try lia; reflexivity.
  - simpl in Hf. rewrite length_app in Hf.
    destruct r as [|x r]; [simpl in Hr; lia|].
    destruct fuel as [|fuel]; [simpl in Hf; lia|].
    change ((x :: r) ++ List.concat rows)
      with (x :: (r ++ List.concat rows)).
    rewrite reshape_rows_cons.
    change (x :: (r ++ List.concat rows))
      with ((x :: r) ++ List.concat rows).
    destruct (Nat.eqb_spec n 0); [lia|].
    destruct (Nat.ltb_spec (List.length ((x :: r) ++ List.concat rows)) n)
      as [Hlt|_]; [rewrite length_app in Hlt; lia|].
    cbn [orb].
    rewrite (skipn_row n (x :: r)), (firstn_row n (x :: r)) by assumption.
    rewrite IH by (simpl in Hf; lia). reflexivity.
Qed.

Lemma any_rule_eq (n : nat) (rules : list (list bool)) :
  (0 < n)%nat ->
  Forall (fun r => List.length r = n) rules ->
  any_rule n rules = Some (reduce_any n rules).
Proof.
  intros Hn Hall. unfold any_rule.
  now rewrite (reshape_rows_concat n rules Hn Hall).
Qed.

Lemma length_reduce_any (n : nat) (rows : list (list bool)) :
  Forall (fun r => List.length r = n) rows ->
  List.length (reduce_any n rows) = n.
Proof.
  induction 1 as [|r rows Hr Hall IH]; simpl; [apply repeat_length|].
  rewrite length_zip_with. lia.
Qed.

Lemma length_logical_and (n : nat) (a b : list bool) :
  List.length a = n -> List.length b = n ->
  List.length (logical_and a b) = n.
Proof. intros. unfold logical_and. rewrite length_zip_with. lia. Qed.

Lemma length_logical_or (n : nat) (a b : list bool) :
  List.length a = n -> List.length b = n ->
  List.length (logical_or a b) = n.
Proof. intros. unfold logical_or. rewrite length_zip_with. lia. Qed.

Ltac flags_length :=
  repeat first [ apply length_logical_and | apply length_logical_or
               | assumption | reflexivity ].

Lemma has_one_eq (n : nat) (t : TypingGAFF) :
  (0 < n)%nat -> well_typed n t ->
  exists h, has_one n t = Some h /\ List.length h = n.
Proof.
  intros Hn Hw. unfold well_typed in Hw.
  repeat match goal with
         | H : Forall _ (_ :: _) |- _ => inversion H; clear H; subst
         end.
  unfold has_one. rewrite any_rule_eq; auto.
  - eexists. split; [reflexivity|]. apply length_reduce_any.
    repeat constructor; flags_length.
  - repeat constructor; flags_length.
Qed.

Lemma has_two_eq (n : nat) (t : TypingGAFF) :
  (0 < n)%nat -> well_typed n t ->
  exists h, has_two n t = Some h /\ List.length h = n.
Proof.
  intros Hn Hw. unfold well_typed in Hw.
  repeat match goal with
         | H : Forall _ (_ :: _) |- _ => inversion H; clear H; subst
         end.
  unfold has_two. rewrite any_rule_eq; auto.
  - eexists. split; [reflexivity|]. apply length_reduce_any.
    repeat constructor; flags_length.
  - repeat constructor; flags_length.
Qed.

Lemma length_has_three (n : nat) (t : TypingGAFF) :
  well_typed n t -> List.length (has_three t) = n.
Proof.
  intros Hw. unfold well_typed in Hw.
  repeat match goal with
         | H : Forall _ (_ :: _) |- _ => inversion H; clear H; subst
         end.
  unfold has_three. flags_length.
Qed.

(** *** The hydrogen block *)

Lemma count_nonzero_mask (n : nat) (mask : list bool) :
  List.length mask = n ->
  count_nonzero mask
  = Z.of_nat (List.length (boolean_mask (range (Z.of_nat n)) mask)).
Proof.
  intros H. unfold count_nonzero. rewrite length_boolean_mask; auto.
  rewrite length_range. lia.
Qed.

(** A loop that runs once for every flagged atom appends the columns
    of the atoms in turn. *)
Lemma while_loop_from (copies n : nat) (idxs : list Z) : forall pre block,
  while_loop copies n (pre ++ idxs)
    (map Z.of_nat (seq (List.length pre) (List.length idxs))) block
  = Some (fold_left (fun b p => append_line copies b (new_line n p))
            idxs block).
Proof.
  induction idxs as [|p idxs IH]; intros pre block; simpl; [reflexivity|].
  unfold body. rewrite index_of_nat, nth_error_app2, Nat.sub_diag by lia.
  simpl. specialize (IH (pre ++ [p])).
  rewrite <- app_assoc, length_app, Nat.add_1_r in IH. apply IH.
Qed.

Lemma while_loop_eq (copies n : nat) (idxs : list Z) (block : matrix) :
  while_loop copies n idxs (range (Z.of_nat (List.length idxs))) block
  = Some (fold_left (fun b p => append_line copies b (new_line n p))
            idxs block).
Proof.
  unfold range. rewrite Nat2Z.id. exact (while_loop_from copies n idxs [] block).
Qed.

Lemma fold_append (copies n : nat) (idxs : list Z) : forall f : Z -> list Q,
  fold_left (fun b p => append_line copies b (new_line n p)) idxs
    (map f (range (Z.of_nat n)))
  = map (fun i => f i ++ flat_map (fun p => repeat (bond_to i p) copies) idxs)
      (range (Z.of_nat n)).
Proof.
  induction idxs as [|p idxs IH]; intros f; simpl.
  - apply map_ext. intros i. now rewrite app_nil_r.
  - unfold append_line at 2, new_line. rewrite zip_with_map, IH.
    apply map_ext. intros i. now rewrite <- app_assoc.
Qed.

Lemma flat_map_repeat {A B : Type} (g : A -> B) (copies : nat) (l : list A) :
  flat_map (fun p => repeat (g p) copies) l
  = map g (flat_map (fun p => repeat p copies) l).
Proof.
  induction l as [|x l IH]; simpl; [reflexivity|].
  now rewrite map_app, IH, map_repeat.
Qed.

Lemma repeat_as_map {A : Type} (x : A) (n : nat) :
  repeat x n = map (fun _ => x) (range (Z.of_nat n)).
Proof.
  unfold range. rewrite Nat2Z.id, map_map.
  generalize 0%nat. induction n as [|n IH]; intros s; simpl; congruence.
Qed.

(** The block after the three loops, its first column dropped. *)
Lemma hydrogen_block_eq (n : nat) (one two three : list Z) :
  exists block,
    (b1 <- while_loop 1 n one (range (Z.of_nat (List.length one)))
             (repeat [(-1)%Q] n) ;;
     b2 <- while_loop 2 n two (range (Z.of_nat (List.length two))) b1 ;;
     while_loop 3 n three (range (Z.of_nat (List.length three))) b2)
    = Some block
    /\ map (@tl Q) block
       = map (fun i => map (bond_to i) (parents one two three))
           (range (Z.of_nat n)).
Proof.
  rewrite while_loop_eq, repeat_as_map, fold_append.
  rewrite while_loop_eq, fold_append.
  rewrite while_loop_eq, fold_append.
  eexists. split; [reflexivity|].
  rewrite map_map. apply map_ext. intros i. simpl.
  unfold parents. now rewrite !map_app, <- !flat_map_repeat, app_assoc.
Qed.

Lemma in_parents (n : nat) (h1 h2 h3 : list bool) (p : Z) :
  In p (parents (boolean_mask (range (Z.of_nat n)) h1)
          (boolean_mask (range (Z.of_nat n)) h2)
          (boolean_mask (range (Z.of_nat n)) h3)) ->
  0 <= p < Z.of_nat n.
Proof.
  unfold parents. rewrite !in_app_iff, !in_flat_map.
  intros [[x [Hx Hp]]|[[x [Hx Hp]]|[x [Hx Hp]]]];
    apply repeat_spec in Hp; subst;
    apply in_boolean_mask in Hx; now apply in_range in Hx.
Qed.

Lemma length_parents (one two three : list Z) :
  List.length (parents one two three)
  = (List.length one + 2 * List.length two + 3 * List.length three)%nat.
Proof.
  assert (H : forall c (l : list Z),
             List.length (flat_map (fun p => repeat p c) l)
             = (c * List.length l)%nat).
  { intros c l. induction l as [|x l IH]; simpl; [lia|].
    rewrite length_app, repeat_length, IH. lia. }
  unfold parents. rewrite !length_app, !H. lia.
Qed.

(** *** The extended molecule *)

(** [add_hydrogen] in closed form. *)
Lemma is_square_true (n : nat) (m : matrix) :
  square n m -> is_square n m = true.
Proof.
  intros [Hl Hr]. unfold is_square. apply andb_true_intro. split.
  - now apply Nat.eqb_eq.
  - apply forallb_forall. intros r Hin. apply Nat.eqb_eq.
    rewrite Forall_forall in Hr. auto.
Qed.

Lemma add_hydrogen_eq (t : TypingGAFF) (atoms : list Z) (A : matrix) :
  (0 < List.length atoms)%nat ->
  square (List.length atoms) A ->
  well_typed (List.length atoms) t ->
  exists h1 h2,
    has_one (List.length atoms) t = Some h1
    /\ has_two (List.length atoms) t = Some h2
    /\ List.length h1 = List.length atoms
    /\ List.length h2 = List.length atoms
    /\ let n := Z.of_nat (List.length atoms) in
       let ps := parents (boolean_mask (range n) h1)
                   (boolean_mask (range n) h2)
                   (boolean_mask (range n) (has_three t)) in
       add_hydrogen t (atoms, A)
       = Some (atoms ++ repeat 9 (List.length ps),
               zip_with (@app Q) A
                 (map (fun i => map (bond_to i) ps) (range n))
               ++ repeat (repeat 0%Q (List.length atoms + List.length ps))
                    (List.length ps)).
Proof.
  intros Hn Hsq Hw.
  destruct (has_one_eq _ t Hn Hw) as [h1 [E1 L1]].
  destruct (has_two_eq _ t Hn Hw) as [h2 [E2 L2]].
  pose proof (length_has_three _ t Hw) as L3.
  exists h1, h2. repeat split; auto.
  intros n ps. unfold add_hydrogen. cbn [fst snd]. rewrite E1, E2.
  rewrite (count_nonzero_mask _ h1 L1), (count_nonzero_mask _ h2 L2),
    (count_nonzero_mask _ (has_three t) L3).
  fold n.
  destruct (hydrogen_block_eq (List.length atoms)
              (boolean_mask (range n) h1) (boolean_mask (range n) h2)
              (boolean_mask (range n) (has_three t))) as [block [Eb Et]].
  fold n in Eb, Et. fold ps in Et.
  destruct (while_loop 1 _ _ _ _) as [b1|]; [|discriminate].
  destruct (while_loop 2 _ _ _ _) as [b2|]; [|discriminate].
  rewrite Eb, Et.
  assert (Hr : exists rest, range n = 0 :: rest).
  { unfold n, range. rewrite Nat2Z.id.
    destruct (List.length atoms); [lia|]. simpl. eauto. }
  destruct Hr as [rest Hr]. rewrite Hr at 1. cbn [map nth_error].
  rewrite length_map, (is_square_true _ A Hsq). reflexivity.
Qed.

(** C9.  For a molecule of [n] heavy atoms (at least one) with an [n]
    by [n] bond matrix and a typing with one flag per atom and
    predicate, [add_hydrogen] returns a molecule whose atoms are the
    old ones followed by one hydrogen code 9 for each hydrogen, as many
    as the three rule sets grant; its matrix is square on the new
    count, agrees with the old one on the heavy block, holds in each
    hydrogen column a single nonzero entry, a 1 in the row of the
    column's parent, and is zero on all hydrogen rows. *)
Theorem add_hydrogen_block (t : TypingGAFF) (atoms : list Z) (A : matrix) :
  let n := List.length atoms in
  (0 < n)%nat -> square n A -> well_typed n t ->
  exists h1 h2 ps A',
    has_one n t = Some h1 /\ has_two n t = Some h2
    /\ ps = parents (boolean_mask (range (Z.of_nat n)) h1)
              (boolean_mask (range (Z.of_nat n)) h2)
              (boolean_mask (range (Z.of_nat n)) (has_three t))
    /\ add_hydrogen t (atoms, A)
       = Some (atoms ++ repeat 9 (List.length ps), A')
    /\ Z.of_nat (List.length ps)
       = count_nonzero h1 + 2 * count_nonzero h2
         + 3 * count_nonzero (has_three t)
    /\ square (n + List.length ps) A'
    /\ (forall i j,
           0 <= i < Z.of_nat n -> 0 <= j < Z.of_nat n ->
           entry A' i j = entry A i j)
    /\ (forall k p,
           nth_error ps k = Some p ->
           0 <= p < Z.of_nat n
           /\ entry A' p (Z.of_nat (n + k)) = Some 1%Q
           /\ forall i,
               0 <= i < Z.of_nat (n + List.length ps) -> i <> p ->
               entry A' i (Z.of_nat (n + k)) = Some 0%Q)
    /\ (forall i j,
           Z.of_nat n <= i < Z.of_nat (n + List.length ps) ->
           0 <= j < Z.of_nat (n + List.length ps) ->
           entry A' i j = Some 0%Q).
Proof.
  intros n Hn Hsq Hw.
  destruct (add_hydrogen_eq t atoms A Hn Hsq Hw)
    as [h1 [h2 [E1 [E2 [L1 [L2 E]]]]]].
  destruct Hsq as [HlA HrA].
  fold n in E1, E2, L1, L2, E. cbv zeta in E.
  set (ps := parents _ _ _) in E.
  set (rows := map (fun i => map (bond_to i) ps) (range (Z.of_nat n))) in E.
  set (zeros := repeat (repeat 0%Q (n + List.length ps)) (List.length ps)) in E.
  exists h1, h2, ps, (zip_with (@app Q) A rows ++ zeros).
  assert (Hlr : List.length rows = n)
    by (unfold rows; rewrite length_map, length_range; lia).
  assert (Hlz : List.length (zip_with (@app Q) A rows) = n)
    by (rewrite length_zip_with; lia).
  assert (Hheavy : forall i, 0 <= i < Z.of_nat n ->
            exists row, index A i = Some row /\ List.length row = n
              /\ index (zip_with (@app Q) A rows ++ zeros) i
                 = Some (row ++ map (bond_to i) ps)).
  { intros i Hi. destruct (index_some A i) as [row Hrow]; [lia|].
    exists row. split; [exact Hrow|]. split.
    - apply index_inv in Hrow as [_ Hrow]. apply nth_error_In in Hrow.
      rewrite Forall_forall in HrA. auto.
    - rewrite index_app_l by lia. rewrite index_zip_with, Hrow.
      unfold rows. rewrite index_map, index_range by lia. reflexivity. }
  assert (Hhydro : forall i, Z.of_nat n <= i < Z.of_nat (n + List.length ps) ->
            index (zip_with (@app Q) A rows ++ zeros) i
            = Some (repeat 0%Q (n + List.length ps))).
  { intros i Hi. replace i with (Z.of_nat (List.length (zip_with (@app Q) A rows))
                                  + (i - Z.of_nat n)) by lia.
    rewrite index_app_r by lia. apply index_repeat. lia. }
  split; [exact E1|]. split; [exact E2|]. split; [reflexivity|].
  split; [exact E|]. split; [|split; [split|split; [|split]]].
  - unfold ps. rewrite length_parents.
    rewrite (count_nonzero_mask n h1 L1), (count_nonzero_mask n h2 L2),
      (count_nonzero_mask n (has_three t) (length_has_three n t Hw)).
    lia.
  - rewrite length_app, Hlz. unfold zeros. now rewrite repeat_length.
  - apply Forall_app. split.
    + apply Forall_forall. intros r Hin.
      apply in_zip_with_rows in Hin as [a [b [Ha [Hb ->]]]].
      rewrite length_app. rewrite Forall_forall in HrA. rewrite (HrA a Ha).
      unfold rows in Hb. apply in_map_iff in Hb as [i [<- _]].
      now rewrite length_map.
    + apply Forall_forall. intros r Hin. apply repeat_spec in Hin. subst.
      apply repeat_length.
  - intros i j Hi Hj. destruct (Hheavy i Hi) as [row [Hrow [Hlen Hext]]].
    unfold entry. rewrite Hext, Hrow. apply index_app_l. lia.
  - intros k p H.
    assert (Hp : 0 <= p < Z.of_nat n)
      by (apply (in_parents n h1 h2 (has_three t));
          eapply nth_error_In; eauto).
    assert (Hk : (k < List.length ps)%nat)
      by (apply nth_error_Some; congruence).
    split; [exact Hp|]. split.
    + destruct (Hheavy p Hp) as [row [Hrow [Hlen Hext]]].
      unfold entry. rewrite Hext.
      replace (Z.of_nat (n + k))
        with (Z.of_nat (List.length row) + Z.of_nat k) by lia.
      rewrite index_app_r, index_map, index_of_nat by lia.
      rewrite H. simpl. unfold bond_to. now rewrite Z.eqb_refl.
    + intros i Hi Hne.
      destruct (Z.lt_ge_cases i (Z.of_nat n)) as [Hlt|Hge].
      * destruct (Hheavy i) as [row [Hrow [Hlen Hext]]]; [lia|].
        unfold entry. rewrite Hext.
        replace (Z.of_nat (n + k))
          with (Z.of_nat (List.length row) + Z.of_nat k) by lia.
        rewrite index_app_r, index_map, index_of_nat by lia.
        rewrite H. simpl. unfold bond_to.
        destruct (Z.eqb_spec i p); [contradiction|reflexivity].
      * unfold entry. rewrite Hhydro by lia. apply index_repeat. lia.
  - intros i j Hi Hj. unfold entry. rewrite Hhydro by lia.
    apply index_repeat. lia.
Qed.

(** Ethanol, CCO: three hydrogens on the first carbon, two on the
    second, one on the oxygen. *)
Lemma add_hydrogen_block_witness :
  exists mol,
    add_hydrogen
      {| is_carbon := [true; true; false];
         is_nitrogen := [false; false; false];
         is_phosphorus := [false; false; false];
         is_oxygen := [false; false; true];
         is_sulfur := [false; false; false];
         is_sp1 := [false; false; false];
         is_sp2 := [false; false; false];
         is_sp3 := [true; true; true];
         is_connected_to_1_heavy := [true; false; true];
         is_connected_to_2_heavy := [false; true; false];
         is_connected_to_3_heavy := [false; false; false] |}
      ([0; 0; 2], chain_matrix 3) = Some mol
    /\ List.length (fst mol) = 9%nat.
Proof.
  destruct (add_hydrogen_block
              {| is_carbon := [true; true; false];
                 is_nitrogen := [false; false; false];
                 is_phosphorus := [false; false; false];
                 is_oxygen := [false; false; true];
                 is_sulfur := [false; false; false];
                 is_sp1 := [false; false; false];
                 is_sp2 := [false; false; false];
                 is_sp3 := [true; true; true];
                 is_connected_to_1_heavy := [true; false; true];
                 is_connected_to_2_heavy := [false; true; false];
                 is_connected_to_3_heavy := [false; false; false] |}
              [0; 0; 2] (chain_matrix 3))
    as [h1 [h2 [ps [A' [E1 [E2 [Hps [E _]]]]]]]].
  - simpl. lia.
  - split; [reflexivity|]. repeat constructor.
  - repeat constructor.
  - eexists. split; [exact E|].
    injection E1 as <-. injection E2 as <-. subst ps. reflexivity.
Defined.

(** C1, as the code has it.  A single carbon atom typed sp3 and
    connected to no heavy atom matches none of the three rule sets
    (each carbon rule asks for one, two or three heavy neighbours):
    [add_hydrogen] appends no hydrogen and returns the one atom with
    its one by one bond matrix. *)
Theorem lone_carbon_unchanged (t : TypingGAFF) (a : Z) (v : Q) :
  well_typed 1 t ->
  is_carbon t = [true] -> is_sp3 t = [true] ->
  is_oxygen t = [false] -> is_sulfur t = [false] ->
  is_connected_to_1_heavy t = [false] ->
  is_connected_to_2_heavy t = [false] ->
  is_connected_to_3_heavy t = [false] ->
  add_hydrogen t ([a], [[v]]) = Some ([a], [[v]]).
Proof.
  intros Hw. destruct t as [c n p o s sp1 sp2 sp3 c1 c2 c3].
  unfold well_typed in Hw. cbn [is_carbon is_nitrogen is_phosphorus is_oxygen
    is_sulfur is_sp1 is_sp2 is_sp3 is_connected_to_1_heavy
    is_connected_to_2_heavy is_connected_to_3_heavy] in *.
  intros -> -> -> -> -> -> ->.
  repeat match goal with
         | H : Forall _ (_ :: _) |- _ => inversion H; clear H; subst
         end.
  destruct n as [|bn [|]]; try discriminate.
  destruct p as [|bp [|]]; try discriminate.
  destruct sp1 as [|b1 [|]]; try discriminate.
  destruct sp2 as [|b2 [|]]; try discriminate.
  destruct bn, bp, b1, b2; reflexivity.
Qed.

Lemma lone_carbon_unchanged_witness :
  add_hydrogen lone_sp3_carbon ([0], [[0%Q]]) = Some ([0], [[0%Q]]).
Proof.
  apply lone_carbon_unchanged; try reflexivity. repeat constructor.
Defined.

(** Counterexample to C1 as worded: for the lone sp3 carbon the molecule returned
    has one atom, not five; no hydrogen is appended. *)
Lemma lone_carbon_gets_no_hydrogen :
  exists mol,
    add_hydrogen lone_sp3_carbon ([0], [[0%Q]]) = Some mol
    /\ fst mol = [0]
    /\ List.length (fst mol) <> 5%nat
    /\ snd mol = [[0%Q]].
Proof.
  eexists. split; [vm_compute; reflexivity|].
  repeat split. simpl. lia.
Qed.

End Completer.

(** ** Decoded molecules *)
Module Decoded.
Import Tensor TensorFacts FromSmiles.

Local Open Scope Z_scope.

(** C7.  Benzene, "c1ccccc1": the resolved matrix has exactly six
    nonzero entries, the ring bonds, and all six hold one bond order,
    strictly between 1 and 2. *)
Theorem benzene_bonds :
  exists st v,
    decode "c1ccccc1" = Some st
    /\ nonzero_places (resolved st)
       = [(0, 1); (0, 5); (1, 2); (2, 3); (3, 4); (4, 5)]
    /\ (forall i j,
           In (i, j) (nonzero_places (resolved st)) ->
           entry (resolved st) i j = Some v)
    /\ (1 < v)%Q /\ (v < 2)%Q.
Proof.
  eexists. eexists. split; [vm_compute; reflexivity|].
  split; [vm_compute; reflexivity|]. split.
  - intros i j H. vm_compute in H.
    repeat (destruct H as [[= <- <-]|H]; [vm_compute; reflexivity|]).
    destruct H.
  - split; reflexivity.
Qed.

(** The orders one conjugated system writes add up to the total of its
    band, whenever it holds a bond. *)
Lemma system_update_total (total : Q) (count : nat) :
  (0 < count)%nat ->
  (sum_Q (repeat (total / inject_Z (Z.of_nat count))%Q count) == total)%Q.
Proof.
  intros Hc.
  assert (H : forall x n,
             (sum_Q (repeat x n) == inject_Z (Z.of_nat n) * x)%Q).
  { intros x n. induction n as [|n IH].
    - simpl. ring.
    - cbn [repeat sum_Q fold_right]. fold (sum_Q (repeat x n)). rewrite IH.
      rewrite Nat2Z.inj_succ. unfold Z.succ. rewrite inject_Z_plus. ring. }
  rewrite H. field.
  intros Hz. assert (Hq : (inject_Z (Z.of_nat count) == inject_Z 0)%Q)
    by exact Hz.
  rewrite inject_Z_injective in Hq. lia.
Qed.

(** C10 at 2-pyridone, "O=c1cccc[nH]1": atom 1 is aromatic and on a
    double bond, so it enters the candidates twice; the one conjugated
    system holds all seven bonds, of total order 11 before the
    averaging and 56/5 after it. *)
Theorem pyridone_total_bond_order :
  exists st sp2 adj before after,
    decode "O=c1cccc[nH]1" = Some st
    /\ sp2_candidates (n_atoms st) (atoms st) (full (after_aromaticity st))
         (aromatic st) = Some sp2
    /\ sp2 = [0; 1; 1; 2; 3; 4; 5; 6]
    /\ submatrix (full (after_aromaticity st)) sp2 = Some adj
    /\ conjugate_systems sp2 adj = Some [[0; 1; 2; 3; 7; 6; 5; 4]]
    /\ nonzero_places (after_aromaticity st)
       = [(0, 1); (1, 2); (1, 6); (2, 3); (3, 4); (4, 5); (5, 6)]
    /\ nonzero_places (resolved st) = nonzero_places (after_aromaticity st)
    /\ gather_nd (after_aromaticity st)
         (nonzero_places (after_aromaticity st)) = Some before
    /\ gather_nd (resolved st)
         (nonzero_places (after_aromaticity st)) = Some after
    /\ (sum_Q before == 11)%Q
    /\ (sum_Q after == 56 # 5)%Q.
Proof.
  do 5 eexists.
  split; [vm_compute; reflexivity|].
  split; [vm_compute; reflexivity|].
  split; [reflexivity|].
  split; [vm_compute; reflexivity|].
  split; [vm_compute; reflexivity|].
  split; [vm_compute; reflexivity|].
  split; [vm_compute; reflexivity|].
  split; [vm_compute; reflexivity|].
  split; [vm_compute; reflexivity|].
  split; vm_compute; reflexivity.
Qed.

End Decoded.

(** ** The search for conjugated systems never runs out of rounds *)
Module Traversal.
Import Tensor TensorFacts FromSmiles.

Local Open Scope Z_scope.

(** The places a mask keeps are those it flags. *)
Lemma in_mask_seq (mask : list bool) : forall start k,
  In k (boolean_mask (map Z.of_nat (seq start (List.length mask))) mask) <->
  Z.of_nat start <= k
  /\ nth_error mask (Z.to_nat k - start) = Some true.
Proof.
  induction mask as [|b mask IH]; intros start k.
  - simpl. split; [tauto|]. intros [_ H].
    destruct (Z.to_nat k - start)%nat; discriminate.
  - cbn [List.length seq map boolean_mask].
    destruct (Z.eq_dec k (Z.of_nat start)) as [->|Hne].
    + rewrite Nat2Z.id, Nat.sub_diag. simpl.
      destruct b; simpl; [split; [intros _; split; [lia|reflexivity]|auto]|].
      rewrite IH. split; [lia|intros [_ [=]]].
    + destruct (Z_lt_le_dec k (Z.of_nat start)) as [Hlt|Hge].
      * destruct b; simpl; rewrite IH; split; lia.
      * replace (Z.to_nat k - start)%nat
          with (S (Z.to_nat k - S start))%nat by lia.
        simpl. destruct b; simpl; rewrite IH; split.
        -- intros [?|[? ?]]; [lia|split; [lia|assumption]].
        -- intros [? ?]. right. split; [lia|assumption].
        -- intros [? ?]. split; [lia|assumption].
        -- intros [? ?]. split; [lia|assumption].
Qed.

Lemma in_mask (mask : list bool) (k : Z) :
  In k (boolean_mask (range (Z.of_nat (List.length mask))) mask) <->
  index mask k = Some true.
Proof.
  unfold range. rewrite Nat2Z.id, in_mask_seq, Nat.sub_0_r. unfold index.
  destruct (Z.ltb_spec k 0); split; try lia; try tauto; try discriminate.
Qed.

Lemma nodup_boolean_mask {A : Type} (l : list A) : forall mask,
  NoDup l -> NoDup (boolean_mask l mask).
Proof.
  induction l as [|x l IH]; intros [|b mask] H; simpl; try constructor.
  apply NoDup_cons_iff in H as [Hx Hl]. destruct b; auto.
  constructor; auto. intros Hin. apply in_boolean_mask in Hin. tauto.
Qed.

Lemma nodup_range (n : Z) : NoDup (range n).
Proof.
  unfold range. generalize 0%nat.
  induction (Z.to_nat n) as [|m IH]; intros start; simpl; constructor; auto.
  intros H. apply in_map_iff in H as [x [Hx Hin]].
  apply in_seq in Hin. lia.
Qed.

Section Rounds.

(** The search runs over [s] candidates on an [s] by [s] adjacency
    map without self-bonds. *)
Variables (s : nat) (adj : matrix).
Hypothesis Hadj : square s adj.
Hypothesis Hdiag : forall k row x,
    index adj k = Some row -> index row k = Some x -> positive x = false.

Lemma in_pending (visited : list bool) (k : Z) :
  List.length visited = s ->
  In k (pending s visited) <-> index visited k = Some false.
Proof.
  intros Hl. unfold pending.
  rewrite <- Hl, <- (length_map negb visited), in_mask, index_map.
  destruct (index visited k) as [[|]|]; simpl; split; congruence.
Qed.

Lemma nodup_pending (visited : list bool) : NoDup (pending s visited).
Proof. apply nodup_boolean_mask, nodup_range. Qed.

Lemma row_of (idx : Z) :
  0 <= idx < Z.of_nat s ->
  exists row, index adj idx = Some row /\ List.length row = s.
Proof.
  intros H. destruct Hadj as [Hl Hr].
  destruct (index_some adj idx) as [row E]; [lia|].
  exists row. split; [exact E|].
  apply index_inv in E as [_ E]. apply nth_error_In in E.
  rewrite Forall_forall in Hr. auto.
Qed.

(** One round of the inner loop. *)
Lemma body_spec (q0 : list Z) (idx : Z) (visited : list bool)
  (conj : list Z) :
  List.length visited = s -> 0 <= idx < Z.of_nat s ->
  exists row seen nu visited',
    index adj idx = Some row
    /\ index visited idx = Some seen
    /\ loop_body_inner adj (q0 ++ [idx]) visited conj
       = Some (q0 ++ nu, visited',
               (if seen then conj else conj ++ [idx]) ++ nu)
    /\ List.length visited' = s
    /\ NoDup nu
    /\ (forall k, In k nu <->
                  exists x, index row k = Some x /\ positive x = true
                            /\ index visited k = Some false)
    /\ (forall k, index visited' k = Some false <->
                  index visited k = Some false /\ ~ In k nu /\ k <> idx)
    /\ index visited' idx = Some true.
Proof.
  intros Hl Hidx.
  destruct (row_of idx Hidx) as [row [Erow Hrow]].
  destruct (index_some visited idx) as [seen Eseen]; [lia|].
  set (un := zip_with andb (map positive row) (map negb visited)).
  set (nu := boolean_mask (range (Z.of_nat s)) un).
  assert (Hun : List.length un = s)
    by (unfold un; rewrite length_zip_with, !length_map; lia).
  assert (Hnu : forall k, In k nu <->
                 exists x, index row k = Some x /\ positive x = true
                           /\ index visited k = Some false).
  { intros k. unfold nu. rewrite <- Hun at 1. rewrite in_mask.
    unfold un. rewrite index_zip_with, !index_map.
    destruct (index row k) as [x|]; simpl;
      [|split; [discriminate|intros [x [[=] _]]]].
    destruct (index visited k) as [b|]; simpl;
      [|split; [discriminate|intros [y [_ [_ [=]]]]]].
    split.
    - intros [= H]. apply andb_true_iff in H as [H1 H2].
      exists x. destruct b; [discriminate|auto].
    - intros [y [[= <-] [H1 [= ->]]]]. now rewrite H1. }
  exists row, seen, nu,
    (zip3_with (fun u s0 v => if u || s0 then true else v) un
       (map (fun k => k =? idx) (range (Z.of_nat s))) visited).
  assert (Hpoint : forall k,
             index (zip3_with (fun u s0 v => if u || s0 then true else v) un
                      (map (fun k => k =? idx) (range (Z.of_nat s))) visited) k
             = match index un k, index visited k with
               | Some u, Some v => Some (if u || (k =? idx) then true else v)
               | _, _ => None
               end).
  { intros k. rewrite index_zip3_with, index_map.
    destruct (index un k) as [u|] eqn:Eu; [|reflexivity].
    apply index_inv in Eu as [Hk _]. rewrite Hun in Hk.
    rewrite index_range by lia. reflexivity. }
  split; [exact Erow|]. split; [exact Eseen|]. split; [|split; [|split;
    [|split; [|split]]]].
  - unfold loop_body_inner. rewrite rev_unit. cbn [nth_error].
    rewrite removelast_last, Erow, Eseen.
    destruct Hadj as [-> _]. fold un. fold nu.
    destruct seen; reflexivity.
  - unfold zip3_with.
    rewrite length_zip_with, length_combine, length_map, length_range. lia.
  - apply nodup_boolean_mask, nodup_range.
  - exact Hnu.
  - intros k. rewrite Hpoint.
    destruct (index un k) as [u|] eqn:Eu.
    + pose proof (index_inv _ _ _ Eu) as [Hk _]. rewrite Hun in Hk.
      destruct (index_some visited k) as [v Ev]; [lia|]. rewrite Ev.
      assert (Hu : u = true <-> In k nu).
      { unfold nu. rewrite <- Hun at 1. rewrite in_mask, Eu.
        split; congruence. }
      destruct u; simpl.
      * split; [discriminate|]. intros [_ [Hn _]]. exfalso. apply Hn.
        now apply Hu.
      * destruct (Z.eqb_spec k idx).
        -- split; [discriminate|]. intros [_ [_ Hne]]. contradiction.
        -- split.
           ++ intros [= ->]. repeat split; auto. intros Hin.
              apply Hu in Hin. discriminate.
           ++ intros [[= ->] _]. reflexivity.
    + split; [discriminate|]. intros [Hv _].
      apply index_inv in Hv as [Hk _].
      destruct (index_some un k) as [u Eu']; [lia|]. congruence.
  - rewrite Hpoint.
    destruct (index_some un idx) as [u ->]; [lia|]. rewrite Eseen.
    now rewrite Z.eqb_refl, orb_true_r.
Qed.

Lemma flag_cases (visited : list bool) (k : Z) :
  List.length visited = s -> 0 <= k < Z.of_nat s ->
  index visited k = Some true \/ index visited k = Some false.
Proof.
  intros Hl Hk. destruct (index_some visited k) as [[|] E]; [lia| |]; auto.
Qed.

Lemma flagged_inside (visited : list bool) (k : Z) (b : bool) :
  List.length visited = s -> index visited k = Some b ->
  0 <= k < Z.of_nat s.
Proof. intros Hl H. apply index_inv in H as [H _]. lia. Qed.

(** The inner loop ends within its rounds; it only adds flags, it
    visits every queued candidate, and the system it collects lists
    visited candidates once each. *)
Lemma inner_loop_some : forall fuel queue visited conj,
  List.length visited = s ->
  (forall q, In q queue -> 0 <= q < Z.of_nat s) ->
  (List.length queue + List.length (pending s visited) <= fuel)%nat ->
  NoDup conj ->
  (forall k, In k conj -> index visited k = Some true) ->
  exists visited' conj',
    inner_loop fuel adj queue visited conj = Some (visited', conj')
    /\ List.length visited' = s
    /\ (forall k, index visited k = Some true -> index visited' k = Some true)
    /\ (forall q, In q queue -> index visited' q = Some true)
    /\ NoDup conj'
    /\ (forall k, In k conj' -> index visited' k = Some true).
Proof.
  induction fuel as [|fuel IH]; intros queue visited conj Hl Hq Hm Hnd Hc.
  - destruct queue; [|simpl in Hm; lia].
    exists visited, conj. simpl. repeat split; auto. intros q [].
  - destruct queue as [|a queue].
    { exists visited, conj. simpl. repeat split; auto. intros q []. }
    destruct (exists_last (l := a :: queue)) as [q0 [idx Eq]];
      [discriminate|].
    cbn [inner_loop]. rewrite Eq in *.
    assert (Hidx : 0 <= idx < Z.of_nat s)
      by (apply Hq, in_or_app; right; now left).
    destruct (body_spec q0 idx visited conj Hl Hidx)
      as [row [seen [nu [vis' [Erow [Eseen [-> [Hl' [Hnu [Hin [Hv' Hi']]]]]]]]]]].
    assert (Hmono : forall k, index visited k = Some true ->
                              index vis' k = Some true).
    { intros k Hk.
      destruct (flag_cases vis' k Hl' (flagged_inside _ _ _ Hl Hk))
        as [H|H]; [exact H|].
      apply Hv' in H as [H _]. congruence. }
    assert (Hnew : forall k, In k nu -> index vis' k = Some true).
    { intros k Hk. pose proof Hk as Hk'.
      apply Hin in Hk' as [x [_ [_ Hf]]].
      destruct (flag_cases vis' k Hl' (flagged_inside _ _ _ Hl Hf))
        as [H|H]; [exact H|].
      apply Hv' in H as [_ [H _]]. contradiction. }
    destruct (IH (q0 ++ nu) vis'
                ((if seen then conj else conj ++ [idx]) ++ nu))
      as [vf [cf [E [Hlf [Hmf [Hqf [Hndf Hcf]]]]]]]; auto.
    + intros q Hin'. apply in_app_or in Hin' as [H|H].
      * apply Hq, in_or_app. now left.
      * apply Hin in H as [x [_ [_ Hf]]]. exact (flagged_inside _ _ _ Hl Hf).
    + assert (Hle : (List.length (nu ++ pending s vis')
                     <= List.length (pending s visited))%nat).
      { apply NoDup_incl_length.
        - apply NoDup_app; auto using nodup_pending.
          intros k Hk Hp. apply in_pending in Hp; auto.
          apply Hnew in Hk. congruence.
        - intros k Hk. apply in_pending; auto.
          apply in_app_or in Hk as [Hk|Hk].
          + apply Hin in Hk as [x [_ [_ Hf]]]. exact Hf.
          + apply in_pending in Hk; auto. now apply Hv' in Hk. }
      rewrite !length_app in *. simpl in Hm. lia.
    + apply NoDup_app; auto.
      * destruct seen; auto. apply NoDup_app; auto.
        -- repeat constructor. intros [].
        -- intros k Hk [<-|[]]. apply Hc in Hk. congruence.
      * intros k Hk Hk'. apply Hin in Hk' as [x [Hx [Hpos Hf]]].
        destruct seen.
        -- apply Hc in Hk. congruence.
        -- apply in_app_or in Hk as [Hk|[<-|[]]].
           ++ apply Hc in Hk. congruence.
           ++ rewrite (Hdiag idx row x Erow Hx) in Hpos. discriminate.
    + intros k Hk. apply in_app_or in Hk as [Hk|Hk]; [|now apply Hnew].
      destruct seen; [now apply Hmono, Hc|].
      apply in_app_or in Hk as [Hk|[<-|[]]]; [now apply Hmono, Hc|exact Hi'].
    + exists vf, cf. split; [exact E|]. repeat split; auto.
      intros q Hin'. apply in_app_or in Hin' as [H|[<-|[]]].
      * apply Hqf, in_or_app. now left.
      * now apply Hmf.
Qed.

Lemma length_pending (visited : list bool) :
  (List.length (pending s visited) <= s)%nat.
Proof.
  assert (H : forall (l : list Z) mask,
             (List.length (boolean_mask l mask) <= List.length l)%nat).
  { induction l as [|x l IH]; intros [|b mask]; simpl; try lia.
    specialize (IH mask). destruct b; simpl; lia. }
  unfold pending. etransitivity; [apply H|]. rewrite length_range. lia.
Qed.

Lemma first_pending (visited : list bool) :
  List.length visited = s -> existsb negb visited = true ->
  exists first rest, pending s visited = first :: rest.
Proof.
  intros Hl He. apply existsb_exists in He as [b [Hin Hb]].
  destruct b; [discriminate|].
  apply In_nth_error in Hin as [k Hk]. rewrite <- index_of_nat in Hk.
  apply in_pending in Hk; auto.
  destruct (pending s visited) as [|first rest]; [destruct Hk|eauto].
Qed.

(** One round of the outer loop: it ends and visits a new candidate. *)
Lemma body_outer_some (systems : list (list Z)) (visited : list bool) :
  List.length visited = s -> existsb negb visited = true ->
  exists systems' visited',
    loop_body_outer adj systems visited = Some (systems', visited')
    /\ List.length visited' = s
    /\ (List.length (pending s visited')
        < List.length (pending s visited))%nat.
Proof.
  intros Hl He. destruct (first_pending visited Hl He) as [first [rest Ep]].
  assert (Hfirst : index visited first = Some false)
    by (apply in_pending; auto; rewrite Ep; now left).
  unfold loop_body_outer. destruct Hadj as [Hla _]. rewrite Hla, Hl.
  fold (pending s visited). rewrite Ep. cbn [nth_error].
  destruct (inner_loop_some (S s) [first] visited [])
    as [vf [cf [-> [Hlf [Hmf [Hqf [Hndf Hcf]]]]]]]; auto.
  - intros q [<-|[]]. exact (flagged_inside _ _ _ Hl Hfirst).
  - pose proof (length_pending visited). cbn [List.length]. lia.
  - constructor.
  - intros k [].
  - assert (Hlen : (List.length cf <= s)%nat).
    { rewrite <- (Nat2Z.id s), <- length_range.
      apply NoDup_incl_length; auto.
      intros k Hk. apply in_range. apply Hcf in Hk.
      exact (flagged_inside _ _ _ Hlf Hk). }
    set (kept := if 3 <=? Z.of_nat (List.length cf) then cf else []).
    assert (Hkept : (List.length kept <= s)%nat)
      by (unfold kept; destruct (3 <=? _); simpl; lia).
    destruct (Nat.ltb_spec s (List.length kept)); [lia|].
    eexists. eexists. split; [reflexivity|]. split; [exact Hlf|].
    assert (Hle : (List.length (first :: pending s vf)
                   <= List.length (pending s visited))%nat).
    { apply NoDup_incl_length.
      - constructor; [|apply nodup_pending].
        intros Hin. apply in_pending in Hin; auto.
        rewrite (Hqf first) in Hin by now left. discriminate.
      - intros k [<-|Hk]; [rewrite Ep; now left|].
        apply in_pending; auto. apply in_pending in Hk; auto.
        destruct (flag_cases visited k Hl (flagged_inside _ _ _ Hlf Hk))
          as [H'|H']; [|exact H'].
        apply Hmf in H'. congruence. }
    rewrite Ep in Hle. cbn [List.length] in *. lia.
Qed.

(** The outer loop ends within as many rounds as there are candidates. *)
Lemma outer_loop_some : forall fuel systems visited,
  List.length visited = s ->
  (List.length (pending s visited) <= fuel)%nat ->
  exists result, outer_loop fuel adj systems visited = Some result.
Proof.
  induction fuel as [|fuel IH]; intros systems visited Hl Hm;
    cbn [outer_loop]; destruct (existsb negb visited) eqn:He; eauto.
  - destruct (first_pending visited Hl He) as [first [rest Ep]].
    rewrite Ep in Hm. cbn [List.length] in Hm. lia.
  - destruct (body_outer_some systems visited Hl He)
      as [systems' [visited' [-> [Hl' Hlt]]]].
    cbn [fst snd]. apply IH; auto. lia.
Qed.

End Rounds.

(** The search over the candidates [sp2_idxs] returns its systems. *)
Lemma conjugate_systems_some (sp2_idxs : list Z) (adj : matrix) :
  square (List.length sp2_idxs) adj ->
  (forall k row x,
      index adj k = Some row -> index row k = Some x -> positive x = false) ->
  exists systems, conjugate_systems sp2_idxs adj = Some systems.
Proof.
  intros Hadj Hdiag. unfold conjugate_systems.
  destruct (outer_loop_some (List.length sp2_idxs) adj Hadj Hdiag
              (List.length sp2_idxs) [map (fun _ => -1) sp2_idxs]
              (repeat false (List.length sp2_idxs))) as [result ->].
  - apply repeat_length.
  - apply length_pending.
  - eauto.
Qed.

End Traversal.

(** ** The normalizer and the atom tensor *)
Module Atoms.
Import Tensor TensorFacts FromSmiles Vocabulary.

Local Open Scope char_scope.
Local Open Scope Z_scope.

(** Every case of a character, by its eight bits. *)
Ltac each_char c :=
  destruct c as [[] [] [] [] [] [] [] []].

(** What [decode] computes before the stages run. *)
Lemma decode_inputs (smiles : string) (st : stages) :
  decode smiles = Some st ->
  to_numbers (translate_atoms (atoms_only (prepared smiles)))
  = Some (atoms st)
  /\ n_atoms st = count_atoms (strip (chars smiles))
  /\ topology_characters (topology_only (prepared smiles))
     = Some (topology_chrs st)
  /\ topology_idxs st
     = shift_indices (topology_positions (topology_only (prepared smiles)))
  /\ aromatic st = aromatic_idxs (aromatic_marks (atoms_only (prepared smiles)))
  /\ chain st = chain_matrix (n_atoms st).
Proof.
  unfold decode. fold (prepared smiles).
  repeat match goal with
         | |- context [match ?e with Some _ => _ | None => _ end] =>
             destruct e eqn:?; try discriminate
         end.
  intros [= <-]. simpl. repeat split.
Qed.

Lemma regex_replace_chars_app (cs rep a b : list ascii) :
  regex_replace_chars (a ++ b) cs rep
  = regex_replace_chars a cs rep ++ regex_replace_chars b cs rep.
Proof. unfold regex_replace_chars. apply flat_map_app. Qed.

Lemma translate_atoms_app (a b : list ascii) :
  translate_atoms (a ++ b) = translate_atoms a ++ translate_atoms b.
Proof.
  unfold translate_atoms. now rewrite !regex_replace_chars_app.
Qed.

(** The nine replacements rewrite a character that is no topology mark
    to the digit of the table, and leave any other character. *)
Lemma translate_one (c : ascii) :
  in_chars c TOPOLOGY_MARKS = false ->
  exists d, translate_atoms [c] = [d]
            /\ to_number d = element_code c.
Proof.
  each_char c; intros H; try discriminate H;
    (eexists; split; [vm_compute; reflexivity|reflexivity]).
Qed.

Lemma to_numbers_app (a b : list ascii) :
  to_numbers (a ++ b) =
  (x <- to_numbers a ;; y <- to_numbers b ;; Some (x ++ y)).
Proof.
  induction a as [|c a IH]; simpl.
  - destruct (to_numbers b); reflexivity.
  - destruct (to_number c); [|reflexivity]. rewrite IH.
    destruct (to_numbers a); [|reflexivity].
    destruct (to_numbers b); reflexivity.
Qed.

Lemma to_numbers_translate (s : list ascii) :
  Forall (fun c => in_chars c TOPOLOGY_MARKS = false) s ->
  to_numbers (translate_atoms s) = element_codes s.
Proof.
  induction 1 as [|c s Hc Hs IH]; [reflexivity|].
  change (c :: s) with ([c] ++ s) at 1.
  rewrite translate_atoms_app, to_numbers_app.
  destruct (translate_one c Hc) as [d [-> Hd]].
  cbn [to_numbers]. rewrite Hd, IH. cbn [element_codes].
  destruct (element_code c); [|reflexivity].
  destruct (element_codes s); reflexivity.
Qed.

Lemma atoms_only_kept (s : list ascii) :
  Forall (fun c => in_chars c TOPOLOGY_MARKS = false) (atoms_only s).
Proof.
  unfold atoms_only, regex_replace_chars. apply Forall_forall. intros c H.
  apply in_flat_map in H as [d [_ H]].
  destruct (in_chars d TOPOLOGY_MARKS) eqn:E; [destruct H|].
  destruct H as [<-|[]]. exact E.
Qed.

Lemma element_codes_range (s : list ascii) : forall l,
  element_codes s = Some l ->
  List.length l = List.length s /\ Forall (fun a => 0 <= a <= 8) l.
Proof.
  induction s as [|c s IH]; simpl; intros l.
  - intros [= <-]. split; [reflexivity|constructor].
  - destruct (element_code c) as [a|] eqn:Ea; [|discriminate].
    destruct (element_codes s) as [rest|]; [|discriminate].
    intros [= <-]. destruct (IH rest eq_refl) as [Hl Hr].
    split; [simpl; congruence|]. constructor; [|exact Hr].
    clear - Ea. each_char c; simpl in Ea; try discriminate;
      injection Ea as <-; lia.
Qed.

(** X1.  The atom tensor of a decoded molecule is the image of the
    atom characters of the prepared string under the table of the
    docstring, carbon 0 to iodine 8, the aromatic and the plain letter
    of an element sharing its code; every code lies between 0 and 8. *)
Theorem decoded_atom_codes (smiles : string) (st : stages) :
  decode smiles = Some st ->
  element_codes (atoms_only (prepared smiles)) = Some (atoms st)
  /\ Forall (fun a => 0 <= a <= 8) (atoms st).
Proof.
  intros H. apply decode_inputs in H as [H _].
  rewrite to_numbers_translate in H by apply atoms_only_kept.
  split; [exact H|]. now apply element_codes_range in H.
Qed.

Lemma decoded_atom_codes_witness :
  exists st,
    decode "ClC(Br)c1ccncc1" = Some st
    /\ atoms st = [6; 0; 7; 0; 0; 0; 1; 0; 0].
Proof.
  assert (E : exists st, decode "ClC(Br)c1ccncc1" = Some st)
    by (eexists; vm_compute; reflexivity).
  destruct E as [st E]. exists st. split; [exact E|].
  destruct (decoded_atom_codes _ st E) as [H _].
  assert (Hc : element_codes (atoms_only (prepared "ClC(Br)c1ccncc1"))
               = Some [6; 0; 7; 0; 0; 0; 1; 0; 0])
    by (vm_compute; reflexivity).
  rewrite Hc in H. now injection H.
Defined.

Lemma element_codes_none (s : list ascii) (c : ascii) :
  In c s -> element_code c = None -> element_codes s = None.
Proof.
  induction s as [|d s IH]; simpl; [tauto|].
  intros [->|H] Hc; [now rewrite Hc|].
  destruct (element_code d); [|reflexivity]. now rewrite IH.
Qed.

Lemma in_atoms_only (s : list ascii) (c : ascii) :
  In c s -> in_chars c TOPOLOGY_MARKS = false -> In c (atoms_only s).
Proof.
  intros Hin Hc. unfold atoms_only, regex_replace_chars.
  apply in_flat_map. exists c. split; [exact Hin|]. rewrite Hc. now left.
Qed.

Lemma unsupported_character_aux (smiles : string) (c : ascii) :
  In c (prepared smiles) -> supported c = false -> decode smiles = None.
Proof.
  intros Hin Hc.
  assert (Ht : in_chars c TOPOLOGY_MARKS = false /\ element_code c = None)
    by (clear Hin; each_char c; try discriminate Hc; split; reflexivity).
  destruct Ht as [Ht Hn].
  unfold decode. fold (prepared smiles).
  rewrite to_numbers_translate by apply atoms_only_kept.
  rewrite (element_codes_none _ c (in_atoms_only _ c Hin Ht) Hn).
  reflexivity.
Qed.

(** X2.  A character of the prepared string that is neither an organic
    atom letter, nor a topology mark, nor the filler makes the decoder
    fail: boron, a lone [l], [r] or [H], a bracket or a charge sign that
    the normalizer did not rewrite, a blank inside the string. *)
Theorem unsupported_character (smiles : string) (c : ascii) :
  In c (prepared smiles) -> supported c = false -> decode smiles = None.
Proof. exact (unsupported_character_aux smiles c). Qed.

Lemma unsupported_character_witness : decode "C[Na+]" = None.
Proof.
  apply (unsupported_character "C[Na+]" "[").
  - vm_compute. tauto.
  - reflexivity.
Defined.

(** *** The atom count *)

(** The number of characters that [N_ATOM_COUNTER_STR] leaves. *)
Lemma count_atoms_app (a b : list ascii) :
  count_atoms (a ++ b) = count_atoms a + count_atoms b.
Proof.
  unfold count_atoms. rewrite regex_replace_chars_app, length_app. lia.
Qed.

Lemma is_prefix_split (p : list ascii) : forall s,
  is_prefix p s = true -> s = p ++ skipn (List.length p) s.
Proof.
  induction p as [|a p IH]; intros [|b s]; simpl; try discriminate; auto.
  intros H. apply andb_true_iff in H as [Hab Hp].
  apply Ascii.eqb_eq in Hab. subst. f_equal. now apply IH.
Qed.

(** A replacement whose patterns count as many atoms as what they are
    replaced with keeps the count. *)
Lemma replace_keeps_count (pats : list (list ascii)) (rep : list ascii) :
  (forall p, In p pats -> p <> [] /\ count_atoms p = count_atoms rep) ->
  forall s skip,
    (skip <= List.length s)%nat ->
    count_atoms (regex_replace_from pats rep s skip)
    = count_atoms (skipn skip s).
Proof.
  intros Hp. induction s as [|c s IH]; intros skip Hs.
  - simpl in Hs. assert (skip = 0)%nat as -> by lia. reflexivity.
  - cbn [regex_replace_from]. destruct skip as [|k].
    + destruct (find (fun p => is_prefix p (c :: s)) pats) as [p|] eqn:Ef.
      * apply find_some in Ef as [Hin Hpre].
        destruct (Hp p Hin) as [Hne Hc].
        pose proof (is_prefix_split p (c :: s) Hpre) as Hsplit.
        destruct p as [|a p]; [contradiction|].
        cbn [List.length pred]. rewrite count_atoms_app, IH.
        -- cbn [skipn].
           transitivity (count_atoms
                           ((a :: p)
                            ++ skipn (List.length (a :: p)) (c :: s)));
             [|now rewrite <- Hsplit].
           rewrite count_atoms_app. cbn [List.length skipn]. lia.
        -- apply (f_equal (@List.length ascii)) in Hsplit.
           rewrite length_app in Hsplit. simpl in Hsplit. lia.
      * change (c :: regex_replace_from pats rep s 0)
          with ([c] ++ regex_replace_from pats rep s 0).
        rewrite count_atoms_app, IH by lia. cbn [skipn].
        change (c :: s) with ([c] ++ s). now rewrite count_atoms_app.
    + cbn [skipn]. apply IH. simpl in Hs. lia.
Qed.

Lemma regex_replace_keeps_count (s : list ascii) (pats : list string)
  (rep : string) :
  (forall p, In p (map chars pats) ->
             p <> [] /\ count_atoms p = count_atoms (chars rep)) ->
  count_atoms (regex_replace s pats rep) = count_atoms s.
Proof.
  intros H. unfold regex_replace.
  now rewrite (replace_keeps_count _ _ H s 0) by lia.
Qed.

Ltac patterns_count :=
  intros p Hin; simpl in Hin;
  repeat (destruct Hin as [<-|Hin]; [split; [discriminate|reflexivity]|]);
  destruct Hin.

(** The normalizer keeps the count that [n_atoms] takes on the raw
    string. *)
Lemma count_atoms_normalize (s : list ascii) :
  count_atoms (normalize s) = count_atoms s.
Proof.
  unfold normalize.
  rewrite !regex_replace_keeps_count; try reflexivity; patterns_count.
Qed.

Lemma count_supported (s : list ascii) :
  Forall (fun c => supported c = true) s ->
  count_atoms s = Z.of_nat (List.length (atoms_only s)).
Proof.
  unfold count_atoms, atoms_only, regex_replace_chars.
  induction 1 as [|c s Hc Hs IH]; [reflexivity|].
  cbn [flat_map]. rewrite !length_app.
  assert (Hsame : in_chars c N_ATOM_COUNTER = in_chars c TOPOLOGY_MARKS)
    by (clear - Hc; each_char c; try discriminate Hc; reflexivity).
  rewrite Hsame. lia.
Qed.

Lemma decoded_supported (smiles : string) (st : stages) :
  decode smiles = Some st ->
  Forall (fun c => supported c = true) (prepared smiles).
Proof.
  intros H. apply Forall_forall. intros c Hin.
  destruct (supported c) eqn:E; [reflexivity|].
  rewrite (unsupported_character_aux smiles c Hin E) in H. discriminate.
Qed.

(** *** The shape of the molecule *)

Ltac stage_square :=
  repeat match goal with
         | |- context [match ?e with Some _ => _ | None => _ end] =>
             destruct e eqn:?; try discriminate
         | |- context [let '(_, _) := ?e in _] => destruct e
         end;
  eauto using scatter_square.

Lemma bond_orders_square (n : nat) (m m' : matrix) chrs idxs :
  square n m -> bond_orders m chrs idxs = Some m' -> square n m'.
Proof. intros Hs. unfold bond_orders. stage_square. Qed.

Lemma branches_square (n : nat) (k : Z) (m m' : matrix) chrs idxs :
  square n m -> branches k m chrs idxs = Some m' -> square n m'.
Proof. intros Hs. unfold branches, rewire. stage_square. Qed.

Lemma rings_square (n : nat) (m m' : matrix) chrs idxs :
  square n m -> rings m chrs idxs = Some m' -> square n m'.
Proof. intros Hs. unfold rings. stage_square. Qed.

Lemma aromaticity_square (n : nat) (m m' : matrix) arom :
  square n m -> aromaticity m arom = Some m' -> square n m'.
Proof. intros Hs. unfold aromaticity. stage_square. Qed.

Lemma conjugation_square (n : nat) (k : Z) (m m' : matrix) ats arom :
  square n m -> conjugation k ats m arom = Some m' -> square n m'.
Proof. intros Hs. unfold conjugation. stage_square. Qed.

(** Every stage of a decoded molecule leaves an adjacency map of the
    size of the chain. *)
Lemma decoded_square (smiles : string) (st : stages) :
  decode smiles = Some st ->
  let n := Z.to_nat (n_atoms st) in
  square n (after_bond_orders st) /\ square n (after_branches st)
  /\ square n (after_rings st) /\ square n (after_aromaticity st)
  /\ square n (resolved st).
Proof.
  intros H n.
  destruct (Resolver.decode_shapes smiles st H) as [_ H0].
  destruct (Resolver.decode_stages smiles st H) as [H1 [H2 [H3 [H4 H5]]]].
  fold n in H0.
  pose proof (bond_orders_square _ _ _ _ _ H0 H1) as S1.
  pose proof (branches_square _ _ _ _ _ _ S1 H2) as S2.
  pose proof (rings_square _ _ _ _ _ S2 H3) as S3.
  pose proof (aromaticity_square _ _ _ _ S3 H4) as S4.
  pose proof (conjugation_square _ _ _ _ _ _ S4 H5) as S5.
  auto.
Qed.

(** X3.  Whenever the decoder returns a molecule, the atom tensor has
    [n_atoms] entries, the count taken on the raw string, and the
    adjacency map is square on that count after every stage. *)
Theorem decoded_shape (smiles : string) (st : stages) :
  decode smiles = Some st ->
  n_atoms st = Z.of_nat (List.length (atoms st))
  /\ Forall (square (List.length (atoms st)))
       [chain st; after_bond_orders st; after_branches st; after_rings st;
        after_aromaticity st; resolved st].
Proof.
  intros H.
  assert (Hn : n_atoms st = Z.of_nat (List.length (atoms st))).
  { pose proof (decode_inputs smiles st H) as [Ha [Hn _]].
    rewrite to_numbers_translate in Ha by apply atoms_only_kept.
    apply element_codes_range in Ha as [Hl _].
    rewrite Hn, Hl. unfold prepared in *.
    rewrite <- count_atoms_normalize.
    apply count_supported. exact (decoded_supported smiles st H). }
  split; [exact Hn|].
  destruct (decoded_square smiles st H) as [S1 [S2 [S3 [S4 S5]]]].
  destruct (Resolver.decode_shapes smiles st H) as [_ S0].
  rewrite Hn, Nat2Z.id in S0, S1, S2, S3, S4, S5.
  repeat (apply Forall_cons; [assumption|]). apply Forall_nil.
Qed.

Lemma decoded_shape_witness :
  exists st,
    decode "CC(=O)Oc1ccccc1Cl" = Some st
    /\ n_atoms st = 11 /\ List.length (resolved st) = 11%nat.
Proof.
  assert (E : exists st, decode "CC(=O)Oc1ccccc1Cl" = Some st)
    by (eexists; vm_compute; reflexivity).
  destruct E as [st E]. exists st. split; [exact E|].
  destruct (decoded_shape _ st E) as [Hn Hs].
  assert (Hl : List.length (atoms st) = 11%nat).
  { destruct (decode_inputs _ st E) as [Ha _].
    assert (Hc : to_numbers
                   (translate_atoms
                      (atoms_only (prepared "CC(=O)Oc1ccccc1Cl")))
                 = Some [0; 0; 2; 2; 0; 0; 0; 0; 0; 0; 6])
      by (vm_compute; reflexivity).
    rewrite Hc in Ha. injection Ha as <-. reflexivity. }
  rewrite Hl in Hn, Hs. split; [exact Hn|].
  repeat match goal with
         | H : Forall _ (_ :: _) |- _ => inversion H; clear H; subst
         end.
  match goal with H : square 11 (resolved st) |- _ => exact (proj1 H) end.
Defined.

End Atoms.

(** ** The topology index map and the bracket scan *)
Module Scan.
Import Tensor TensorFacts FromSmiles Vocabulary.

Local Open Scope char_scope.
Local Open Scope Z_scope.

Lemma topology_mask (s : list ascii) :
  map is_topology (topology_only s) = map (fun c => negb (is_atom c)) s.
Proof.
  unfold topology_only, regex_replace_chars.
  induction s as [|c s IH]; [reflexivity|].
  cbn [flat_map map]. rewrite map_app, IH. unfold is_atom, is_topology.
  destruct (in_chars c ORGANIC_ATOMS); reflexivity.
Qed.

Lemma length_topology_only (s : list ascii) :
  List.length (topology_only s) = List.length s.
Proof.
  rewrite <- (length_map is_topology), topology_mask. apply length_map.
Qed.

Lemma nth_topology_only (s : list ascii) (q : nat) (c : ascii) :
  nth_error s q = Some c -> is_atom c = false ->
  nth_error (topology_only s) q = Some c.
Proof.
  unfold topology_only, regex_replace_chars. revert q.
  induction s as [|d s IH]; intros [|q]; cbn [flat_map nth_error];
    try discriminate.
  - intros [= ->] H. unfold is_atom in H. apply orb_false_iff in H as [-> _].
    reflexivity.
  - intros Hq H. destruct (in_chars d ORGANIC_ATOMS); simpl; auto.
Qed.

(** The [k]-th place a mask keeps has [k] flagged places before it. *)
Lemma where_from_nth (mask : list bool) : forall start k p,
  nth_error (where_from start mask) k = Some p ->
  exists q, p = start + Z.of_nat q
            /\ nth_error mask q = Some true
            /\ List.length (filter (fun b : bool => b) (firstn q mask)) = k.
Proof.
  induction mask as [|b mask IH]; intros start k p; simpl.
  - destruct k; discriminate.
  - destruct b.
    + destruct k as [|k]; simpl.
      * intros [= <-]. exists 0%nat. repeat split. lia.
      * intros H. destruct (IH _ _ _ H) as [q [-> [Hq Hc]]].
        exists (S q). simpl. repeat split; auto; lia.
    + intros H. destruct (IH _ _ _ H) as [q [-> [Hq Hc]]].
      exists (S q). simpl. repeat split; auto; lia.
Qed.

Lemma nth_shift_indices (pos : list Z) (k : nat) (p : Z) :
  nth_error pos k = Some p ->
  nth_error (shift_indices pos) k = Some (p - Z.of_nat k - 1).
Proof.
  intros H. unfold shift_indices. rewrite nth_error_zip_with, H.
  assert (Hk : (k < List.length pos)%nat)
    by (apply nth_error_Some; congruence).
  pose proof (index_range (Z.of_nat (List.length pos)) (Z.of_nat k)) as Hr.
  rewrite index_of_nat in Hr. rewrite Hr by lia. reflexivity.
Qed.

Lemma split_count {A : Type} (f : A -> bool) (l : list A) :
  (List.length (filter (fun b : bool => b) (map (fun x => negb (f x)) l))
   + List.length (filter f l) = List.length l)%nat.
Proof.
  induction l as [|x l IH]; simpl; [reflexivity|].
  destruct (f x); simpl; lia.
Qed.

Lemma nth_gather {A : Type} (l : list A) (idxs : list Z) : forall xs k i,
  gather l idxs = Some xs -> nth_error idxs k = Some i ->
  nth_error xs k = index l i.
Proof.
  induction idxs as [|j idxs IH]; intros xs k i; simpl.
  - destruct k; discriminate.
  - destruct (index l j) as [x|] eqn:Ej; [|discriminate].
    destruct (gather l idxs) as [ys|]; [|discriminate].
    intros [= <-]. destruct k as [|k]; simpl.
    + intros [= <-]. now rewrite Ej.
    + now apply IH.
Qed.

(** X4.  The topology index map: the [k]-th topology character of the
    prepared string stands at a place that holds no atom, it is the
    character the stream of topology characters shows at [k], and its
    anchor is the number of atom characters written before it, less
    one: the index of the atom that precedes it, -1 when none does. *)
Theorem anchor_is_preceding_atom (s : list ascii) (k : nat) (p : Z) :
  nth_error (topology_positions (topology_only s)) k = Some p ->
  0 <= p
  /\ (exists c,
         nth_error s (Z.to_nat p) = Some c /\ is_atom c = false
         /\ forall chrs,
             topology_characters (topology_only s) = Some chrs ->
             nth_error chrs k = Some c)
  /\ nth_error (shift_indices (topology_positions (topology_only s))) k
     = Some (Z.of_nat
               (List.length (filter is_atom (firstn (Z.to_nat p) s))) - 1).
Proof.
  intros H. pose proof H as Hp.
  unfold topology_positions, tf_where in Hp. rewrite topology_mask in Hp.
  apply where_from_nth in Hp as [q [-> [Hq Hc]]].
  rewrite Z.add_0_l in *. rewrite Nat2Z.id. split; [lia|].
  rewrite nth_error_map in Hq.
  destruct (nth_error s q) as [c|] eqn:Ec; [|discriminate].
  injection Hq as Hq. apply negb_true_iff in Hq. split.
  - exists c. repeat split; auto. intros chrs Hg.
    unfold topology_characters in Hg.
    rewrite (nth_gather _ _ _ _ _ Hg H), index_of_nat.
    now apply nth_topology_only.
  - rewrite (nth_shift_indices _ _ _ H). f_equal.
    rewrite firstn_map in Hc.
    pose proof (split_count is_atom (firstn q s)) as Hsum.
    rewrite Hc in Hsum.
    assert (Hl : List.length (firstn q s) = q).
    { apply firstn_length_le.
      assert (q < List.length s)%nat by (apply nth_error_Some; congruence).
      lia. }
    lia.
Qed.

(** In "CC(=O)C" the double-bond mark is the second topology
    character, at place 3, after two atoms. *)
Lemma anchor_is_preceding_atom_witness :
  nth_error
    (shift_indices
       (topology_positions (topology_only ["C"; "C"; "("; "="; "O"; ")"; "C"])))
    1 = Some 1.
Proof.
  exact (proj2 (proj2 (anchor_is_preceding_atom
                         ["C"; "C"; "("; "="; "O"; ")"; "C"] 1 3 eq_refl))).
Defined.

(** *** The bracket scan *)

Lemma unmatched_open (d : nat) (rest : list ascii) :
  unmatched_close d ("(" :: rest) <-> unmatched_close (S d) rest.
Proof.
  unfold unmatched_close. split.
  - intros [[|c pre] [post [E H]]]; [discriminate|].
    injection E as <- ->. exists pre, post. split; [reflexivity|].
    simpl in H. lia.
  - intros [pre [post [-> H]]]. exists ("(" :: pre), post.
    split; [reflexivity|]. simpl. lia.
Qed.

Lemma unmatched_at_once (rest : list ascii) :
  unmatched_close 0 (")" :: rest).
Proof. exists [], rest. split; [reflexivity|]. simpl. lia. Qed.

Lemma unmatched_closed (d : nat) (rest : list ascii) :
  unmatched_close (S d) (")" :: rest) <-> unmatched_close d rest.
Proof.
  unfold unmatched_close. split.
  - intros [[|c pre] [post [E H]]]; [simpl in H; lia|].
    injection E as <- ->. exists pre, post. split; [reflexivity|].
    simpl in H. lia.
  - intros [pre [post [-> H]]]. exists (")" :: pre), post.
    split; [reflexivity|]. simpl. lia.
Qed.

Lemma unmatched_other (d : nat) (c : ascii) (rest : list ascii) :
  c <> "(" -> c <> ")" ->
  unmatched_close d (c :: rest) <-> unmatched_close d rest.
Proof.
  intros H1 H2. unfold unmatched_close. split.
  - intros [[|c' pre] [post [E H]]]; [simpl in E; congruence|].
    injection E as <- ->. exists pre, post. split; [reflexivity|].
    simpl in H.
    destruct (Ascii.ascii_dec c "("); [congruence|].
    destruct (Ascii.ascii_dec c ")"); [congruence|]. exact H.
  - intros [pre [post [-> H]]]. exists (c :: pre), post.
    split; [reflexivity|]. simpl.
    destruct (Ascii.ascii_dec c "("); [congruence|].
    destruct (Ascii.ascii_dec c ")"); [congruence|]. exact H.
Qed.

(** The scan from any state: it fails exactly at a closing bracket
    that finds the queue empty, and records one pair for each closing
    bracket otherwise. *)
Lemma bracket_loop_spec (idxs : list Z) : forall chrs idx queue acc,
  0 <= idx ->
  idx + Z.of_nat (List.length chrs) = Z.of_nat (List.length idxs) ->
  (forall q, In q queue -> 0 <= q < idx) ->
  (bracket_loop idxs chrs idx queue acc = None
   <-> unmatched_close (List.length queue) chrs)
  /\ forall pairs,
      bracket_loop idxs chrs idx queue acc = Some pairs ->
      List.length pairs
      = (List.length acc + count_occ Ascii.ascii_dec chrs ")")%nat.
Proof.
  induction chrs as [|c chrs IH]; intros idx queue acc Hidx Hlen Hq.
  - simpl. split.
    + split; [discriminate|]. intros [[|? ?] [post [E _]]]; discriminate.
    + intros pairs [= <-]. lia.
  - cbn [List.length] in Hlen. cbn [bracket_loop].
    destruct (Ascii.eqb_spec c "(") as [->|Hno].
    + change (Ascii.eqb "(" ")") with false. cbn [fst snd if_left].
      destruct (IH (idx + 1) (queue ++ [idx]) acc) as [Hnone Hsome];
        try lia.
      { intros q Hin. apply in_app_or in Hin as [Hin|[<-|[]]];
          [apply Hq in Hin|]; lia. }
      rewrite length_app, Nat.add_1_r in Hnone. split.
      * rewrite unmatched_open. exact Hnone.
      * intros pairs Hp. rewrite (Hsome pairs Hp). simpl. lia.
    + destruct (Ascii.eqb_spec c ")") as [->|Hnc].
      * cbn [fst snd]. unfold if_right.
        destruct (index_some idxs idx) as [right_idx ->]; [lia|].
        destruct queue as [|q0 queue].
        -- simpl. split; [|discriminate].
           split; [intros _; apply unmatched_at_once|reflexivity].
        -- destruct (exists_last (l := q0 :: queue)) as [qs [top Eq]];
             [discriminate|].
           rewrite Eq in *. rewrite rev_unit. cbn [nth_error].
           destruct (index_some idxs top) as [left_idx ->].
           { assert (0 <= top < idx)
               by (apply Hq, in_or_app; right; now left). lia. }
           rewrite removelast_last. cbn [fst snd].
           destruct (IH (idx + 1) qs (acc ++ [(left_idx, right_idx)]))
             as [Hnone Hsome]; try lia.
           { intros q Hin.
             assert (0 <= q < idx) by (apply Hq, in_or_app; now left). lia. }
           rewrite length_app, Nat.add_1_r. split.
           ++ rewrite unmatched_closed. exact Hnone.
           ++ intros pairs Hp. rewrite (Hsome pairs Hp), length_app.
              simpl. lia.
      * cbn [fst snd].
        destruct (IH (idx + 1) queue acc) as [Hnone Hsome]; try lia.
        { intros q Hin. apply Hq in Hin. lia. }
        split.
        -- rewrite unmatched_other by assumption. exact Hnone.
        -- intros pairs Hp. rewrite (Hsome pairs Hp). simpl.
           destruct (Ascii.ascii_dec c ")"); [congruence|]. lia.
Qed.

(** X5.  The bracket scan over aligned topology tensors fails exactly
    when a closing bracket arrives with no opening bracket pending
    (some prefix of the stream ends before a [)] and has at least as
    many [)] as [(]); otherwise it records one pair for each closing
    bracket, and opening brackets that are never closed are dropped
    without an error. *)
Theorem bracket_scan_unmatched (chrs : list ascii) (idxs : list Z) :
  List.length chrs = List.length idxs ->
  (bracket_pairs chrs idxs = None <-> unmatched_close 0 chrs)
  /\ forall pairs,
      bracket_pairs chrs idxs = Some pairs ->
      List.length pairs = count_occ Ascii.ascii_dec chrs ")".
Proof.
  intros Hl. unfold bracket_pairs.
  destruct (bracket_loop_spec idxs chrs 0 [] [(-1, -1)]) as [Hnone Hsome];
    try lia.
  { intros q []. }
  split.
  - rewrite <- Hnone.
    destruct (bracket_loop idxs chrs 0 [] [(-1, -1)]); split;
      congruence.
  - intros pairs.
    destruct (bracket_loop idxs chrs 0 [] [(-1, -1)]) as [ps|];
      [|discriminate].
    intros [= <-]. specialize (Hsome ps eq_refl).
    destruct ps; simpl in *; lia.
Qed.

(** "C)C(": the closing bracket comes first; "C(C": the opening one is
    never closed. *)
Lemma bracket_scan_unmatched_witness :
  bracket_pairs [")"; "("] [0; 1] = None
  /\ bracket_pairs ["("] [0] = Some [].
Proof.
  split.
  - apply (proj1 (bracket_scan_unmatched [")"; "("] [0; 1] eq_refl)).
    apply unmatched_at_once.
  - destruct (bracket_pairs ["("] [0]) as [pairs|] eqn:E.
    + pose proof (proj2 (bracket_scan_unmatched ["("] [0] eq_refl) pairs E)
        as H.
      destruct pairs; [reflexivity|discriminate H].
    + discriminate E.
Defined.

End Scan.

(** ** What the stages leave alone *)
Module Stages.
Import Tensor TensorFacts FromSmiles Vocabulary Resolver Atoms.

Local Open Scope char_scope.
Local Open Scope Z_scope.

Lemma where_from_none (mask : list bool) : forall k,
  Forall (fun b => b = false) mask -> where_from k mask = [].
Proof.
  induction mask as [|b mask IH]; intros k H; [reflexivity|].
  inversion H; subst. simpl. auto.
Qed.

Lemma boolean_mask_none {A : Type} (l : list A) : forall mask,
  Forall (fun b => b = false) mask -> boolean_mask l mask = [].
Proof.
  induction l as [|x l IH]; intros [|b mask] H; try reflexivity.
  inversion H; subst. simpl. auto.
Qed.

(** [entry] of the symmetrized map. *)
Lemma entry_full (n : nat) (m : matrix) (i j : Z) :
  square n m -> inside n (i, j) ->
  exists a b, entry m i j = Some a /\ entry m j i = Some b
              /\ entry (full m) i j = Some (a + b)%Q.
Proof.
  intros Hs [Hi Hj]. simpl in Hi, Hj.
  destruct (entry_inside n m i j Hs) as [a Ea]; [split; simpl; lia|].
  destruct (entry_inside n m j i Hs) as [b Eb]; [split; simpl; lia|].
  exists a, b. split; [exact Ea|]. split; [exact Eb|].
  destruct Hs as [Hl Hr]. unfold entry in *.
  destruct (index m i) as [ri|] eqn:Ei; [|discriminate].
  destruct (index m j) as [rj|] eqn:Ej; [|discriminate].
  unfold full, add. rewrite index_zip_with, Ei.
  assert (Et : index (transpose m) i = Some (column m (Z.to_nat i))).
  { unfold transpose, index. destruct (Z.ltb_spec i 0); [lia|].
    rewrite nth_error_map, nth_error_seq.
    destruct (Nat.ltb_spec (Z.to_nat i) (List.length m)); [|lia].
    reflexivity. }
  rewrite Et, index_zip_with, Ea. unfold column. rewrite index_map, Ej.
  simpl. apply index_inv in Eb as [_ Eb].
  now rewrite (nth_error_nth _ _ 0%Q Eb).
Qed.

Lemma full_square (n : nat) (m : matrix) :
  square n m -> square n (full m).
Proof.
  intros [Hl Hr]. unfold full, add, transpose, column. split.
  - rewrite length_zip_with, length_map, length_seq. lia.
  - apply Forall_forall. intros row H.
    apply in_zip_with_rows in H as [a [b [Ha [Hb ->]]]].
    rewrite length_zip_with. rewrite Forall_forall in Hr. rewrite (Hr a Ha).
    apply in_map_iff in Hb as [k [<- _]]. rewrite length_map. lia.
Qed.

Lemma conjugation_nothing_to_do (n_atoms : Z) (atoms : list Z) (m : matrix) :
  (forall row x, In row (full m) -> In x row -> Qeq_bool x 2 = false) ->
  conjugation n_atoms atoms m [] = Some m.
Proof.
  intros H. unfold conjugation, sp2_candidates.
  rewrite boolean_mask_none.
  - reflexivity.
  - apply Forall_forall. intros b Hb. apply in_map_iff in Hb as [row [<- Hr]].
    destruct (existsb (fun x => Qeq_bool x 2) row) eqn:E; [|reflexivity].
    apply existsb_exists in E as [x [Hx Hq]]. rewrite (H row x Hr Hx) in Hq.
    discriminate.
Qed.

(** X6.  A molecule that holds no bond of order two (no entry of the
    symmetrized map equals 2) and no aromatic atom has no candidate
    for a conjugated system: the conjugation pass returns the
    adjacency map as it is. *)
Theorem conjugation_without_candidates
  (n_atoms : Z) (atoms : list Z) (m : matrix) :
  (forall row x, In row (full m) -> In x row -> Qeq_bool x 2 = false) ->
  conjugation n_atoms atoms m [] = Some m.
Proof. exact (conjugation_nothing_to_do n_atoms atoms m). Qed.

(** Propane, "CCC": single bonds only. *)
Lemma conjugation_without_candidates_witness :
  conjugation 3 [0; 0; 0] (chain_matrix 3) [] = Some (chain_matrix 3).
Proof.
  apply conjugation_without_candidates.
  intros row x Hr Hx. vm_compute in Hr.
  repeat (destruct Hr as [<-|Hr];
          [repeat (destruct Hx as [<-|Hx]; [reflexivity|]); destruct Hx|]).
  destruct Hr.
Defined.

(** *** Unbranched chains of single bonds *)

Lemma chain_entry (n i j : Z) :
  0 <= i < n -> 0 <= j < n ->
  entry (chain_matrix n) i j = Some (if j =? i + 1 then 1 else 0)%Q.
Proof.
  intros Hi Hj. unfold entry, chain_matrix.
  rewrite index_map, index_range by lia. simpl.
  rewrite index_map, index_range by lia. reflexivity.
Qed.

Lemma in_entry (m : matrix) (row : list Q) (x : Q) :
  In row m -> In x row -> exists i j, entry m i j = Some x.
Proof.
  intros Hr Hx. apply In_nth_error in Hr as [i Hi].
  apply In_nth_error in Hx as [j Hj].
  exists (Z.of_nat i), (Z.of_nat j). unfold entry.
  rewrite index_of_nat, Hi. simpl. now rewrite index_of_nat.
Qed.

Lemma chain_has_no_double_bond (n : Z) (row : list Q) (x : Q) :
  In row (full (chain_matrix n)) -> In x row -> Qeq_bool x 2 = false.
Proof.
  intros Hr Hx. destruct (in_entry _ _ _ Hr Hx) as [i [j E]].
  pose proof (square_chain_matrix n) as Hs.
  pose proof (entry_inv _ _ _ _ _ (full_square _ _ Hs) E) as Hin.
  destruct (entry_full _ _ _ _ Hs Hin) as [a [b [Ea [Eb Ef]]]].
  destruct Hin as [Hi Hj]. simpl in Hi, Hj.
  rewrite chain_entry in Ea, Eb by lia.
  assert (x = (a + b)%Q) by congruence. subst x.
  injection Ea as <-. injection Eb as <-.
  destruct (Z.eqb_spec j (i + 1)), (Z.eqb_spec i (j + 1));
    try reflexivity; lia.
Qed.

Lemma strip_left_id (s : list ascii) :
  Forall (fun c => is_space c = false) s -> strip_left s = s.
Proof. intros H. destruct H as [|c s Hc _]; simpl; [|rewrite Hc]; reflexivity. Qed.

Lemma strip_id (s : list ascii) :
  Forall (fun c => is_space c = false) s -> strip s = s.
Proof.
  intros H. unfold strip. rewrite (strip_left_id s H).
  rewrite strip_left_id by now apply Forall_rev. apply rev_involutive.
Qed.

(** No alternative matches in a string that lacks one of its
    characters. *)
Lemma regex_replace_none (ok : ascii -> bool) (pats : list string)
  (rep : string) (s : list ascii) :
  forallb (fun p => existsb (fun c => negb (ok c)) (chars p)) pats = true ->
  Forall (fun c => ok c = true) s ->
  regex_replace s pats rep = s.
Proof.
  intros Hp. unfold regex_replace.
  induction s as [|c s IH]; intros Hs; [reflexivity|].
  cbn [regex_replace_from].
  destruct (find (fun p => is_prefix p (c :: s)) (map chars pats)) as [p|] eqn:E.
  - exfalso. apply find_some in E as [Hin Hpre].
    apply in_map_iff in Hin as [q [<- Hq]].
    rewrite forallb_forall in Hp. specialize (Hp q Hq).
    apply existsb_exists in Hp as [d [Hd Hok]].
    apply is_prefix_split in Hpre.
    assert (In d (c :: s)) by (rewrite Hpre; apply in_or_app; now left).
    rewrite Forall_forall in Hs. rewrite (Hs d) in Hok by assumption.
    discriminate.
  - f_equal. apply IH. now inversion Hs.
Qed.

Lemma replace_chars_none (cs rep s : list ascii) :
  Forall (fun c => in_chars c cs = false) s -> regex_replace_chars s cs rep = s.
Proof.
  unfold regex_replace_chars. induction 1 as [|c s Hc _ IH]; [reflexivity|].
  simpl. rewrite Hc, IH. reflexivity.
Qed.

Lemma replace_chars_all (cs rep s : list ascii) :
  Forall (fun c => in_chars c cs = true) s ->
  regex_replace_chars s cs rep = flat_map (fun _ => rep) s.
Proof.
  unfold regex_replace_chars. induction 1 as [|c s Hc _ IH]; [reflexivity|].
  simpl. rewrite Hc, IH. reflexivity.
Qed.

Lemma plain_atom (c : ascii) :
  In c plain_atoms ->
  in_chars c plain_atoms = true
  /\ is_space c = false
  /\ in_chars c N_ATOM_COUNTER = false
  /\ in_chars c TOPOLOGY_MARKS = false
  /\ in_chars c ["c"; "n"; "o"; "p"] = false
  /\ in_chars c ORGANIC_ATOMS = true
  /\ Ascii.eqb "A" c = false
  /\ element_code c <> None.
Proof.
  intros H. simpl in H.
  repeat (destruct H as [<-|H]; [repeat split; discriminate|]). destruct H.
Qed.

Lemma plain_atoms_all (P : ascii -> Prop) (s : list ascii) :
  (forall c, In c plain_atoms -> P c) ->
  Forall (fun c => In c plain_atoms) s -> Forall P s.
Proof. intros HP H. eapply Forall_impl; [|exact H]. exact HP. Qed.

Lemma element_codes_some (s : list ascii) :
  Forall (fun c => element_code c <> None) s ->
  exists codes, element_codes s = Some codes.
Proof.
  induction 1 as [|c s Hc _ [codes IH]]; [now exists []|].
  simpl. destruct (element_code c) as [z|]; [|congruence].
  rewrite IH. eauto.
Qed.

(** X7.  A string of plain one-letter atoms only (C, N, O, S, P, F, I:
    no bond, branch or ring marker, no aromatic atom) decodes to its
    element codes and to the bare chain: order 1 between each atom and
    the next one, and nothing else. *)
Theorem plain_chain (s : list ascii) :
  Forall (fun c => In c plain_atoms) s ->
  exists st,
    decode (string_of_list_ascii s) = Some st
    /\ element_codes s = Some (atoms st)
    /\ topology_chrs st = []
    /\ resolved st = chain_matrix (Z.of_nat (List.length s))
    /\ forall i j,
         0 <= i < Z.of_nat (List.length s) ->
         0 <= j < Z.of_nat (List.length s) ->
         entry (resolved st) i j = Some (if j =? i + 1 then 1 else 0)%Q.
Proof.
  intros H.
  pose proof (fun P HP => plain_atoms_all P s HP H) as Hall.
  assert (Hstrip : strip s = s).
  { apply strip_id, Hall. intros c Hc. apply (plain_atom c Hc). }
  assert (Hok : Forall (fun c => in_chars c plain_atoms = true) s).
  { apply Hall. intros c Hc. apply (plain_atom c Hc). }
  assert (Hnorm : normalize s = s).
  { unfold normalize. cbv zeta.
    repeat rewrite (regex_replace_none (fun c => in_chars c plain_atoms)
                      _ _ s) by (reflexivity || assumption).
    reflexivity. }
  assert (Hcount : count_atoms s = Z.of_nat (List.length s)).
  { unfold count_atoms. rewrite replace_chars_none; [reflexivity|].
    apply Hall. intros c Hc. apply (plain_atom c Hc). }
  assert (Hmarks : Forall (fun c => in_chars c TOPOLOGY_MARKS = false) s).
  { apply Hall. intros c Hc. apply (plain_atom c Hc). }
  assert (Hatoms : atoms_only s = s).
  { unfold atoms_only. now apply replace_chars_none. }
  assert (Harom : aromatic_idxs (aromatic_marks s) = []).
  { unfold aromatic_marks, aromatic_idxs, tf_where.
    rewrite replace_chars_none.
    - apply where_from_none, Forall_map. apply Hall. intros c Hc.
      apply (plain_atom c Hc).
    - apply Hall. intros c Hc. apply (plain_atom c Hc). }
  destruct (element_codes_some s) as [codes Hcodes].
  { apply Hall. intros c Hc. apply (plain_atom c Hc). }
  assert (Htop : topology_positions (topology_only s) = []).
  { unfold topology_positions, topology_only, tf_where.
    rewrite replace_chars_all.
    - apply where_from_none, Forall_forall. intros b Hb.
      apply in_map_iff in Hb as [c [<- Hc]].
      apply in_flat_map in Hc as [d [_ [<-|[]]]]. reflexivity.
    - apply Hall. intros c Hc. apply (plain_atom c Hc). }
  assert (Hconj : conjugation (Z.of_nat (List.length s)) codes
                    (chain_matrix (Z.of_nat (List.length s))) []
                  = Some (chain_matrix (Z.of_nat (List.length s)))).
  { apply conjugation_nothing_to_do. apply chain_has_no_double_bond. }
  eexists. split; [|split; [|split; [|split]]].
  - unfold decode, chars. cbv zeta.
    rewrite list_ascii_of_string_of_list_ascii, Hstrip, Hnorm, Hcount, Hatoms.
    rewrite (to_numbers_translate s Hmarks), Hcodes.
    unfold topology_characters. rewrite Htop, Harom.
    cbn [gather shift_indices zip_with List.length].
    change (bond_orders ?m [] []) with (Some m).
    change (branches ?k ?m [] []) with (Some m).
    change (rings ?m [] []) with (Some m).
    change (aromaticity ?m []) with (Some m).
    cbv beta iota. rewrite Hconj. reflexivity.
  - exact Hcodes.
  - reflexivity.
  - reflexivity.
  - intros i j Hi Hj. cbn [resolved]. now apply chain_entry.
Qed.

(** Dimethyl sulfide, ethanol's skeleton and fluoromethane in one
    string: "CSCCOCF". *)
Lemma plain_chain_witness :
  exists st,
    decode "CSCCOCF" = Some st
    /\ atoms st = [0; 3; 0; 0; 2; 0; 5]
    /\ entry (resolved st) 1 2 = Some 1%Q
    /\ entry (resolved st) 1 3 = Some 0%Q.
Proof.
  destruct (plain_chain ["C"; "S"; "C"; "C"; "O"; "C"; "F"])
    as [st [Hd [Hc [_ [_ He]]]]].
  - repeat (apply Forall_cons; [simpl; tauto|]). apply Forall_nil.
  - exists st. split; [exact Hd|]. split.
    + simpl in Hc. now injection Hc.
    + split; [apply (He 1 2)|apply (He 1 3)]; simpl; lia.
Defined.

End Stages.

(** ** The adjacency map stays upper triangular *)
Module Triangle.
Import Tensor TensorFacts FromSmiles Vocabulary Resolver Atoms Stages.

Local Open Scope char_scope.
Local Open Scope Z_scope.

(** Updates on or above the diagonal leave the part below it alone. *)
Lemma scatter_upper idxs (m : matrix) vals m' :
  upper_triangular m -> Forall (fun p => fst p <= snd p) idxs ->
  scatter_nd_update m idxs vals = Some m' -> upper_triangular m'.
Proof.
  intros Hm Hall E i j x Hlt Hx.
  rewrite (scatter_other _ _ _ _ _ _ E) in Hx; [eauto|].
  intros Hin. rewrite Forall_forall in Hall. specialize (Hall _ Hin).
  simpl in Hall. lia.
Qed.

Lemma nonzero_above (m : matrix) (a b : Z) (v : Q) :
  upper_triangular m -> entry m a b = Some v -> Qeq_bool v 0 = false ->
  a <= b.
Proof.
  intros Hm E Hv. destruct (Z.le_gt_cases a b) as [|Hlt]; [assumption|].
  rewrite (Hm a b v) in Hv by (auto; lia). discriminate.
Qed.

Lemma positive_above (m : matrix) (a b : Z) (v : Q) :
  upper_triangular m -> entry m a b = Some v -> positive v = true -> a <= b.
Proof.
  intros Hm E Hv. destruct (Z.le_gt_cases a b) as [|Hlt]; [assumption|].
  rewrite (Hm a b v) in Hv by (auto; lia). discriminate.
Qed.

Lemma chain_upper (n : Z) : upper_triangular (chain_matrix n).
Proof.
  intros i j x Hlt E.
  destruct (entry_inv _ _ _ _ _ (square_chain_matrix n) E) as [Hi Hj].
  simpl in Hi, Hj. rewrite chain_entry in E by lia.
  destruct (Z.eqb_spec j (i + 1)); [lia|congruence].
Qed.

Lemma bond_orders_upper (m m' : matrix) chrs idxs :
  upper_triangular m -> bond_orders m chrs idxs = Some m' ->
  upper_triangular m'.
Proof.
  intros Hm. unfold bond_orders.
  destruct (marked idxs chrs "=") as [ds|]; [|discriminate].
  destruct (marked idxs chrs "#") as [ts|]; [|discriminate].
  destruct (scatter_nd_update m _ _) as [m1|] eqn:E1; [|discriminate].
  intros E2. eapply scatter_upper; [| |exact E2].
  - eapply scatter_upper; [exact Hm| |exact E1].
    apply Forall_forall. intros p Hp. apply in_map_iff in Hp as [a [<- _]].
    simpl. lia.
  - apply Forall_forall. intros p Hp. apply in_map_iff in Hp as [a [<- _]].
    simpl. lia.
Qed.

(** *** Branches: a left anchor never exceeds its right marker *)

Lemma in_removelast {A : Type} (l : list A) (x : A) :
  In x (removelast l) -> In x l.
Proof.
  induction l as [|a l IH]; [tauto|].
  destruct l as [|b l]; [simpl; tauto|].
  change (removelast (a :: b :: l)) with (a :: removelast (b :: l)).
  intros [->|H]; [now left|right; auto].
Qed.

Lemma bracket_loop_ordered (idxs : list Z) :
  StronglySorted Z.le idxs ->
  forall chrs idx queue acc pairs,
    Forall (fun q => q < idx) queue ->
    Forall (fun p : Z * Z => fst p <= snd p) acc ->
    bracket_loop idxs chrs idx queue acc = Some pairs ->
    Forall (fun p : Z * Z => fst p <= snd p) pairs.
Proof.
  intros Hs. induction chrs as [|c chrs IH];
    intros idx queue acc pairs Hq Hacc; cbn [bracket_loop].
  - now intros [= <-].
  - cbv zeta.
    set (st := if Ascii.eqb c "(" then if_left idx queue acc
               else (queue, acc)).
    assert (Hst1 : Forall (fun q => q <= idx) (fst st)).
    { unfold st. destruct (Ascii.eqb c "("); cbn [if_left fst].
      - apply Forall_app. split.
        + eapply Forall_impl; [|exact Hq]. simpl. intros; lia.
        + repeat constructor. lia.
      - eapply Forall_impl; [|exact Hq]. simpl. intros; lia. }
    assert (Hst2 : snd st = acc)
      by (unfold st; destruct (Ascii.eqb c "("); reflexivity).
    destruct (Ascii.eqb c ")").
    + unfold if_right.
      destruct (index idxs idx) as [r|] eqn:Er; [|discriminate].
      destruct (nth_error (rev (fst st)) 0) as [top|] eqn:Et; [|discriminate].
      destruct (index idxs top) as [l|] eqn:El; [|discriminate].
      cbn [fst snd]. apply IH.
      * apply Forall_forall. intros q Hin. apply in_removelast in Hin.
        rewrite Forall_forall in Hst1. specialize (Hst1 _ Hin).
        simpl in Hst1. lia.
      * rewrite Hst2. apply Forall_app. split; [exact Hacc|].
        repeat constructor. simpl.
        apply (sorted_index idxs Hs top idx); auto.
        apply nth_error_In in Et. apply in_rev in Et.
        rewrite Forall_forall in Hst1. apply (Hst1 _ Et).
    + apply IH.
      * eapply Forall_impl; [|exact Hst1]. simpl. intros; lia.
      * now rewrite Hst2.
Qed.

(** In a sorted tensor, what a mask keeps at place [k'] is no smaller
    than the entry at any place [k <= k']. *)
Lemma mask_index_le (l : list Z) :
  StronglySorted Z.le l ->
  forall mask (k k' : nat) r r',
    (k <= k')%nat -> nth_error l k = Some r ->
    nth_error (boolean_mask l mask) k' = Some r' -> r <= r'.
Proof.
  induction 1 as [|x l Hs IH Hall]; intros mask k k' r r' Hk Hr Hr'.
  - destruct k; discriminate.
  - rewrite Forall_forall in Hall.
    destruct mask as [|b mask]; [destruct k'; discriminate|].
    cbn [boolean_mask] in Hr'. destruct b.
    + destruct k' as [|k'']; destruct k as [|k0]; simpl in Hr, Hr';
        try lia.
      * assert (r = x) by congruence. assert (r' = x) by congruence. lia.
      * injection Hr as <-. apply nth_error_In, in_boolean_mask in Hr'.
        auto.
      * apply (IH mask k0 k'' r r'); auto. lia.
    + destruct k as [|k0]; simpl in Hr.
      * injection Hr as <-. apply nth_error_In, in_boolean_mask in Hr'.
        auto.
      * apply (IH mask k0 k' r r'); auto. lia.
Qed.

Lemma mask_length_le {A : Type} (l : list A) : forall mask,
  (List.length (boolean_mask l mask) <= List.length l)%nat.
Proof.
  induction l as [|x l IH]; intros [|b mask]; simpl; try lia.
  destruct b; simpl; specialize (IH mask); lia.
Qed.

Lemma nth_error_firstn_some {A : Type} (n : nat) : forall (l : list A) k x,
  nth_error (firstn n l) k = Some x -> nth_error l k = Some x.
Proof.
  induction n as [|n IH]; intros [|y l] [|k] x; simpl; try discriminate; auto.
Qed.

Lemma discard_ordered (n : Z) (pairs : list (Z * Z)) :
  Forall (fun p : Z * Z => fst p <= snd p) pairs ->
  StronglySorted Z.le (map snd pairs) ->
  List.length (fst (discard_trailing n pairs))
  = List.length (snd (discard_trailing n pairs))
  /\ forall k l r,
       index (fst (discard_trailing n pairs)) k = Some l ->
       index (snd (discard_trailing n pairs)) k = Some r -> l <= r.
Proof.
  intros Hord Hs. unfold discard_trailing. cbn [fst snd].
  set (rights := boolean_mask (map snd pairs) _). split.
  - rewrite length_firstn, length_map.
    pose proof (mask_length_le (map snd pairs)
                  (map (fun r => negb (r =? n - 1)) (map snd pairs))) as H.
    fold rights in H. rewrite length_map in H. lia.
  - intros k l r Hl Hr.
    apply index_inv in Hl as [_ Hl]. apply index_inv in Hr as [_ Hr].
    apply nth_error_firstn_some in Hl. rewrite nth_error_map in Hl.
    destruct (nth_error pairs (Z.to_nat k)) as [p|] eqn:Ep; [|discriminate].
    injection Hl as <-.
    transitivity (snd p).
    + rewrite Forall_forall in Hord. apply Hord.
      eapply nth_error_In; eauto.
    + apply (mask_index_le (map snd pairs) Hs
               (map (fun r => negb (r =? n - 1)) (map snd pairs))
               (Z.to_nat k) (Z.to_nat k)); [lia| |exact Hr].
      rewrite nth_error_map, Ep. reflexivity.
Qed.

Lemma process_ordered (rights : list Z) ovs : forall lefts final,
  List.length lefts = List.length rights ->
  (forall i j ri rj,
      In (i, j) ovs -> index rights i = Some ri -> index rights j = Some rj ->
      ri <= rj) ->
  (forall k l r, index lefts k = Some l -> index rights k = Some r -> l <= r) ->
  process_overlaps rights ovs lefts = Some final ->
  forall k l r, index final k = Some l -> index rights k = Some r -> l <= r.
Proof.
  induction ovs as [|[i j] ovs IH]; intros lefts final Hl Hov HP; simpl.
  - intros [= <-]. exact HP.
  - destruct (index lefts i) as [v|] eqn:Hv.
    + destruct (process_step rights lefts i j v Hl Hv) as [l' [E [Hl' Hk]]].
      rewrite E. apply IH; [congruence| |].
      * intros i' j' ri rj Hin. apply Hov. now right.
      * intros k l r Hkl Hkr. rewrite Hk in Hkl.
        destruct (Z.eqb_spec k j) as [->|]; [|eauto].
        destruct (index lefts j); [|discriminate]. simpl in Hkl.
        injection Hkl as <-.
        destruct (index_some rights i) as [ri Hri].
        { apply index_inv in Hv. lia. }
        transitivity ri; [eapply HP; eauto|].
        eapply Hov; eauto. now left.
    + unfold process_right_left_overlap. cbn [fst]. rewrite Hv. discriminate.
Qed.

Lemma branches_upper (n : Z) (m m' : matrix) chrs idxs :
  StronglySorted Z.le idxs -> upper_triangular m ->
  branches n m chrs idxs = Some m' -> upper_triangular m'.
Proof.
  intros Hs Hm. unfold branches.
  destruct (bracket_pairs chrs idxs) as [pairs|] eqn:Ep; [|discriminate].
  assert (Hpairs : Forall (fun p : Z * Z => fst p <= snd p) pairs
                   /\ StronglySorted Z.le (map snd pairs)).
  { unfold bracket_pairs in Ep.
    destruct (bracket_loop idxs chrs 0 [] [(-1, -1)]) as [ps|] eqn:E;
      [|discriminate].
    injection Ep as <-. split.
    - assert (H : Forall (fun p : Z * Z => fst p <= snd p) ps).
      { eapply (bracket_loop_ordered idxs Hs chrs 0 [] [(-1, -1)]); eauto.
        repeat constructor. simpl. lia. }
      destruct ps; [constructor|]. now inversion H.
    - eapply (bracket_loop_sorted idxs Hs chrs 0 [] [(-1, -1)]); eauto;
        try lia; try discriminate; constructor. }
  destruct Hpairs as [Hord Hsorted].
  destruct (discard_ordered n pairs Hord Hsorted) as [Hlen HP].
  destruct (discard_trailing n pairs) as [lefts rights]. cbn [fst snd] in *.
  destruct (process_overlaps rights (left_right_overlaps lefts rights) lefts)
    as [final|] eqn:Eo; [|discriminate].
  assert (Hfinal : forall k l r,
             index final k = Some l -> index rights k = Some r -> l <= r).
  { apply (process_ordered rights (left_right_overlaps lefts rights)
             lefts final Hlen); auto.
    intros i j ri rj Hin Hi Hj. apply in_overlaps in Hin as [r [Hr Hlj]].
    assert (ri = r) by congruence. subst. eapply HP; eauto. }
  unfold rewire.
  destruct (gather_nd m _) as [cur|]; [|discriminate].
  destruct (scatter_nd_update m _ _) as [m1|] eqn:E1; [|discriminate].
  intros E2. eapply scatter_upper; [| |exact E2].
  - eapply scatter_upper; [exact Hm| |exact E1].
    apply Forall_forall. intros p Hp. apply in_map_iff in Hp as [a [<- _]].
    simpl. lia.
  - apply Forall_forall. intros p Hp.
    apply in_zip_with_nth in Hp as [k [l [r [Hl [Hr ->]]]]]. simpl.
    rewrite <- index_of_nat in Hl, Hr. specialize (Hfinal _ _ _ Hl Hr). lia.
Qed.

(** *** Rings: the pairs come from a sorted tensor *)

Lemma insert_sorted_sorted (x : Z) (l : list Z) :
  StronglySorted Z.le l -> StronglySorted Z.le (insert_sorted x l).
Proof.
  induction 1 as [|a l Hs IH Hall]; simpl.
  - repeat constructor.
  - destruct (Z.leb_spec x a).
    + constructor; [now constructor|]. constructor; [assumption|].
      eapply Forall_impl; [|exact Hall]. simpl. intros; lia.
    + constructor; [assumption|]. apply Forall_forall. intros y Hy.
      apply in_insert_sorted in Hy as [->|Hy]; [lia|].
      rewrite Forall_forall in Hall. auto.
Qed.

Lemma sort_sorted (l : list Z) : StronglySorted Z.le (sort l).
Proof.
  unfold sort. induction l as [|x l IH]; simpl; [constructor|].
  now apply insert_sorted_sorted.
Qed.

Lemma connection_pairs_ordered (l : list Z) (a b : Z) :
  StronglySorted Z.le l -> In (a, b) (connection_pairs l) -> a <= b.
Proof.
  intros Hs H. unfold connection_pairs in H.
  apply in_flat_map in H as [[ky y] [Hy H]].
  apply in_map_iff in H as [[kx x] [[= <- <-] Hx]].
  apply filter_In in Hx as [Hx Hlt]. simpl in Hlt.
  apply in_enumerate_iff in Hx, Hy.
  apply (sorted_index l Hs kx ky); auto. lia.
Qed.

Lemma rings_upper (m m' : matrix) chrs idxs :
  List.length chrs = List.length idxs -> upper_triangular m ->
  rings m chrs idxs = Some m' -> upper_triangular m'.
Proof.
  intros Hl Hm. unfold rings. rewrite ring_updates_eq by assumption.
  cbn [fst snd]. intros E. eapply scatter_upper; [exact Hm| |exact E].
  apply Forall_forall. intros [a b] Hin.
  apply in_flat_map in Hin as [d [_ Hin]]. simpl.
  unfold ring_pairs in Hin.
  eapply connection_pairs_ordered; [apply sort_sorted|exact Hin].
Qed.

(** *** Aromaticity and conjugation: only bonds that exist are updated *)

Lemma in_nonzero_places (M : matrix) (r c : Z) :
  In (r, c) (nonzero_places M) ->
  exists v, entry M r c = Some v /\ Qeq_bool v 0 = false.
Proof.
  unfold nonzero_places. intros H.
  apply in_flat_map in H as [[kr row] [Hr H]].
  apply in_map_iff in H as [[kc v] [[= <- <-] H]].
  apply filter_In in H as [Hc Hv]. simpl in *.
  apply in_enumerate_iff in Hr, Hc. exists v. unfold entry. rewrite Hr.
  split; [exact Hc|]. now apply negb_true_iff in Hv.
Qed.

Lemma in_gather_pairs (l : list Z) : forall places ps x y,
  gather_pairs l places = Some ps -> In (x, y) ps ->
  exists a b, In (a, b) places /\ index l a = Some x /\ index l b = Some y.
Proof.
  induction places as [|[a b] places IH]; simpl; intros ps x y.
  - intros [= <-] [].
  - destruct (index l a) as [xa|] eqn:Ea; [|discriminate].
    destruct (index l b) as [xb|] eqn:Eb; [|discriminate].
    destruct (gather_pairs l places) as [qs|] eqn:Eg; [|discriminate].
    intros [= <-] [[= <- <-]|Hin].
    + exists a, b. auto.
    + destruct (IH _ _ _ eq_refl Hin) as (a' & b' & ? & ? & ?).
      exists a', b'. auto.
Qed.

Lemma gather_nth_inv {A : Type} (l : list A) (idxs : list Z) xs k x :
  gather l idxs = Some xs -> nth_error xs k = Some x ->
  exists i, nth_error idxs k = Some i /\ index l i = Some x.
Proof.
  intros Hg Hx.
  assert (Hk : (k < List.length idxs)%nat).
  { rewrite <- (length_gather _ _ _ Hg). apply nth_error_Some. congruence. }
  destruct (nth_error idxs k) as [i|] eqn:E;
    [|apply nth_error_None in E; lia].
  exists i. split; [reflexivity|].
  rewrite <- (Scan.nth_gather _ _ _ _ _ Hg E). exact Hx.
Qed.

Lemma submatrix_rows (idxs : list Z) : forall (rows sub : matrix) k r',
  (fix cols (rs : list (list Q)) : option matrix :=
     match rs with
     | [] => Some []
     | r :: rs' =>
         match gather r idxs with
         | Some r' =>
             match cols rs' with
             | Some m' => Some (r' :: m')
             | None => None
             end
         | None => None
         end
     end) rows = Some sub ->
  nth_error sub k = Some r' ->
  exists r, nth_error rows k = Some r /\ gather r idxs = Some r'.
Proof.
  induction rows as [|r rows IH]; intros sub k r'.
  - intros [= <-]. destruct k; discriminate.
  - destruct (gather r idxs) as [g|] eqn:Eg; [|discriminate].
    match goal with
    | |- match ?e with Some _ => _ | None => _ end = _ -> _ =>
        destruct e as [rest|] eqn:Er; [|discriminate]
    end.
    intros [= <-]. destruct k as [|k]; simpl.
    + intros [= <-]. eauto.
    + intros H. exact (IH rest k r' eq_refl H).
Qed.

(** An entry of the sub-tensor is the entry of the tensor at the
    gathered places. *)
Lemma submatrix_entry (m sub : matrix) (idxs : list Z) (r c : Z) (v : Q) :
  submatrix m idxs = Some sub -> entry sub r c = Some v ->
  exists a b, index idxs r = Some a /\ index idxs c = Some b
              /\ entry m a b = Some v.
Proof.
  unfold submatrix.
  destruct (gather m idxs) as [rows|] eqn:Eg; [|discriminate].
  intros Hsub He. unfold entry in He.
  destruct (index sub r) as [row'|] eqn:Er; [|discriminate].
  apply index_inv in Er as [Hr Er]. apply index_inv in He as [Hc He].
  destruct (submatrix_rows idxs rows sub _ _ Hsub Er) as [row [Hrow Hg]].
  destruct (gather_nth_inv _ _ _ _ _ Eg Hrow) as [a [Ha Hma]].
  destruct (gather_nth_inv _ _ _ _ _ Hg He) as [b [Hb Hmb]].
  exists a, b. unfold index at 1 2.
  destruct (Z.ltb_spec r 0); [lia|]. destruct (Z.ltb_spec c 0); [lia|].
  split; [exact Ha|]. split; [exact Hb|].
  unfold entry. rewrite Hma. exact Hmb.
Qed.

Lemma aromaticity_upper (m m' : matrix) (arom : list Z) :
  upper_triangular m -> aromaticity m arom = Some m' -> upper_triangular m'.
Proof.
  intros Hm. unfold aromaticity.
  destruct (submatrix m arom) as [sub|] eqn:Es; [|discriminate].
  destruct (gather_pairs arom _) as [gathered|] eqn:Eg; [|discriminate].
  destruct (gather_nd m _) as [cur|]; [|discriminate].
  intros E. eapply scatter_upper; [exact Hm| |exact E].
  apply Forall_forall. intros p Hp.
  apply in_map_iff in Hp as [[x y] [<- Hxy]]. simpl.
  destruct (in_gather_pairs _ _ _ _ _ Eg Hxy) as (a & b & Hab & Ha & Hb).
  apply in_map_iff in Hab as [[r c] [[= <- <-] Hrc]].
  destruct (in_nonzero_places _ _ _ Hrc) as [v [Hv Hnz]].
  destruct (submatrix_entry _ _ _ _ _ _ Es Hv) as (a' & b' & Ha' & Hb' & He).
  simpl in Ha, Hb.
  assert (a' = y) by congruence. assert (b' = x) by congruence. subst.
  eapply nonzero_above; eauto.
Qed.

Lemma in_positive_places (m : matrix) : forall places orders a b,
  gather_nd m places = Some orders ->
  In (a, b) (boolean_mask places (map positive orders)) ->
  exists v, entry m a b = Some v /\ positive v = true.
Proof.
  induction places as [|[i j] places IH]; intros orders a b; simpl.
  - intros _ [].
  - destruct (entry m i j) as [v|] eqn:Ev; [|discriminate].
    destruct (gather_nd m places) as [vs|] eqn:Eg; [|discriminate].
    intros [= <-]. simpl. destruct (positive v) eqn:Hp.
    + intros [[= <- <-]|Hin]; [eauto|]. eapply IH; eauto.
    + intros Hin. eapply IH; eauto.
Qed.

Lemma systems_loop_places (m : matrix) sp adj : forall systems acc accv ups,
  systems_loop m sp adj systems acc accv = Some ups ->
  exists extra,
    fst ups = acc ++ extra
    /\ Forall (fun p => exists v, entry m (fst p) (snd p) = Some v
                                  /\ positive v = true) extra.
Proof.
  induction systems as [|system rest IH]; intros acc accv ups; simpl.
  - intros [= <-]. exists []. split; [now rewrite app_nil_r|constructor].
  - destruct (system_update m sp adj system) as [up|] eqn:Eu; [|discriminate].
    intros H. destruct (IH _ _ _ H) as [extra [-> Hall]].
    exists (fst up ++ extra). split; [now rewrite app_assoc|].
    apply Forall_app. split; [|exact Hall].
    unfold system_update in Eu.
    destruct (gather sp _); [|discriminate].
    destruct (submatrix adj _); [|discriminate].
    destruct (gather_nd m _) as [orders|] eqn:Eo; [|discriminate].
    injection Eu as <-. cbn [fst]. apply Forall_forall. intros [a b] Hin.
    exact (in_positive_places _ _ _ _ _ Eo Hin).
Qed.

Lemma conjugation_upper (n : Z) (ats : list Z) (m m' : matrix) arom :
  upper_triangular m -> conjugation n ats m arom = Some m' ->
  upper_triangular m'.
Proof.
  intros Hm. unfold conjugation.
  destruct (sp2_candidates n ats (full m) arom) as [sp|]; [|discriminate].
  destruct (submatrix (full m) sp) as [adj|]; [|discriminate].
  destruct (conjugate_systems sp adj) as [systems|]; [|discriminate].
  destruct (systems_loop m sp adj systems _ _) as [ups|] eqn:Eu;
    [|discriminate].
  destruct (systems_loop_places _ _ _ _ _ _ _ Eu) as [extra [-> Hall]].
  cbn [app tl]. intros E. eapply scatter_upper; [exact Hm| |exact E].
  eapply Forall_impl; [|exact Hall]. simpl. intros p [v [Hv Hp]].
  eapply positive_above; eauto.
Qed.

Lemma decode_chain (smiles : string) (st : stages) :
  decode smiles = Some st -> chain st = chain_matrix (n_atoms st).
Proof.
  unfold decode.
  repeat match goal with
         | |- context [match ?e with Some _ => _ | None => _ end] =>
             destruct e eqn:?; try discriminate
         end.
  now intros [= <-].
Qed.

(** X8.  Whenever the decoder returns a molecule, its adjacency map is
    upper triangular, and so is the map after each stage: every entry
    [(i, j)] with [j < i] is 0, each bond being recorded once, at the
    place with the smaller atom index first. *)
Theorem decoded_upper_triangular (smiles : string) (st : stages) :
  decode smiles = Some st ->
  Forall upper_triangular
    [chain st; after_bond_orders st; after_branches st; after_rings st;
     after_aromaticity st; resolved st].
Proof.
  intros H.
  destruct (decode_shapes smiles st H) as [Hl _].
  destruct (decode_stages smiles st H) as [H1 [H2 [H3 [H4 H5]]]].
  pose proof (decode_anchors_sorted smiles st H) as Hs.
  assert (U0 : upper_triangular (chain st))
    by (rewrite (decode_chain smiles st H); apply chain_upper).
  pose proof (bond_orders_upper _ _ _ _ U0 H1) as U1.
  pose proof (branches_upper _ _ _ _ _ Hs U1 H2) as U2.
  pose proof (rings_upper _ _ _ _ Hl U2 H3) as U3.
  pose proof (aromaticity_upper _ _ _ U3 H4) as U4.
  pose proof (conjugation_upper _ _ _ _ _ U4 H5) as U5.
  repeat (apply Forall_cons; [assumption|]). apply Forall_nil.
Qed.

(** Isobutylbenzene with a ring closure back to atom 4: the entry
    below the diagonal at (9, 4) is 0. *)
Lemma decoded_upper_triangular_witness :
  exists st,
    decode "CC(C)Cc1ccccc1" = Some st
    /\ entry (resolved st) 9 4 = Some 0%Q.
Proof.
  assert (E : exists st, decode "CC(C)Cc1ccccc1" = Some st)
    by (eexists; vm_compute; reflexivity).
  destruct E as [st E]. exists st. split; [exact E|].
  pose proof (decoded_upper_triangular _ st E) as H.
  assert (U : upper_triangular (resolved st)).
  { repeat match goal with
           | H : Forall _ (_ :: _) |- _ => inversion H; clear H; subst
           end.
    assumption. }
  destruct (Atoms.decoded_square _ st E) as [_ [_ [_ [_ Hsq]]]].
  destruct (decode_inputs _ st E) as [_ [Hn _]].
  assert (Hc : count_atoms (strip (chars "CC(C)Cc1ccccc1")) = 10)
    by (vm_compute; reflexivity).
  rewrite Hc in Hn. rewrite Hn in Hsq.
  destruct (entry_inside _ _ 9 4 Hsq) as [x Hx]; [split; simpl; lia|].
  rewrite Hx. f_equal. apply (U 9 4); [lia|exact Hx].
Defined.

End Triangle.

(** ** Hydrogens granted to each heavy atom *)
Module Grants.
Import Tensor TensorFacts Hydrogen Rules Completer.

Local Open Scope Z_scope.

Lemma flag_zip (f : bool -> bool -> bool) (a : list bool) :
  f false false = false ->
  forall b i, List.length a = List.length b ->
    flag (zip_with f a b) i = f (flag a i) (flag b i).
Proof.
  intros Hf. unfold flag.
  induction a as [|x a IH]; intros [|y b] [|i] H; simpl in *;
    try discriminate; auto.
Qed.

Lemma flag_and (a b : list bool) (i : nat) :
  List.length a = List.length b ->
  flag (logical_and a b) i = flag a i && flag b i.
Proof. intros. now apply (flag_zip andb). Qed.

Lemma flag_or (a b : list bool) (i : nat) :
  List.length a = List.length b ->
  flag (logical_or a b) i = flag a i || flag b i.
Proof. intros. now apply (flag_zip orb). Qed.

(** [reduce_any] joins the rules atom by atom. *)
Lemma flag_reduce_any (n : nat) (rows : list (list bool)) (i : nat) :
  Forall (fun r => List.length r = n) rows ->
  flag (reduce_any n rows) i = existsb (fun r => flag r i) rows.
Proof.
  induction 1 as [|r rows Hr Hall IH]; simpl.
  - unfold flag. apply nth_repeat.
  - rewrite (flag_zip orb); [now rewrite IH|reflexivity|].
    now rewrite length_reduce_any.
Qed.

Lemma some_inj {A : Type} (x y : A) : Some x = Some y -> x = y.
Proof. congruence. Qed.

Ltac typed Hw :=
  unfold well_typed in Hw;
  repeat match goal with
         | H : Forall _ (_ :: _) |- _ =>
             let H' := fresh "L" in
             pose proof (Forall_inv H) as H'; cbv beta in H';
             apply Forall_inv_tail in H
         end.

Ltac same_length :=
  unfold logical_and, logical_or; rewrite ?length_zip_with; lia.

Lemma has_one_flags (n : nat) (t : TypingGAFF) (h : list bool) (i : nat) :
  (0 < n)%nat -> well_typed n t -> has_one n t = Some h ->
  flag h i = one_hydrogen t i.
Proof.
  intros Hn Hw. typed Hw. unfold has_one.
  rewrite any_rule_eq by (auto; repeat constructor; flags_length).
  intros E. apply some_inj in E. rewrite <- E.
  rewrite flag_reduce_any by (repeat constructor; flags_length).
  cbn [existsb].
  rewrite !flag_and, !flag_or by same_length.
  unfold one_hydrogen. now rewrite orb_false_r.
Qed.

Lemma has_two_flags (n : nat) (t : TypingGAFF) (h : list bool) (i : nat) :
  (0 < n)%nat -> well_typed n t -> has_two n t = Some h ->
  flag h i = two_hydrogens t i.
Proof.
  intros Hn Hw. typed Hw. unfold has_two.
  rewrite any_rule_eq by (auto; repeat constructor; flags_length).
  intros E. apply some_inj in E. rewrite <- E.
  rewrite flag_reduce_any by (repeat constructor; flags_length).
  cbn [existsb].
  rewrite !flag_and, !flag_or by same_length.
  unfold two_hydrogens. now rewrite orb_false_r.
Qed.

Lemma has_three_flags (n : nat) (t : TypingGAFF) (i : nat) :
  well_typed n t -> flag (has_three t) i = three_hydrogens t i.
Proof.
  intros Hw. typed Hw. unfold has_three.
  now rewrite !flag_and by same_length.
Qed.

(** An atom is kept once by the mask when its flag is set. *)
Lemma count_mask_from (h : list bool) : forall (s k : nat),
  count_occ Z.eq_dec
    (boolean_mask (map Z.of_nat (seq s (List.length h))) h) (Z.of_nat k)
  = if ((s <=? k)%nat && flag h (k - s))%bool then 1%nat else 0%nat.
Proof.
  unfold flag. induction h as [|b h IH]; intros s k.
  - simpl. destruct (k - s)%nat; now rewrite andb_false_r.
  - cbn [List.length seq map boolean_mask].
    assert (Hrest : count_occ Z.eq_dec
                      (boolean_mask (map Z.of_nat (seq (S s) (List.length h)))
                         h) (Z.of_nat k)
                    = if ((s <? k)%nat && nth (k - S s) h false)%bool
                      then 1%nat else 0%nat) by apply IH.
    destruct (Nat.eq_dec s k) as [->|Hne].
    + rewrite Nat.sub_diag, Nat.leb_refl. cbn [nth andb].
      rewrite Nat.ltb_irrefl in Hrest. cbn [andb] in Hrest.
      destruct b; [|exact Hrest].
      rewrite count_occ_cons_eq by reflexivity. now rewrite Hrest.
    + assert (Hb : count_occ Z.eq_dec
                     (if b
                      then Z.of_nat s
                           :: boolean_mask
                                (map Z.of_nat (seq (S s) (List.length h))) h
                      else boolean_mask
                             (map Z.of_nat (seq (S s) (List.length h))) h)
                     (Z.of_nat k)
                   = count_occ Z.eq_dec
                       (boolean_mask
                          (map Z.of_nat (seq (S s) (List.length h))) h)
                       (Z.of_nat k)).
      { destruct b; [|reflexivity]. apply count_occ_cons_neq. lia. }
      rewrite Hb, Hrest.
      destruct (Nat.ltb_spec s k), (Nat.leb_spec s k); try lia;
        [|reflexivity].
      replace (k - s)%nat with (S (k - S s)) by lia. reflexivity.
Qed.

Lemma count_mask (n : nat) (h : list bool) (i : nat) :
  List.length h = n ->
  count_occ Z.eq_dec (boolean_mask (range (Z.of_nat n)) h) (Z.of_nat i)
  = if flag h i then 1%nat else 0%nat.
Proof.
  intros <-. unfold range. rewrite Nat2Z.id, count_mask_from.
  now rewrite Nat.sub_0_r.
Qed.

Lemma count_copies (c : nat) (i : Z) (l : list Z) :
  count_occ Z.eq_dec (flat_map (fun p => repeat p c) l) i
  = (c * count_occ Z.eq_dec l i)%nat.
Proof.
  induction l as [|x l IH]; simpl; [lia|].
  rewrite count_occ_app, IH. destruct (Z.eq_dec x i) as [->|Hne].
  - rewrite count_occ_repeat_eq by reflexivity. lia.
  - rewrite count_occ_repeat_neq by congruence. lia.
Qed.

Lemma count_parents (one two three : list Z) (i : Z) :
  count_occ Z.eq_dec (parents one two three) i
  = (count_occ Z.eq_dec one i + 2 * count_occ Z.eq_dec two i
     + 3 * count_occ Z.eq_dec three i)%nat.
Proof. unfold parents. rewrite !count_occ_app, !count_copies. lia. Qed.

Lemma count_bonds (i : Z) (ps : list Z) :
  List.length (filter (fun x => Qeq_bool x 1) (map (bond_to i) ps))
  = count_occ Z.eq_dec ps i.
Proof.
  induction ps as [|p ps IH]; [reflexivity|]. cbn [map filter count_occ].
  unfold bond_to at 1.
  destruct (Z.eqb_spec i p) as [Heq|Hne], (Z.eq_dec p i); try congruence;
    simpl; now rewrite IH.
Qed.

(** X9.  For a molecule of [n] heavy atoms with an [n] by [n] bond
    matrix and a typing with one flag per atom and predicate, the row
    of heavy atom [i] in the completed matrix bonds it to as many
    hydrogen columns as the rules grant: one if a rule of [has_one]
    holds for the atom, plus two if a rule of [has_two] holds, plus
    three if the rule of [has_three] holds.  The concatenation,
    reshape and [reduce_any] of the rules is their disjunction atom by
    atom; the rule sets are not exclusive (an sp3 oxygen or sulfur
    always receives a hydrogen, whatever its heavy neighbours). *)
Theorem hydrogens_per_atom
  (t : TypingGAFF) (atoms : list Z) (A : matrix) (i : nat) :
  (i < List.length atoms)%nat ->
  square (List.length atoms) A ->
  well_typed (List.length atoms) t ->
  exists mol row,
    add_hydrogen t (atoms, A) = Some mol
    /\ nth_error (snd mol) i = Some row
    /\ hydrogens_of (List.length atoms) row = granted t i.
Proof.
  intros Hi Hsq Hw.
  assert (Hn : (0 < List.length atoms)%nat) by lia.
  destruct (add_hydrogen_eq t atoms A Hn Hsq Hw)
    as [h1 [h2 [E1 [E2 [L1 [L2 E]]]]]].
  cbv zeta in E. rewrite E.
  set (n := List.length atoms) in *.
  set (ps := parents _ _ _).
  destruct Hsq as [Hl Hr].
  destruct (nth_error A i) as [rowA|] eqn:Ea;
    [|apply nth_error_None in Ea; lia].
  assert (Hrow : List.length rowA = n).
  { rewrite Forall_forall in Hr. apply Hr. eapply nth_error_In; eauto. }
  eexists. exists (rowA ++ map (bond_to (Z.of_nat i)) ps).
  split; [reflexivity|]. cbn [snd]. split.
  - rewrite nth_error_app1
      by (rewrite length_zip_with, length_map, length_range; lia).
    rewrite nth_error_zip_with, Ea, nth_error_map.
    pose proof (index_range (Z.of_nat n) (Z.of_nat i)) as Hx.
    rewrite index_of_nat in Hx. rewrite Hx by lia. reflexivity.
  - unfold hydrogens_of. rewrite skipn_app, skipn_all2 by lia.
    rewrite Hrow, Nat.sub_diag. cbn [app skipn].
    rewrite count_bonds. unfold ps. rewrite count_parents.
    rewrite !(count_mask n) by (auto; apply length_has_three; auto).
    rewrite (has_one_flags n t h1 i Hn Hw E1),
      (has_two_flags n t h2 i Hn Hw E2), (has_three_flags n t i Hw).
    unfold granted.
    destruct (one_hydrogen t i), (two_hydrogens t i), (three_hydrogens t i);
      reflexivity.
Qed.

(** Dimethyl ether, "COC": each methyl carbon (sp3, one heavy
    neighbour) receives three hydrogens, and the oxygen (sp3, two heavy
    neighbours) receives one. *)
Lemma hydrogens_per_atom_witness :
  let t := {| is_carbon := [true; false; true];
              is_nitrogen := [false; false; false];
              is_phosphorus := [false; false; false];
              is_oxygen := [false; true; false];
              is_sulfur := [false; false; false];
              is_sp1 := [false; false; false];
              is_sp2 := [false; false; false];
              is_sp3 := [true; true; true];
              is_connected_to_1_heavy := [true; false; true];
              is_connected_to_2_heavy := [false; true; false];
              is_connected_to_3_heavy := [false; false; false] |} in
  exists mol row,
    add_hydrogen t ([0; 2; 0], chain_matrix 3) = Some mol
    /\ nth_error (snd mol) 1 = Some row
    /\ hydrogens_of 3 row = 1%nat.
Proof.
  intros t.
  destruct (hydrogens_per_atom t [0; 2; 0] (chain_matrix 3) 1)
    as [mol [row [E [Hrow H]]]].
  - simpl. lia.
  - split; [reflexivity|]. repeat constructor.
  - repeat constructor.
  - exists mol, row. split; [exact E|]. split; [exact Hrow|].
    simpl in H. exact H.
Defined.

End Grants.

(** ** A ring digit written more than twice *)
Module Rings.
Import Tensor TensorFacts FromSmiles Resolver Triangle.

Local Open Scope char_scope.
Local Open Scope Z_scope.

Lemma count_insert_sorted (x y : Z) (l : list Z) :
  count_occ Z.eq_dec (insert_sorted x l) y = count_occ Z.eq_dec (x :: l) y.
Proof.
  induction l as [|z l IH]; [reflexivity|].
  cbn [insert_sorted]. destruct (x <=? z); [reflexivity|].
  cbn [count_occ] in *.
  destruct (Z.eq_dec z y), (Z.eq_dec x y); rewrite IH; reflexivity.
Qed.

Lemma count_sort (y : Z) (l : list Z) :
  count_occ Z.eq_dec (sort l) y = count_occ Z.eq_dec l y.
Proof.
  unfold sort. induction l as [|x l IH]; [reflexivity|].
  cbn [fold_right]. rewrite count_insert_sorted. cbn [count_occ].
  now rewrite IH.
Qed.

(** An entry that occurs twice sits at two places. *)
Lemma twice_places (a : Z) (l : list Z) :
  (2 <= count_occ Z.eq_dec l a)%nat ->
  exists x y, (x < y)%nat /\ nth_error l x = Some a /\ nth_error l y = Some a.
Proof.
  induction l as [|z l IH]; simpl; [lia|].
  destruct (Z.eq_dec z a) as [->|Hne]; intros H.
  - assert (Hin : In a l) by (apply (count_occ_In Z.eq_dec); lia).
    apply In_nth_error in Hin as [y Hy].
    exists 0%nat, (S y). split; [lia|]. split; [reflexivity|exact Hy].
  - destruct (IH H) as [x [y [Hxy [Hx Hy]]]].
    exists (S x), (S y). split; [lia|]. split; assumption.
Qed.

(** Two occurrences of the digit on one anchor leave the anchor twice
    among the marked entries. *)
Lemma marked_twice (d : ascii) (a : Z) (idxs : list Z) :
  forall chrs (p q : nat),
    (p < q)%nat ->
    nth_error chrs p = Some d -> nth_error idxs p = Some a ->
    nth_error chrs q = Some d -> nth_error idxs q = Some a ->
    (2 <= count_occ Z.eq_dec (boolean_mask idxs (map (Ascii.eqb d) chrs)) a)%nat.
Proof.
  induction idxs as [|x idxs IH]; intros chrs p q Hpq Hcp Hip Hcq Hiq.
  - destruct p; discriminate.
  - destruct chrs as [|c chrs]; [destruct p; discriminate|].
    destruct q as [|q]; [lia|]. cbn [nth_error] in Hcq, Hiq.
    cbn [map boolean_mask]. destruct p as [|p].
    + cbn [nth_error] in Hcp, Hip. injection Hcp as ->. injection Hip as ->.
      rewrite Ascii.eqb_refl. rewrite count_occ_cons_eq by reflexivity.
      assert (In a (boolean_mask idxs (map (Ascii.eqb d) chrs)))
        by (apply in_marked; eauto).
      apply (count_occ_In Z.eq_dec) in H. lia.
    + cbn [nth_error] in Hcp, Hip.
      assert (Hrest := IH chrs p q ltac:(lia) Hcp Hip Hcq Hiq).
      destruct (Ascii.eqb d c); [|exact Hrest].
      cbn [count_occ]. destruct (Z.eq_dec x a); lia.
Qed.

(** The pairs of a tensor are its entries at any two places, the
    earlier place first. *)
Lemma connection_pairs_places (l : list Z) (x y : nat) (a b : Z) :
  (x < y)%nat -> nth_error l x = Some a -> nth_error l y = Some b ->
  In (a, b) (connection_pairs l).
Proof.
  intros Hxy Hx Hy. unfold connection_pairs. apply in_flat_map.
  exists (Z.of_nat y, b). split.
  - apply in_enumerate_iff. now rewrite index_of_nat.
  - apply in_map_iff. exists (Z.of_nat x, a). split; [reflexivity|].
    apply filter_In. split.
    + apply in_enumerate_iff. now rewrite index_of_nat.
    + simpl. apply Z.ltb_lt. lia.
Qed.

Lemma sorted_nth (l : list Z) (x y : nat) (a b : Z) :
  StronglySorted Z.le l -> (x <= y)%nat ->
  nth_error l x = Some a -> nth_error l y = Some b -> a <= b.
Proof.
  intros Hs Hxy Hx Hy. rewrite <- index_of_nat in Hx, Hy.
  apply (sorted_index l Hs (Z.of_nat x) (Z.of_nat y)); auto. lia.
Qed.

(** Two distinct occurrences of a digit give a pair of the stage, the
    smaller anchor first. *)
Lemma ring_pair_of_places chrs idxs (d : ascii) (p q : nat) (a b : Z) :
  p <> q ->
  nth_error chrs p = Some d -> nth_error idxs p = Some a ->
  nth_error chrs q = Some d -> nth_error idxs q = Some b ->
  In (Z.min a b, Z.max a b) (ring_pairs chrs idxs d).
Proof.
  intros Hpq Hcp Hip Hcq Hiq. unfold ring_pairs.
  set (M := boolean_mask idxs (map (Ascii.eqb d) chrs)).
  pose proof (sort_sorted M) as Hs.
  assert (Hab : exists x y, (x < y)%nat
                  /\ ((nth_error (sort M) x = Some a
                       /\ nth_error (sort M) y = Some b)
                      \/ (nth_error (sort M) x = Some b
                          /\ nth_error (sort M) y = Some a))).
  { destruct (Z.eq_dec a b) as [<-|Hne].
    - assert (H2 : (2 <= count_occ Z.eq_dec M a)%nat).
      { destruct (Nat.lt_total p q) as [Hlt|[Heq|Hlt]]; [|contradiction|].
        - exact (marked_twice d a idxs chrs p q Hlt Hcp Hip Hcq Hiq).
        - exact (marked_twice d a idxs chrs q p Hlt Hcq Hiq Hcp Hip). }
      rewrite <- count_sort in H2.
      destruct (twice_places a (sort M) H2) as [x [y [Hxy [Hx Hy]]]].
      exists x, y. auto.
    - assert (Ha : In a (sort M)) by (apply in_sort, in_marked; eauto).
      assert (Hb : In b (sort M)) by (apply in_sort, in_marked; eauto).
      apply In_nth_error in Ha as [x Hx]. apply In_nth_error in Hb as [y Hy].
      destruct (Nat.lt_total x y) as [Hlt|[Heq|Hlt]].
      + exists x, y. auto.
      + subst. congruence.
      + exists y, x. auto. }
  destruct Hab as [x [y [Hxy [[Hx Hy]|[Hx Hy]]]]].
  - assert (a <= b) by (apply (sorted_nth (sort M) x y); auto; lia).
    rewrite Z.min_l, Z.max_r by lia.
    exact (connection_pairs_places _ x y a b Hxy Hx Hy).
  - assert (b <= a) by (apply (sorted_nth (sort M) x y); auto; lia).
    rewrite Z.min_r, Z.max_l by lia.
    exact (connection_pairs_places _ x y b a Hxy Hx Hy).
Qed.

(** X10.  The ring stage bonds every pair of occurrences of a resolved
    digit, not only consecutive ones: for any two distinct places of
    the topology stream that hold the digit, the entry between their
    anchors, the smaller first, is 1 after the stage.  A digit written
    three times closes a triangle of bonds among its three anchors. *)
Theorem ring_digit_all_pairs
  (n : nat) (m : matrix) (chrs : list ascii) (idxs : list Z)
  (d : ascii) (p q : nat) (a b : Z) :
  square n m ->
  List.length chrs = List.length idxs ->
  (forall c, In c idxs -> 0 <= c < Z.of_nat n) ->
  In d (resolved_digits chrs) ->
  p <> q ->
  nth_error chrs p = Some d -> nth_error idxs p = Some a ->
  nth_error chrs q = Some d -> nth_error idxs q = Some b ->
  exists m',
    rings m chrs idxs = Some m'
    /\ entry m' (Z.min a b) (Z.max a b) = Some 1%Q.
Proof.
  intros Hsq Hl Hanchor Hd Hpq Hcp Hip Hcq Hiq.
  destruct (rings_spec n m chrs idxs Hsq Hl Hanchor)
    as [m' [E [_ [Hone _]]]].
  exists m'. split; [exact E|].
  apply (Hone d); [exact Hd|].
  exact (ring_pair_of_places chrs idxs d p q a b Hpq Hcp Hip Hcq Hiq).
Qed.

(** The topology stream of "C1CC1C1": the digit 1 after the atoms 0, 2
    and 3; the first and the last occurrence bond the atoms 0 and 3. *)
Lemma ring_digit_all_pairs_witness :
  exists m',
    rings (chain_matrix 4) ["1"; "1"; "1"] [0; 2; 3] = Some m'
    /\ entry m' 0 3 = Some 1%Q.
Proof.
  apply (ring_digit_all_pairs 4 (chain_matrix 4) ["1"; "1"; "1"] [0; 2; 3]
           "1" 0 2 0 3).
  - split; [reflexivity|]. repeat constructor.
  - reflexivity.
  - intros c Hc. simpl in Hc. lia.
  - vm_compute. now left.
  - discriminate.
  - reflexivity.
  - reflexivity.
  - reflexivity.
  - reflexivity.
Defined.

End Rings.

(** ** The aromaticity pass, entry by entry *)
Module Aromatic.
Import Tensor TensorFacts FromSmiles Vocabulary Resolver Triangle.

Local Open Scope Z_scope.

Lemma gather_some {A : Type} (l : list A) (idxs : list Z) :
  Forall (fun i => 0 <= i < Z.of_nat (List.length l)) idxs ->
  exists xs, gather l idxs = Some xs.
Proof.
  induction 1 as [|i idxs Hi _ [xs IH]]; simpl; [eauto|].
  destruct (index_some l i Hi) as [v ->]. rewrite IH. eauto.
Qed.

Lemma in_gather {A : Type} (l : list A) (idxs : list Z) xs (x : A) :
  gather l idxs = Some xs -> In x xs -> In x l.
Proof.
  intros Hg Hx. apply In_nth_error in Hx as [k Hk].
  destruct (gather_nth_inv _ _ _ _ _ Hg Hk) as [i [_ Hi]].
  apply index_inv in Hi as [_ Hi]. eapply nth_error_In; eauto.
Qed.

Lemma submatrix_cols_some (n : nat) (idxs : list Z) (rows : matrix) :
  Forall (fun a => 0 <= a < Z.of_nat n) idxs ->
  Forall (fun r => List.length r = n) rows ->
  exists sub,
    (fix cols (rs : list (list Q)) : option matrix :=
       match rs with
       | [] => Some []
       | r :: rs' =>
           match gather r idxs with
           | Some r' =>
               match cols rs' with
               | Some m' => Some (r' :: m')
               | None => None
               end
           | None => None
           end
       end) rows = Some sub.
Proof.
  intros Hin. induction 1 as [|r rows Hr _ [sub IH]]; [eauto|].
  destruct (gather_some r idxs) as [g Hg]; [now rewrite Hr|].
  rewrite Hg, IH. eauto.
Qed.

Lemma submatrix_some (n : nat) (m : matrix) (idxs : list Z) :
  square n m -> Forall (fun a => 0 <= a < Z.of_nat n) idxs ->
  exists sub, submatrix m idxs = Some sub.
Proof.
  intros [Hl Hr] Hin. unfold submatrix.
  destruct (gather_some m idxs) as [rows Hg]; [now rewrite Hl|].
  rewrite Hg. apply (submatrix_cols_some n); [assumption|].
  apply Forall_forall. intros r Hrow. rewrite Forall_forall in Hr.
  apply Hr. eapply in_gather; eauto.
Qed.

Lemma submatrix_rows_fwd (idxs : list Z) : forall (rows sub : matrix) k row,
  (fix cols (rs : list (list Q)) : option matrix :=
     match rs with
     | [] => Some []
     | r :: rs' =>
         match gather r idxs with
         | Some r' =>
             match cols rs' with
             | Some m' => Some (r' :: m')
             | None => None
             end
         | None => None
         end
     end) rows = Some sub ->
  nth_error rows k = Some row ->
  exists row', nth_error sub k = Some row' /\ gather row idxs = Some row'.
Proof.
  induction rows as [|r rows IH]; intros sub k row.
  - intros _ H. destruct k; discriminate.
  - destruct (gather r idxs) as [g|] eqn:Eg; [|discriminate].
    match goal with
    | |- match ?e with Some _ => _ | None => _ end = _ -> _ =>
        destruct e as [rest|] eqn:Er; [|discriminate]
    end.
    intros [= <-]. destruct k as [|k]; simpl.
    + intros [= <-]. eauto.
    + intros H. exact (IH rest k row eq_refl H).
Qed.

Lemma submatrix_entry_fwd (m sub : matrix) (idxs : list Z) (r c a b : Z) :
  submatrix m idxs = Some sub ->
  index idxs r = Some a -> index idxs c = Some b ->
  entry sub r c = entry m a b.
Proof.
  unfold submatrix.
  destruct (gather m idxs) as [rows|] eqn:Eg; [|discriminate].
  intros Hsub Hr Hc.
  apply index_inv in Hr as [Hr0 Hr]. apply index_inv in Hc as [Hc0 Hc].
  pose proof (Scan.nth_gather _ _ _ _ _ Eg Hr) as Hrow.
  destruct (index m a) as [row|] eqn:Ea.
  - destruct (submatrix_rows_fwd idxs rows sub _ _ Hsub Hrow)
      as [row' [Hsubr Hg]].
    unfold entry. rewrite Ea. unfold index at 1.
    destruct (Z.ltb_spec r 0); [lia|]. rewrite Hsubr. unfold index at 1.
    destruct (Z.ltb_spec c 0); [lia|].
    exact (Scan.nth_gather _ _ _ _ _ Hg Hc).
  - apply nth_error_None in Hrow. apply length_gather in Eg. lia.
Qed.

Lemma nonzero_places_iff (M : matrix) (r c : Z) :
  In (r, c) (nonzero_places M) <->
  exists v, entry M r c = Some v /\ Qeq_bool v 0 = false.
Proof.
  split; [apply in_nonzero_places|].
  intros [v [He Hv]]. unfold entry in He.
  destruct (index M r) as [row|] eqn:Er; [|discriminate].
  unfold nonzero_places. apply in_flat_map. exists (r, row). split.
  - now apply in_enumerate_iff.
  - apply in_map_iff. exists (c, v). split; [reflexivity|].
    apply filter_In. split; [now apply in_enumerate_iff|].
    simpl. now rewrite Hv.
Qed.

Lemma gather_pairs_in (l : list Z) : forall places ps a b x y,
  gather_pairs l places = Some ps -> In (a, b) places ->
  index l a = Some x -> index l b = Some y -> In (x, y) ps.
Proof.
  induction places as [|[a' b'] places IH]; simpl; intros ps a b x y;
    [tauto|].
  destruct (index l a') as [xa|] eqn:Ea; [|discriminate].
  destruct (index l b') as [xb|] eqn:Eb; [|discriminate].
  destruct (gather_pairs l places) as [qs|] eqn:Eg; [|discriminate].
  intros [= <-] [[= -> ->]|Hin] Hx Hy.
  - left. congruence.
  - right. eapply IH; eauto.
Qed.

Lemma gather_pairs_some (l : list Z) (places : list (Z * Z)) :
  (forall a b, In (a, b) places ->
               exists x y, index l a = Some x /\ index l b = Some y) ->
  exists ps, gather_pairs l places = Some ps.
Proof.
  induction places as [|[a b] places IH]; intros H; simpl; [eauto|].
  destruct (H a b) as [x [y [-> ->]]]; [now left|].
  destruct IH as [ps ->]; [|eauto].
  intros a' b' Hin. apply H. now right.
Qed.

Lemma in_index {A : Type} (l : list A) (x : A) :
  In x l -> exists k, index l k = Some x.
Proof.
  intros H. apply In_nth_error in H as [k Hk].
  exists (Z.of_nat k). now rewrite index_of_nat.
Qed.

Lemma index_in {A : Type} (l : list A) (k : Z) (x : A) :
  index l k = Some x -> In x l.
Proof.
  intros H. apply index_inv in H as [_ H]. eapply nth_error_In; eauto.
Qed.

(** The places the pass updates: the bonds that exist between two
    aromatic atoms. *)
Lemma aromatic_places (m sub : matrix) (arom : list Z) gathered :
  submatrix m arom = Some sub ->
  gather_pairs arom (map (fun rc : Z * Z => (snd rc, fst rc))
                       (nonzero_places sub)) = Some gathered ->
  forall i j,
    In (i, j) (map (fun p : Z * Z => (snd p, fst p)) gathered) <->
    In i arom /\ In j arom
    /\ exists v, entry m i j = Some v /\ Qeq_bool v 0 = false.
Proof.
  intros Es Eg i j. split.
  - intros Hp. apply in_map_iff in Hp as [[x y] [[= <- <-] Hxy]].
    destruct (in_gather_pairs _ _ _ _ _ Eg Hxy) as (a & b & Hab & Ha & Hb).
    apply in_map_iff in Hab as [[r c] [[= <- <-] Hrc]].
    destruct (in_nonzero_places _ _ _ Hrc) as [v [Hv Hnz]].
    destruct (submatrix_entry _ _ _ _ _ _ Es Hv) as (a' & b' & Ha' & Hb' & He).
    simpl in Ha, Hb.
    assert (a' = y) by congruence. assert (b' = x) by congruence. subst.
    split; [eapply index_in; eauto|]. split; [eapply index_in; eauto|].
    eauto.
  - intros [Hi [Hj [v [Hv Hnz]]]].
    destruct (in_index _ _ Hi) as [r Hr]. destruct (in_index _ _ Hj) as [c Hc].
    apply in_map_iff. exists (j, i). split; [reflexivity|].
    apply (gather_pairs_in arom _ gathered c r j i Eg); auto.
    apply in_map_iff. exists (r, c). split; [reflexivity|].
    apply nonzero_places_iff. exists v. split; [|exact Hnz].
    now rewrite (submatrix_entry_fwd m sub arom r c i j Es Hr Hc).
Qed.

(** Each update pairs a place with a function of its current entry. *)
Lemma combine_gather_nd (f : Q -> Q) (m : matrix) :
  forall idxs cur i j w,
    gather_nd m idxs = Some cur ->
    In ((i, j), w) (combine idxs (map f cur)) ->
    exists v, entry m i j = Some v /\ w = f v.
Proof.
  induction idxs as [|[a b] idxs IH]; intros cur i j w; simpl; [tauto|].
  destruct (entry m a b) as [v|] eqn:Ev; [|discriminate].
  destruct (gather_nd m idxs) as [vs|] eqn:Eg; [|discriminate].
  intros [= <-]. simpl. intros [[= <- <- <-]|Hin]; [eauto|].
  eapply IH; eauto.
Qed.

Lemma aromaticity_entries (n : nat) (m : matrix) (arom : list Z) :
  square n m ->
  Forall (fun a => 0 <= a < Z.of_nat n) arom ->
  exists m',
    aromaticity m arom = Some m'
    /\ forall i j v,
         entry m i j = Some v ->
         entry m' i j
         = Some (if aromatic_bond arom i j v
                 then if Qle_bool 1 v then (v + (1 # 2))%Q else v
                 else v).
Proof.
  intros Hsq Harom. unfold aromaticity.
  destruct (submatrix_some n m arom Hsq Harom) as [sub Es]. rewrite Es.
  destruct (gather_pairs_some arom
              (map (fun rc : Z * Z => (snd rc, fst rc)) (nonzero_places sub)))
    as [gathered Eg].
  { intros a b Hab. apply in_map_iff in Hab as [[r c] [[= <- <-] Hrc]].
    destruct (in_nonzero_places _ _ _ Hrc) as [v [Hv _]].
    destruct (submatrix_entry _ _ _ _ _ _ Es Hv) as (a' & b' & Ha' & Hb' & _).
    simpl. eauto. }
  rewrite Eg.
  pose proof (aromatic_places m sub arom gathered Es Eg) as Hplaces.
  set (current := map (fun p : Z * Z => (snd p, fst p)) gathered) in *.
  assert (Hinside : Forall (inside n) current).
  { apply Forall_forall. intros [i j] Hin. apply Hplaces in Hin as [Hi [Hj _]].
    rewrite Forall_forall in Harom. split; simpl; auto. }
  destruct (gather_nd_some n m current Hsq Hinside) as [cur [Ec [Hlen _]]].
  rewrite Ec.
  destruct (scatter_some n current m
              (map (fun o => if Qle_bool 1 o then (o + (1 # 2))%Q else o) cur)
              Hsq) as [m' E]; [now rewrite length_map|assumption|].
  exists m'. split; [exact E|].
  intros i j v Hv. destruct (aromatic_bond arom i j v) eqn:Hb.
  - unfold aromatic_bond in Hb.
    apply andb_true_iff in Hb as [Hb Hnz]. apply andb_true_iff in Hb as [Hi Hj].
    apply existsb_exists in Hi as [i' [Hi Ei]].
    apply existsb_exists in Hj as [j' [Hj Ej]].
    apply Z.eqb_eq in Ei, Ej. subst i' j'. apply negb_true_iff in Hnz.
    eapply scatter_const; [exact E| |].
    + apply Hplaces. eauto.
    + intros w Hw.
      destruct (combine_gather_nd _ m current cur i j w Ec Hw) as [v' [Hv' ->]].
      assert (v' = v) by congruence. now subst.
  - rewrite (scatter_other _ _ _ _ _ _ E); [exact Hv|].
    intros Hin. apply Hplaces in Hin as [Hi [Hj [v' [Hv' Hnz]]]].
    assert (v' = v) by congruence. subst v'.
    unfold aromatic_bond in Hb. rewrite Hnz in Hb.
    assert (existsb (Z.eqb i) arom = true)
      by (apply existsb_exists; exists i; split; [assumption|apply Z.eqb_refl]).
    assert (existsb (Z.eqb j) arom = true)
      by (apply existsb_exists; exists j; split; [assumption|apply Z.eqb_refl]).
    rewrite H, H0 in Hb. discriminate.
Qed.

(** X11.  The aromaticity pass on an [n] by [n] adjacency map, the
    aromatic atoms being atom indices: it succeeds; an existing bond
    (a nonzero entry) between two aromatic atoms gains one half when
    its order is at least 1 and stays as it is below 1; every other
    entry is unchanged, so no bond is created and no bond to a
    non-aromatic atom is touched. *)
Theorem aromatic_bonds (n : nat) (m : matrix) (arom : list Z) :
  square n m ->
  Forall (fun a => 0 <= a < Z.of_nat n) arom ->
  exists m',
    aromaticity m arom = Some m'
    /\ forall i j v,
         entry m i j = Some v ->
         entry m' i j
         = Some (if aromatic_bond arom i j v
                 then if Qle_bool 1 v then (v + (1 # 2))%Q else v
                 else v).
Proof. exact (aromaticity_entries n m arom). Qed.

(** Three atoms in a chain, the first two aromatic: the bond between
    them becomes 3/2, the bond to the third atom stays 1. *)
Lemma aromatic_bonds_witness :
  exists m',
    aromaticity (chain_matrix 3) [0; 1] = Some m'
    /\ entry m' 0 1 = Some (1 + (1 # 2))%Q
    /\ entry m' 1 2 = Some 1%Q.
Proof.
  destruct (aromatic_bonds 3 (chain_matrix 3) [0; 1]) as [m' [E H]].
  - split; [reflexivity|]. repeat constructor.
  - repeat constructor; lia.
  - exists m'. split; [exact E|].
    split; [exact (H 0 1 1%Q eq_refl)|exact (H 1 2 1%Q eq_refl)].
Defined.

End Aromatic.

(** ** What the conjugation pass may change *)
Module Conjugated.
Import Tensor TensorFacts FromSmiles Vocabulary Resolver Triangle Aromatic.

Local Open Scope Z_scope.

Lemma in_mask_from (mask : list bool) : forall (len s : nat) (k : Z),
  In k (boolean_mask (map Z.of_nat (seq s len)) mask) ->
  Z.of_nat s <= k /\ nth_error mask (Z.to_nat k - s) = Some true.
Proof.
  induction mask as [|b mask IH]; intros [|len] s k; simpl; try tauto.
  assert (Hrest : In k (boolean_mask (map Z.of_nat (seq (S s) len)) mask) ->
                  Z.of_nat s <= k
                  /\ nth_error (b :: mask) (Z.to_nat k - s) = Some true).
  { intros H. destruct (IH len (S s) k H) as [Hk Hn]. split; [lia|].
    replace (Z.to_nat k - s)%nat with (S (Z.to_nat k - S s)) by lia.
    exact Hn. }
  destruct b; [|exact Hrest].
  intros [<-|H]; [|auto].
  rewrite Nat2Z.id, Nat.sub_diag. split; [lia|reflexivity].
Qed.

Lemma in_mask_rows {A : Type} (g : A -> bool) (n : Z) (l : list A) (a : Z) :
  In a (boolean_mask (range n) (map g l)) ->
  exists row, index l a = Some row /\ g row = true.
Proof.
  unfold range. intros H. apply in_mask_from in H as [Ha Hn].
  rewrite Nat.sub_0_r, nth_error_map in Hn.
  destruct (nth_error l (Z.to_nat a)) as [row|] eqn:E; [|discriminate].
  exists row. split; [|now injection Hn].
  unfold index. destruct (Z.ltb_spec a 0); [lia|exact E].
Qed.

Lemma in_mask_gather {A : Type} (f : A -> bool) (l : list A) :
  forall idxs xs a,
    gather l idxs = Some xs -> In a (boolean_mask idxs (map f xs)) ->
    In a idxs /\ exists e, index l a = Some e /\ f e = true.
Proof.
  induction idxs as [|i idxs IH]; intros xs a; simpl; [tauto|].
  destruct (index l i) as [x|] eqn:Ei; [|discriminate].
  destruct (gather l idxs) as [ys|] eqn:Eg; [|discriminate].
  intros [= <-]. simpl. destruct (f x) eqn:Ef.
  - intros [<-|H]; [split; [now left|eauto]|].
    destruct (IH ys a eq_refl H) as [Hin He]. split; [now right|exact He].
  - intros H. destruct (IH ys a eq_refl H) as [Hin He].
    split; [now right|exact He].
Qed.

Lemma in_candidates (n : Z) (ats : list Z) (m : matrix) (arom sp : list Z)
  (a : Z) :
  sp2_candidates n ats (full m) arom = Some sp -> In a sp ->
  sp2_atom ats m arom a.
Proof.
  unfold sp2_candidates.
  destruct (gather ats _) as [elements|] eqn:Eg; [|discriminate].
  intros [= <-] Hin.
  destruct (in_mask_gather _ _ _ _ _ Eg Hin) as [Ha [e [He Hcno]]].
  split.
  - apply in_app_or in Ha as [Ha|Ha]; [right|now left].
    exact (in_mask_rows _ _ _ _ Ha).
  - exists e. split; [exact He|]. lia.
Qed.

Lemma in_system_places (S : list Z) (a b : Z) :
  In (a, b) (system_places S) -> In a S /\ In b S.
Proof.
  unfold system_places. intros H. apply in_flat_map in H as [x [Hx H]].
  apply in_map_iff in H as [y [[= <- <-] Hy]]. auto.
Qed.

Lemma systems_loop_updates (m : matrix) sp adj :
  forall systems acc accv ups,
    systems_loop m sp adj systems acc accv = Some ups ->
    exists extra,
      fst ups = acc ++ extra
      /\ Forall (fun p => In (fst p) sp /\ In (snd p) sp
                          /\ exists v, entry m (fst p) (snd p) = Some v
                                       /\ positive v = true) extra.
Proof.
  induction systems as [|system rest IH]; intros acc accv ups; simpl.
  - intros [= <-]. exists []. split; [now rewrite app_nil_r|constructor].
  - destruct (system_update m sp adj system) as [up|] eqn:Eu; [|discriminate].
    intros H. destruct (IH _ _ _ H) as [extra [-> Hall]].
    exists (fst up ++ extra). split; [now rewrite app_assoc|].
    apply Forall_app. split; [|exact Hall].
    unfold system_update in Eu.
    destruct (gather sp _) as [S|] eqn:Es; [|discriminate].
    destruct (submatrix adj _); [|discriminate].
    destruct (gather_nd m _) as [orders|] eqn:Eo; [|discriminate].
    injection Eu as <-. cbn [fst]. apply Forall_forall. intros [a b] Hin.
    pose proof (in_boolean_mask _ _ _ Hin) as Hp.
    apply in_system_places in Hp as [Ha Hb]. simpl.
    split; [eapply in_gather; eauto|]. split; [eapply in_gather; eauto|].
    exact (in_positive_places _ _ _ _ _ Eo Hin).
Qed.

Lemma place_dec (p q : Z * Z) : {p = q} + {p <> q}.
Proof. decide equality; apply Z.eq_dec. Qed.

(** X12.  The conjugation pass changes an entry only where a bond
    exists (a positive order) and both atoms entered the search: each
    is aromatic or on a bond of order two, and is carbon, nitrogen or
    oxygen.  It creates no bond and touches no bond of any other
    atom. *)
Theorem conjugation_frame
  (n : Z) (ats : list Z) (m m' : matrix) (arom : list Z) (i j : Z) :
  conjugation n ats m arom = Some m' ->
  entry m' i j <> entry m i j ->
  (exists v, entry m i j = Some v /\ positive v = true)
  /\ sp2_atom ats m arom i /\ sp2_atom ats m arom j.
Proof.
  unfold conjugation.
  destruct (sp2_candidates n ats (full m) arom) as [sp|] eqn:Ec;
    [|discriminate].
  destruct (submatrix (full m) sp) as [adj|]; [|discriminate].
  destruct (conjugate_systems sp adj) as [systems|]; [|discriminate].
  destruct (systems_loop m sp adj systems _ _) as [ups|] eqn:Eu;
    [|discriminate].
  destruct (systems_loop_updates _ _ _ _ _ _ _ Eu) as [extra [-> Hall]].
  cbn [app tl]. intros E Hne.
  destruct (in_dec place_dec (i, j) extra) as [Hin|Hnin].
  - rewrite Forall_forall in Hall.
    destruct (Hall _ Hin) as [Hi [Hj Hv]]. simpl in Hi, Hj, Hv.
    split; [exact Hv|]. split; eapply in_candidates; eauto.
  - exfalso. apply Hne. exact (scatter_other _ _ _ _ _ _ E Hnin).
Qed.

(** Butadiene after the bond-order stage: the conjugation pass changes
    the bond (0, 1), whose atoms are both on a bond of order two. *)
Lemma conjugation_frame_witness :
  sp2_atom [0; 0; 0; 0]
    [[0; 2; 0; 0]; [0; 0; 1; 0]; [0; 0; 0; 2]; [0; 0; 0; 0]]%Q [] 1.
Proof.
  assert (E : exists m',
             conjugation 4 [0; 0; 0; 0]
               [[0; 2; 0; 0]; [0; 0; 1; 0]; [0; 0; 0; 2]; [0; 0; 0; 0]]%Q []
             = Some m'
             /\ entry m' 0 1
                <> entry [[0; 2; 0; 0]; [0; 0; 1; 0]; [0; 0; 0; 2];
                          [0; 0; 0; 0]]%Q 0 1).
  { eexists. split; [vm_compute; reflexivity|].
    vm_compute. intros H. discriminate H. }
  destruct E as [m' [E Hne]].
  exact (proj2 (proj2 (conjugation_frame 4 _ _ m' [] 0 1 E Hne))).
Defined.

End Conjugated.

(** ** Bond markers: what is left alone, and when the stage raises *)
Module Markers.
Import Tensor TensorFacts FromSmiles Vocabulary Resolver.

Local Open Scope char_scope.
Local Open Scope Z_scope.

Lemma set_entry_outside (n : nat) (m : matrix) (i j : Z) (v : Q) :
  square n m -> ~ inside n (i, j) -> set_entry m i j v = None.
Proof.
  intros Hs Hout. unfold set_entry.
  destruct (index m i) as [row|] eqn:Ei; [|reflexivity].
  destruct (index row j) as [x|] eqn:Ej; [|reflexivity].
  exfalso. apply Hout. apply (entry_inv n m i j x Hs).
  unfold entry. now rewrite Ei.
Qed.

(** An update outside the tensor makes the whole scatter raise. *)
Lemma scatter_outside (n : nat) idxs : forall (m : matrix) vals p,
  square n m -> In p idxs -> ~ inside n p ->
  scatter_nd_update m idxs vals = None.
Proof.
  induction idxs as [|[i j] idxs IH]; intros m [|v vals] p Hs Hin Hout;
    simpl; try reflexivity; try (destruct Hin; fail).
  destruct (set_entry m i j v) as [m1|] eqn:E; [|reflexivity].
  destruct Hin as [<-|Hin].
  - now rewrite (set_entry_outside n m i j v Hs Hout) in E.
  - apply (IH m1 vals p); auto. eapply set_entry_square; eauto.
Qed.

(** X13.  The bond-order stage changes nothing but the bonds right
    after a marker: an entry [(i, j)] keeps its value unless [j] is
    [i + 1] and [i] is the anchor of a double- or triple-bond
    marker. *)
Theorem bond_orders_frame
  (m m' : matrix) (chrs : list ascii) (idxs : list Z) (i j : Z) :
  List.length chrs = List.length idxs ->
  bond_orders m chrs idxs = Some m' ->
  (j <> i + 1
   \/ forall p c, nth_error chrs p = Some c -> c = "=" \/ c = "#" ->
                  nth_error idxs p <> Some i) ->
  entry m' i j = entry m i j.
Proof.
  intros Hl. unfold bond_orders. rewrite !marked_eq by assumption.
  destruct (scatter_nd_update m _ _) as [m1|] eqn:E1; [|discriminate].
  intros E2 Hfree.
  assert (Hout : forall c, c = "=" \/ c = "#" ->
            ~ In (i, j)
                (map (fun a => (a, a + 1))
                   (boolean_mask idxs (map (Ascii.eqb c) chrs)))).
  { intros c Hc Hin. apply in_map_iff in Hin as [a [[= <- <-] Ha]].
    apply in_marked in Ha as [p [Hp Ha]].
    destruct Hfree as [Hj|Hno]; [now apply Hj|].
    exact (Hno p c Hp Hc Ha). }
  rewrite (scatter_other _ _ _ _ _ _ E2) by (apply Hout; now right).
  apply (scatter_other _ _ _ _ _ _ E1). apply Hout. now left.
Qed.

(** The topology stream of "CC=CC": the chain bond (2, 3) is kept. *)
Lemma bond_orders_frame_witness :
  exists m',
    bond_orders (chain_matrix 4) ["="] [1] = Some m'
    /\ entry m' 2 3 = Some 1%Q.
Proof.
  destruct (bond_orders (chain_matrix 4) ["="] [1]) as [m'|] eqn:E;
    [|vm_compute in E; discriminate E].
  exists m'. split; [reflexivity|].
  rewrite (bond_orders_frame (chain_matrix 4) m' ["="] [1] 2 3 eq_refl E).
  - reflexivity.
  - right. intros [|[|p]] c Hp _; simpl in *; discriminate.
Defined.

Lemma bond_orders_outside
  (n : nat) (m : matrix) (chrs : list ascii) (idxs : list Z)
  (p : nat) (c : ascii) (a : Z) :
  square n m ->
  List.length chrs = List.length idxs ->
  nth_error chrs p = Some c -> c = "=" \/ c = "#" ->
  nth_error idxs p = Some a ->
  ~ (0 <= a /\ a + 1 < Z.of_nat n) ->
  bond_orders m chrs idxs = None.
Proof.
  intros Hs Hl Hp Hc Ha Hout. unfold bond_orders.
  rewrite !marked_eq by assumption.
  assert (Hin : In (a, a + 1)
                  (map (fun a => (a, a + 1))
                     (boolean_mask idxs (map (Ascii.eqb c) chrs)))).
  { apply in_map_iff. exists a. split; [reflexivity|].
    apply in_marked. eauto. }
  assert (Hno : ~ inside n (a, a + 1)).
  { intros [H1 H2]. simpl in H1, H2. apply Hout. lia. }
  destruct Hc as [->| ->].
  - now rewrite (scatter_outside n _ m _ (a, a + 1) Hs Hin Hno).
  - destruct (scatter_nd_update m _ _) as [m1|] eqn:E1; [|reflexivity].
    apply (scatter_outside n _ m1 _ (a, a + 1)); auto.
    eapply scatter_square; eauto.
Qed.

(** X14.  A double- or triple-bond marker that is not flanked by two
    atoms (it comes before the first atom, or after the last one)
    makes the bond-order stage raise. *)
Theorem dangling_bond_marker
  (n : nat) (m : matrix) (chrs : list ascii) (idxs : list Z)
  (p : nat) (c : ascii) (a : Z) :
  square n m ->
  List.length chrs = List.length idxs ->
  nth_error chrs p = Some c -> c = "=" \/ c = "#" ->
  nth_error idxs p = Some a ->
  ~ (0 <= a /\ a + 1 < Z.of_nat n) ->
  bond_orders m chrs idxs = None.
Proof. exact (bond_orders_outside n m chrs idxs p c a). Qed.

(** The topology stream of "CC=": the marker has no atom after it. *)
Lemma dangling_bond_marker_witness :
  bond_orders (chain_matrix 2) ["="] [1] = None.
Proof.
  apply (dangling_bond_marker 2 (chain_matrix 2) ["="] [1] 0 "=" 1).
  - split; [reflexivity|]. repeat constructor.
  - reflexivity.
  - reflexivity.
  - now left.
  - reflexivity.
  - simpl. lia.
Defined.

End Markers.

(** ** When the branch stage raises *)
Module Brackets.
Import Tensor TensorFacts FromSmiles Vocabulary Resolver Triangle Aromatic.

Local Open Scope char_scope.
Local Open Scope Z_scope.

(** The scan records anchors only. *)
Lemma bracket_loop_anchors (idxs : list Z) :
  forall chrs idx queue acc pairs,
    acc <> [] ->
    Forall (fun p => In (fst p) idxs /\ In (snd p) idxs) (tl acc) ->
    bracket_loop idxs chrs idx queue acc = Some pairs ->
    Forall (fun p => In (fst p) idxs /\ In (snd p) idxs) (tl pairs).
Proof.
  induction chrs as [|c chrs IH]; intros idx queue acc pairs Hne Hacc;
    cbn [bracket_loop].
  - now intros [= <-].
  - cbv zeta.
    set (st := if Ascii.eqb c "(" then if_left idx queue acc
               else (queue, acc)).
    assert (Hst : snd st = acc)
      by (unfold st; destruct (Ascii.eqb c "("); reflexivity).
    destruct (Ascii.eqb c ")").
    + unfold if_right.
      destruct (index idxs idx) as [r|] eqn:Er; [|discriminate].
      destruct (nth_error (rev (fst st)) 0) as [top|]; [|discriminate].
      destruct (index idxs top) as [l|] eqn:El; [|discriminate].
      cbn [fst snd]. rewrite Hst. apply IH.
      * destruct acc; [contradiction|discriminate].
      * destruct acc as [|a0 acc]; [contradiction|]. cbn [app tl] in *.
        apply Forall_app. split; [exact Hacc|].
        repeat constructor; simpl; eapply index_in; eauto.
    + apply IH; rewrite Hst; assumption.
Qed.

Lemma index_forall {A : Type} (P : A -> Prop) (l : list A) :
  Forall P l <-> forall k x, index l k = Some x -> P x.
Proof.
  rewrite Forall_forall. split.
  - intros H k x Hk. apply H. eapply index_in; eauto.
  - intros H x Hx. destruct (in_index _ _ Hx) as [k Hk]. eauto.
Qed.

(** The overlap pass moves anchors around; it invents none. *)
Lemma process_forall (P : Z -> Prop) (rights : list Z) ovs :
  forall lefts final,
    List.length lefts = List.length rights ->
    Forall P lefts ->
    process_overlaps rights ovs lefts = Some final ->
    Forall P final.
Proof.
  induction ovs as [|[i j] ovs IH]; intros lefts final Hl HP; simpl.
  - now intros [= <-].
  - destruct (index lefts i) as [v|] eqn:Hv.
    + destruct (process_step rights lefts i j v Hl Hv) as [l' [E [Hl' Hk]]].
      rewrite E. apply IH; [congruence|].
      apply index_forall. intros k x Hx. rewrite Hk in Hx.
      rewrite index_forall in HP.
      destruct (k =? j).
      * destruct (index lefts k); [|discriminate]. simpl in Hx.
        injection Hx as <-. eauto.
      * eauto.
    + unfold process_right_left_overlap. cbn [fst]. rewrite Hv. discriminate.
Qed.

Lemma branches_some (n : nat) (m : matrix) chrs idxs pairs :
  square n m ->
  (forall a, In a idxs -> 0 <= a < Z.of_nat n) ->
  bracket_pairs chrs idxs = Some pairs ->
  exists m', branches (Z.of_nat n) m chrs idxs = Some m'.
Proof.
  intros Hsq Hanchor Ep. unfold branches. rewrite Ep.
  assert (Hpairs : Forall (fun p => In (fst p) idxs /\ In (snd p) idxs) pairs).
  { unfold bracket_pairs in Ep.
    destruct (bracket_loop idxs chrs 0 [] [(-1, -1)]) as [ps|] eqn:E;
      [|discriminate].
    injection Ep as <-.
    eapply (bracket_loop_anchors idxs chrs 0 [] [(-1, -1)]); eauto;
      try discriminate; constructor. }
  unfold discard_trailing. rewrite boolean_mask_map.
  set (rights := filter _ (map snd pairs)).
  set (lefts := firstn (List.length rights) (map fst pairs)).
  assert (Hrights : Forall (fun r => 0 <= r /\ r + 1 < Z.of_nat n) rights).
  { apply Forall_forall. intros r Hr. apply filter_In in Hr as [Hr Hlast].
    apply in_map_iff in Hr as [pr [<- Hpr]].
    rewrite Forall_forall in Hpairs. destruct (Hpairs _ Hpr) as [_ Hin].
    apply Hanchor in Hin. apply negb_true_iff, Z.eqb_neq in Hlast. lia. }
  assert (Hlefts : Forall (fun l => 0 <= l < Z.of_nat n) lefts).
  { apply Forall_forall. intros l Hin. apply In_nth_error in Hin as [k Hk].
    apply nth_error_firstn_some, nth_error_In in Hk. rename Hk into Hin.
    apply in_map_iff in Hin as [pr [<- Hpr]].
    rewrite Forall_forall in Hpairs. destruct (Hpairs _ Hpr) as [Hin _].
    now apply Hanchor. }
  assert (Hlen : List.length lefts = List.length rights).
  { unfold lefts. rewrite length_firstn, length_map.
    pose proof (filter_length_le (fun r => negb (r =? Z.of_nat n - 1))
                  (map snd pairs)) as H.
    fold rights in H. rewrite length_map in H. lia. }
  destruct (process_some rights (left_right_overlaps lefts rights) lefts Hlen)
    as [final [Ef Hfl]].
  { intros i j Hin. apply in_overlaps in Hin as [r [Hr _]].
    apply index_inv in Hr. tauto. }
  rewrite Ef.
  pose proof (process_forall _ rights _ lefts final Hlen Hlefts Ef) as Hfinal.
  unfold rewire.
  destruct (gather_nd_some n m (map (fun r => (r, r + 1)) rights) Hsq)
    as [cur [Ec [Hcl _]]].
  { apply Forall_forall. intros pr Hin. apply in_map_iff in Hin as [r [<- Hr]].
    rewrite Forall_forall in Hrights. specialize (Hrights r Hr).
    split; simpl; lia. }
  rewrite Ec. rewrite length_map in Hcl.
  destruct (scatter_some n (map (fun r => (r, r + 1)) rights) m
              (map (fun _ => 0%Q) cur) Hsq) as [m1 E1].
  { rewrite !length_map. lia. }
  { apply Forall_forall. intros pr Hin. apply in_map_iff in Hin as [r [<- Hr]].
    rewrite Forall_forall in Hrights. specialize (Hrights r Hr).
    split; simpl; lia. }
  rewrite E1.
  apply (scatter_some n); [eapply scatter_square; eauto| |].
  - rewrite length_zip_with. lia.
  - apply Forall_forall. intros pr Hin.
    apply in_zip_with_nth in Hin as [k [l [r [Hl [Hr ->]]]]].
    apply nth_error_In in Hl, Hr.
    rewrite Forall_forall in Hrights, Hfinal.
    specialize (Hrights r Hr). specialize (Hfinal l Hl).
    split; simpl; lia.
Qed.

(** X15.  On a square adjacency map and aligned topology tensors whose
    anchors are all atom indices, the branch stage raises exactly when
    a closing bracket has no opening bracket pending; in every other
    case (opening brackets left open included) it returns a map. *)
Theorem branch_stage_raises
  (n : nat) (m : matrix) (chrs : list ascii) (idxs : list Z) :
  square n m ->
  List.length chrs = List.length idxs ->
  (forall a, In a idxs -> 0 <= a < Z.of_nat n) ->
  (branches (Z.of_nat n) m chrs idxs = None <-> unmatched_close 0 chrs)
  /\ (~ unmatched_close 0 chrs ->
      exists m', branches (Z.of_nat n) m chrs idxs = Some m').
Proof.
  intros Hsq Hl Hanchor.
  assert (Hscan : bracket_pairs chrs idxs = None <-> unmatched_close 0 chrs).
  { unfold bracket_pairs.
    destruct (Scan.bracket_loop_spec idxs chrs 0 [] [(-1, -1)])
      as [Hnone _]; try lia.
    { intros q []. }
    rewrite <- Hnone.
    destruct (bracket_loop idxs chrs 0 [] [(-1, -1)]); split; congruence. }
  destruct (bracket_pairs chrs idxs) as [pairs|] eqn:Ep.
  - destruct (branches_some n m chrs idxs pairs Hsq Hanchor Ep) as [m' E].
    split; [|eauto]. rewrite E. split; [discriminate|].
    intros H. apply Hscan in H. discriminate.
  - assert (E : branches (Z.of_nat n) m chrs idxs = None)
      by (unfold branches; now rewrite Ep).
    split.
    + split; [intros _; now apply Hscan|auto].
    + intros H. exfalso. apply H. now apply Hscan.
Qed.

(** The topology stream of "CC)C": the bracket closes nothing. *)
Lemma branch_stage_raises_witness :
  branches 3 (chain_matrix 3) [")"] [1] = None.
Proof.
  destruct (branch_stage_raises 3 (chain_matrix 3) [")"] [1]) as [H _].
  - split; [reflexivity|]. repeat constructor.
  - reflexivity.
  - intros a Ha. simpl in Ha. lia.
  - apply H. apply Scan.unmatched_at_once.
Defined.

(** X16.  A branch that closes on the last atom is dropped: when every
    recorded closing bracket is anchored at atom [n_atoms - 1], the
    branch stage returns the adjacency map as it is, so the atoms of
    a trailing branch stay bonded along the chain. *)
Theorem trailing_branch_dropped
  (n_atoms : Z) (m : matrix) (chrs : list ascii) (idxs : list Z)
  (pairs : list (Z * Z)) :
  bracket_pairs chrs idxs = Some pairs ->
  Forall (fun p => snd p = n_atoms - 1) pairs ->
  branches n_atoms m chrs idxs = Some m.
Proof.
  intros Ep Hall. unfold branches. rewrite Ep.
  unfold discard_trailing. rewrite boolean_mask_map.
  assert (Hnone : filter (fun r => negb (r =? n_atoms - 1)) (map snd pairs)
                  = []).
  { clear Ep. induction Hall as [|p ps Hp _ IH]; [reflexivity|].
    cbn [map filter]. rewrite Hp, Z.eqb_refl. exact IH. }
  rewrite Hnone. reflexivity.
Qed.

(** The topology stream of "CC(C)": the branch closes on atom 2, the
    last one. *)
Lemma trailing_branch_dropped_witness :
  branches 3 (chain_matrix 3) ["("; ")"] [1; 2] = Some (chain_matrix 3).
Proof.
  apply (trailing_branch_dropped 3 (chain_matrix 3) ["("; ")"] [1; 2]
           [(1, 2)]).
  - reflexivity.
  - repeat constructor.
Defined.

End Brackets.

(** ** Aromatic atoms of a decoded molecule *)
Module Lowercase.
Import Tensor TensorFacts FromSmiles Vocabulary Resolver Atoms Aromatic.

Local Open Scope char_scope.
Local Open Scope Z_scope.

Lemma in_where_from (mask : list bool) : forall (s p : Z),
  In p (where_from s mask) <->
  s <= p /\ nth_error mask (Z.to_nat (p - s)) = Some true.
Proof.
  induction mask as [|b mask IH]; intros s p.
  - simpl. split; [tauto|]. intros [_ H].
    destruct (Z.to_nat (p - s)); discriminate.
  - assert (Hrest : In p (where_from (s + 1) mask) <->
                    s < p /\ nth_error (b :: mask) (Z.to_nat (p - s))
                             = Some true).
    { rewrite IH. split; intros [Hp Hn]; (split; [lia|]).
      - replace (Z.to_nat (p - s)) with (S (Z.to_nat (p - (s + 1)))) by lia.
        exact Hn.
      - replace (Z.to_nat (p - s)) with (S (Z.to_nat (p - (s + 1)))) in Hn
          by lia.
        exact Hn. }
    cbn [where_from]. destruct b.
    + cbn [In]. rewrite Hrest. split.
      * intros [<-|[Hp Hn]]; [|split; [lia|exact Hn]].
        rewrite Z.sub_diag. split; [lia|reflexivity].
      * intros [Hp Hn]. destruct (Z.eq_dec s p) as [->|Hne]; [now left|].
        right. split; [lia|exact Hn].
    + rewrite Hrest. split; intros [Hp Hn]; (split; [try lia|exact Hn]).
      destruct (Z.eq_dec s p) as [->|Hne]; [|lia].
      rewrite Z.sub_diag in Hn. discriminate.
Qed.

Lemma in_where (mask : list bool) (p : Z) :
  In p (tf_where mask) <-> index mask p = Some true.
Proof.
  unfold tf_where. rewrite in_where_from, Z.sub_0_r. unfold index.
  destruct (Z.ltb_spec p 0); split; try lia; try tauto; try discriminate.
Qed.

(** The aromatic marking rewrites character by character. *)
Lemma aromatic_marks_map (s : list ascii) :
  aromatic_marks s
  = map (fun c => if in_chars c ["c"; "n"; "o"; "p"] then "A" else c) s.
Proof.
  unfold aromatic_marks, regex_replace_chars.
  induction s as [|c s IH]; [reflexivity|]. cbn [flat_map map].
  rewrite IH. destruct (in_chars c ["c"; "n"; "o"; "p"]); reflexivity.
Qed.

Lemma atoms_only_in (s : list ascii) (c : ascii) :
  In c (atoms_only s) -> In c s.
Proof.
  unfold atoms_only, regex_replace_chars. intros H.
  apply in_flat_map in H as [d [Hd H]].
  destruct (in_chars d TOPOLOGY_MARKS); [destruct H|].
  destruct H as [<-|[]]. exact Hd.
Qed.

Lemma decoded_aromatic (smiles : string) (st : stages) (k : Z) :
  decode smiles = Some st ->
  In k (aromatic st) <->
  exists c, index (atoms_only (prepared smiles)) k = Some c
            /\ in_chars c ["c"; "n"; "o"; "p"] = true.
Proof.
  intros H.
  destruct (decode_inputs smiles st H) as [_ [_ [_ [_ [-> _]]]]].
  unfold aromatic_idxs. rewrite in_where, aromatic_marks_map, !index_map.
  destruct (index (atoms_only (prepared smiles)) k) as [c|] eqn:Ec;
    cbn [option_map].
  - destruct (in_chars c ["c"; "n"; "o"; "p"]) eqn:Hc.
    + split; [intros _; exists c; auto|reflexivity].
    + split.
      * intros Hsome. assert (Heq : Ascii.eqb "A" c = true) by congruence.
        apply Ascii.eqb_eq in Heq. subst c.
        apply index_in, atoms_only_in in Ec.
        pose proof (decoded_supported smiles st H) as Hs.
        rewrite Forall_forall in Hs. specialize (Hs _ Ec). discriminate.
      * intros [d [[= <-] Hd]]. congruence.
  - split; [discriminate|]. intros [c [[=] _]].
Qed.

(** X17.  In a decoded molecule the aromatic atoms are exactly the
    atoms written with one of the lowercase letters c, n, o, p (a
    lowercase s is an atom, but not an aromatic one), and the
    aromaticity pass adds one half to each existing bond of order at
    least 1 between two of them and leaves every other entry of the
    map as the ring stage left it. *)
Theorem decoded_aromatic_bonds (smiles : string) (st : stages) :
  decode smiles = Some st ->
  (forall k,
      In k (aromatic st) <->
      exists c, index (atoms_only (prepared smiles)) k = Some c
                /\ in_chars c ["c"; "n"; "o"; "p"] = true)
  /\ forall i j v,
       entry (after_rings st) i j = Some v ->
       entry (after_aromaticity st) i j
       = Some (if aromatic_bond (aromatic st) i j v
               then if Qle_bool 1 v then (v + (1 # 2))%Q else v
               else v).
Proof.
  intros H. split; [intros k; now apply decoded_aromatic|].
  assert (Hlen : List.length (atoms_only (prepared smiles))
                 = Z.to_nat (n_atoms st)).
  { destruct (decode_inputs smiles st H) as [_ [Hn _]].
    rewrite Hn. unfold prepared. rewrite <- count_atoms_normalize.
    rewrite count_supported by exact (decoded_supported smiles st H).
    now rewrite Nat2Z.id. }
  destruct (decoded_square smiles st H) as [_ [_ [S3 _]]].
  destruct (aromaticity_entries _ (after_rings st) (aromatic st) S3)
    as [m' [E Hm']].
  { apply Forall_forall. intros k Hk.
    apply (decoded_aromatic smiles st k H) in Hk as [c [Hc _]].
    apply index_inv in Hc as [Hc _]. lia. }
  destruct (decode_stages smiles st H) as [_ [_ [_ [E' _]]]].
  assert (m' = after_aromaticity st) by congruence. subst m'. exact Hm'.
Qed.

(** Thiophene, "c1ccsc1": the carbon 0 is aromatic, the sulfur 3 is
    not. *)
Lemma decoded_aromatic_bonds_witness :
  exists st,
    decode "c1ccsc1" = Some st
    /\ In 0 (aromatic st) /\ ~ In 3 (aromatic st).
Proof.
  assert (E : exists st, decode "c1ccsc1" = Some st)
    by (eexists; vm_compute; reflexivity).
  destruct E as [st E]. exists st. split; [exact E|].
  destruct (decoded_aromatic_bonds _ st E) as [H _].
  assert (Hc : atoms_only (prepared "c1ccsc1") = ["c"; "c"; "c"; "s"; "c"])
    by (vm_compute; reflexivity).
  rewrite Hc in H. split.
  - apply H. exists "c". split; reflexivity.
  - intros Hin. apply H in Hin as [c [Hi Hc']].
    simpl in Hi. injection Hi as <-. discriminate Hc'.
Defined.

End Lowercase.

(** ** The search for conjugated systems *)
Module Systems.
Import Tensor TensorFacts FromSmiles Vocabulary Traversal.

Local Open Scope Z_scope.

Lemma members_padding (kept : list Z) (k : nat) :
  Forall (fun x => 0 <= x) kept ->
  members (kept ++ repeat (-1) k) = kept.
Proof.
  intros H. unfold members. rewrite filter_app.
  assert (Hpad : filter (fun x => -1 <? x) (repeat (-1) k) = []).
  { induction k as [|k IH]; [reflexivity|]. simpl. exact IH. }
  rewrite Hpad, app_nil_r.
  induction H as [|x l Hx _ IH]; [reflexivity|].
  simpl. destruct (Z.ltb_spec (-1) x); [|lia]. now rewrite IH.
Qed.

Lemma members_initial (l : list Z) : members (map (fun _ => -1) l) = [].
Proof.
  unfold members. induction l as [|x l IH]; [reflexivity|]. simpl. exact IH.
Qed.

Section Rounds.

Variables (s : nat) (adj : matrix).
Hypothesis Hadj : square s adj.
Hypothesis Hdiag : forall k row x,
    index adj k = Some row -> index row k = Some x -> positive x = false.

(** The row one round of the outer loop appends. *)
Lemma body_outer_row (systems systems' : list (list Z))
  (visited visited' : list bool) :
  List.length visited = s ->
  loop_body_outer adj systems visited = Some (systems', visited') ->
  exists row, systems' = systems ++ [row] /\ system_row s row.
Proof.
  intros Hl. unfold loop_body_outer.
  pose proof Hadj as [Hla _]. rewrite Hla, Hl. fold (pending s visited).
  destruct (nth_error (pending s visited) 0) as [first|] eqn:Ef;
    [|discriminate].
  assert (Hfirst : index visited first = Some false).
  { apply (in_pending s); auto. eapply nth_error_In; eauto. }
  destruct (inner_loop_some s adj Hadj Hdiag (S s) [first] visited [])
    as [vf [cf [-> [Hlf [_ [_ [Hnd Hcf]]]]]]]; auto.
  - intros q [<-|[]]. exact (flagged_inside s _ _ _ Hl Hfirst).
  - pose proof (length_pending s visited). cbn [List.length]. lia.
  - constructor.
  - intros k [].
  - assert (Hin : Forall (fun k => 0 <= k < Z.of_nat s) cf).
    { apply Forall_forall. intros k Hk.
      exact (flagged_inside s _ _ _ Hlf (Hcf k Hk)). }
    set (kept := if 3 <=? Z.of_nat (List.length cf) then cf else []).
    destruct (s <? List.length kept)%nat; [discriminate|].
    intros [= <- <-]. eexists. split; [reflexivity|].
    unfold system_row. rewrite members_padding.
    + unfold kept. destruct (Z.leb_spec 3 (Z.of_nat (List.length cf))).
      * split; [exact Hnd|]. split; [exact Hin|]. right. lia.
      * split; [constructor|]. split; [constructor|]. now left.
    + unfold kept. destruct (3 <=? _); [|constructor].
      eapply Forall_impl; [|exact Hin]. simpl. intros; lia.
Qed.

Lemma outer_loop_rows : forall fuel systems visited result,
  List.length visited = s ->
  Forall (system_row s) systems ->
  outer_loop fuel adj systems visited = Some result ->
  Forall (system_row s) result.
Proof.
  induction fuel as [|fuel IH]; intros systems visited result Hl Hall;
    cbn [outer_loop]; destruct (existsb negb visited) eqn:He;
    try discriminate; try (now intros [= <-]).
  destruct (body_outer_some s adj Hadj Hdiag systems visited Hl He)
    as [systems' [visited' [E [Hl' _]]]].
  rewrite E. cbn [fst snd].
  destruct (body_outer_row systems systems' visited visited' Hl E)
    as [row [-> Hrow]].
  apply IH; [exact Hl'|]. apply Forall_app. split; [exact Hall|].
  now constructor.
Qed.

End Rounds.

(** X18.  The search for conjugated systems over the candidates, on a
    square sp2 adjacency map without self-bonds: both loops end within
    their bounds and the search returns; every system it returns holds
    at least three candidates, all distinct and all places of the
    candidate tensor (a component of one or two atoms is dropped). *)
Theorem conjugated_search (sp2_idxs : list Z) (adj : matrix) :
  square (List.length sp2_idxs) adj ->
  (forall k row x,
      index adj k = Some row -> index row k = Some x -> positive x = false) ->
  exists systems,
    conjugate_systems sp2_idxs adj = Some systems
    /\ Forall (conjugated_system (List.length sp2_idxs)) systems.
Proof.
  intros Hadj Hdiag. unfold conjugate_systems.
  set (s := List.length sp2_idxs) in *.
  destruct (outer_loop_some s adj Hadj Hdiag s [map (fun _ => -1) sp2_idxs]
              (repeat false s)) as [result E].
  - apply repeat_length.
  - apply length_pending.
  - rewrite E. eexists. split; [reflexivity|].
    assert (Hrows : Forall (system_row s) result).
    { apply (outer_loop_rows s adj Hadj Hdiag s
               [map (fun _ => -1) sp2_idxs] (repeat false s) result);
        [apply repeat_length| |exact E].
      constructor; [|constructor].
      unfold system_row. rewrite members_initial.
      split; [constructor|]. split; [constructor|]. now left. }
    rewrite boolean_mask_map. apply Forall_forall. intros row Hin.
    apply filter_In in Hin as [Hin Hsome].
    rewrite Forall_forall in Hrows.
    destruct (Hrows row Hin) as [Hnd [Hrange [Hnil|Hthree]]].
    + exfalso. apply existsb_exists in Hsome as [k [Hk Hpos]].
      assert (Hm : In k (members row)) by (apply filter_In; auto).
      rewrite Hnil in Hm. destruct Hm.
    + repeat split; assumption.
Qed.

(** The symmetrized bonds of butadiene, all four atoms candidates: one
    system is returned. *)
Lemma conjugated_search_witness :
  exists systems,
    conjugate_systems [0; 1; 2; 3]
      [[0; 2; 0; 0]; [2; 0; 1; 0]; [0; 1; 0; 2]; [0; 0; 2; 0]]%Q
    = Some systems
    /\ Forall (conjugated_system 4) systems.
Proof.
  apply (conjugated_search [0; 1; 2; 3]
           [[0; 2; 0; 0]; [2; 0; 1; 0]; [0; 1; 0; 2]; [0; 0; 2; 0]]%Q).
  - split; [reflexivity|]. repeat constructor.
  - intros k row x Hr Hx.
    assert (Hk : 0 <= k < 4) by (apply index_inv in Hr; simpl in Hr; lia).
    assert (Hc : k = 0 \/ k = 1 \/ k = 2 \/ k = 3) by lia.
    destruct Hc as [-> | [-> | [-> | ->]]]; vm_compute in Hr; injection Hr as <-;
      vm_compute in Hx; injection Hx as <-; reflexivity.
Defined.

End Systems.

(** ** Strings the decoder refuses *)
Module Refusals.
Import Tensor TensorFacts FromSmiles Vocabulary Resolver Atoms Scan Markers.

Local Open Scope char_scope.
Local Open Scope Z_scope.

(** The stream of topology characters is the string without its
    atoms. *)
Lemma topology_characters_eq (s : list ascii) :
  topology_characters (topology_only s)
  = Some (filter (fun c => negb (is_atom c)) s).
Proof.
  unfold topology_characters, topology_positions.
  rewrite gather_where by now rewrite length_map.
  rewrite boolean_mask_map. f_equal.
  unfold topology_only, regex_replace_chars.
  induction s as [|c s IH]; [reflexivity|].
  cbn [flat_map filter]. rewrite filter_app, IH.
  change (negb (is_atom c))
    with (negb (in_chars c ORGANIC_ATOMS || Ascii.eqb c "0")).
  destruct (in_chars c ORGANIC_ATOMS); cbn [filter app orb negb];
    [reflexivity|].
  unfold is_topology. destruct (Ascii.eqb c "0"); reflexivity.
Qed.

(** Characters other than brackets do not matter to the scan. *)
Lemma unmatched_filter (keep : ascii -> bool) (s : list ascii) :
  keep "(" = true -> keep ")" = true ->
  forall d, unmatched_close d (filter keep s) <-> unmatched_close d s.
Proof.
  intros Hopen Hclose. induction s as [|c s IH]; intros d; [reflexivity|].
  cbn [filter].
  destruct (Ascii.eqb_spec c "(") as [->|Hno].
  - rewrite Hopen, !unmatched_open. apply IH.
  - destruct (Ascii.eqb_spec c ")") as [->|Hnc].
    + rewrite Hclose. destruct d as [|d].
      * split; intros _; apply unmatched_at_once.
      * rewrite !unmatched_closed. apply IH.
    + rewrite (unmatched_other d c s) by assumption.
      destruct (keep c); [|apply IH].
      rewrite unmatched_other by assumption. apply IH.
Qed.

(** X19.  A string in which some closing bracket has no opening
    bracket before it is refused: the decoder raises in the branch
    stage, whatever else the string holds. *)
Theorem unmatched_bracket_refused (smiles : string) :
  unmatched_close 0 (prepared smiles) -> decode smiles = None.
Proof.
  intros Hun. destruct (decode smiles) as [st|] eqn:E; [exfalso|reflexivity].
  destruct (decode_stages smiles st E) as [_ [Hb _]].
  destruct (decode_shapes smiles st E) as [Hl _].
  destruct (decode_inputs smiles st E) as [_ [_ [Hc _]]].
  rewrite topology_characters_eq in Hc. injection Hc as Hc.
  assert (Hscan : bracket_pairs (topology_chrs st) (topology_idxs st) = None).
  { unfold bracket_pairs.
    destruct (bracket_loop_spec (topology_idxs st) (topology_chrs st) 0 []
                [(-1, -1)]) as [Hnone _]; try lia.
    { intros q []. }
    assert (H : bracket_loop (topology_idxs st) (topology_chrs st) 0 []
                  [(-1, -1)] = None).
    { apply Hnone. rewrite <- Hc. now apply unmatched_filter. }
    now rewrite H. }
  unfold branches in Hb. rewrite Hscan in Hb. discriminate.
Qed.

(** "CC)C(": the bracket closes before any has opened. *)
Lemma unmatched_bracket_refused_witness : decode "CC)C(" = None.
Proof.
  apply unmatched_bracket_refused.
  assert (Hp : prepared "CC)C(" = ["C"; "C"; ")"; "C"; "("])
    by (vm_compute; reflexivity).
  rewrite Hp. exists ["C"; "C"], ["C"; "("]. split; [reflexivity|].
  simpl. lia.
Defined.

Lemma where_from_app (m1 m2 : list bool) : forall s,
  where_from s (m1 ++ m2)
  = where_from s m1 ++ where_from (s + Z.of_nat (List.length m1)) m2.
Proof.
  induction m1 as [|b m1 IH]; intros s.
  - simpl. now rewrite Z.add_0_r.
  - cbn [app where_from List.length]. rewrite IH.
    replace (s + 1 + Z.of_nat (List.length m1))
      with (s + Z.of_nat (S (List.length m1))) by lia.
    destruct b; reflexivity.
Qed.

Lemma length_where_from (mask : list bool) : forall s,
  List.length (where_from s mask)
  = List.length (filter (fun b : bool => b) mask).
Proof.
  induction mask as [|b mask IH]; intros s; [reflexivity|].
  simpl. destruct b; simpl; now rewrite IH.
Qed.

Lemma supported_kinds (c : ascii) :
  supported c = true -> in_chars c TOPOLOGY_MARKS = negb (is_atom c).
Proof. each_char c; intros H; try reflexivity; discriminate H. Qed.

Lemma atoms_only_filter (s : list ascii) :
  Forall (fun c => supported c = true) s ->
  atoms_only s = filter is_atom s.
Proof.
  unfold atoms_only, regex_replace_chars.
  induction 1 as [|c s Hc _ IH]; [reflexivity|].
  cbn [flat_map filter]. rewrite IH, (supported_kinds c Hc).
  destruct (is_atom c); reflexivity.
Qed.

(** The marker written after [pre]: its place in the stream and its
    anchor. *)
Lemma marker_anchor (pre post : list ascii) (c : ascii) :
  is_atom c = false ->
  let k := List.length (filter (fun c => negb (is_atom c)) pre) in
  nth_error (filter (fun c => negb (is_atom c)) (pre ++ c :: post)) k
  = Some c
  /\ nth_error
       (shift_indices (topology_positions (topology_only (pre ++ c :: post))))
       k
     = Some (Z.of_nat (List.length (filter is_atom pre)) - 1).
Proof.
  intros Hc k. split.
  - rewrite filter_app. cbn [filter]. rewrite Hc. cbn [negb].
    rewrite nth_error_app2 by (unfold k; lia).
    unfold k. now rewrite Nat.sub_diag.
  - assert (Hpos : nth_error
                     (topology_positions (topology_only (pre ++ c :: post))) k
                   = Some (Z.of_nat (List.length pre))).
    { unfold topology_positions, tf_where.
      rewrite topology_mask, map_app, where_from_app. cbn [map where_from].
      rewrite Hc. cbn [negb].
      assert (Hk : List.length
                     (where_from 0 (map (fun c => negb (is_atom c)) pre)) = k).
      { rewrite length_where_from. unfold k.
        clear. induction pre as [|x pre IH]; [reflexivity|].
        simpl. destruct (is_atom x); simpl; now rewrite IH. }
      rewrite nth_error_app2 by lia. rewrite Hk, Nat.sub_diag, length_map.
      reflexivity. }
    rewrite (nth_shift_indices _ _ _ Hpos). f_equal.
    pose proof (split_count is_atom pre) as Hs.
    assert (Hk : List.length
                   (filter (fun b : bool => b)
                      (map (fun x => negb (is_atom x)) pre)) = k).
    { unfold k. clear. induction pre as [|x pre IH]; [reflexivity|].
      simpl. destruct (is_atom x); simpl; now rewrite IH. }
    lia.
Qed.

(** X20.  A string with a double- or triple-bond marker that has no
    atom before it, or no atom after it, is refused: the decoder
    raises in the bond-order stage. *)
Theorem dangling_marker_refused
  (smiles : string) (pre post : list ascii) (c : ascii) :
  prepared smiles = pre ++ c :: post ->
  c = "=" \/ c = "#" ->
  filter is_atom pre = [] \/ filter is_atom post = [] ->
  decode smiles = None.
Proof.
  intros Hp Hc Hflank.
  destruct (decode smiles) as [st|] eqn:E; [exfalso|reflexivity].
  assert (Hna : is_atom c = false) by (destruct Hc as [->| ->]; reflexivity).
  destruct (decode_stages smiles st E) as [Hb _].
  destruct (decode_shapes smiles st E) as [Hl Hsq].
  destruct (decode_inputs smiles st E) as [_ [Hn [Hchrs [Hidxs _]]]].
  pose proof (decoded_supported smiles st E) as Hsup.
  assert (Hcount : n_atoms st
                   = Z.of_nat (List.length (filter is_atom (prepared smiles)))).
  { rewrite Hn. unfold prepared in *. rewrite <- count_atoms_normalize.
    rewrite count_supported by exact Hsup.
    now rewrite (atoms_only_filter _ Hsup). }
  rewrite Hp in Hchrs, Hidxs, Hcount.
  rewrite topology_characters_eq in Hchrs. injection Hchrs as Hchrs.
  destruct (marker_anchor pre post c Hna) as [Hk Ha].
  rewrite Hchrs in Hk. rewrite <- Hidxs in Ha.
  rewrite filter_app, length_app in Hcount. cbn [filter] in Hcount.
  rewrite Hna in Hcount.
  rewrite (bond_orders_outside _ _ _ _ _ c _ Hsq Hl Hk Hc Ha) in Hb;
    [discriminate|].
  destruct Hflank as [H0|H0]; rewrite H0 in *; cbn [List.length] in *; lia.
Qed.

(** "CC=": the marker has no atom after it. *)
Lemma dangling_marker_refused_witness : decode "CC=" = None.
Proof.
  apply (dangling_marker_refused "CC=" ["C"; "C"] [] "=").
  - vm_compute. reflexivity.
  - now left.
  - now right.
Defined.

End Refusals.

(** ** What the branch stage leaves alone *)
Module Rewiring.
Import Tensor TensorFacts FromSmiles Vocabulary Resolver.

Local Open Scope char_scope.
Local Open Scope Z_scope.

(** Every right marker the scan records is the anchor of a closing
    bracket of the stream. *)
Lemma bracket_loop_closers (idxs : list Z) (all : list ascii) :
  forall chrs pre idx queue acc pairs,
    all = pre ++ chrs -> idx = Z.of_nat (List.length pre) ->
    acc <> [] ->
    Forall (fun pr : Z * Z =>
              exists p, nth_error all p = Some ")"
                        /\ nth_error idxs p = Some (snd pr)) (tl acc) ->
    bracket_loop idxs chrs idx queue acc = Some pairs ->
    Forall (fun pr : Z * Z =>
              exists p, nth_error all p = Some ")"
                        /\ nth_error idxs p = Some (snd pr)) (tl pairs).
Proof.
  induction chrs as [|c chrs IH]; intros pre idx queue acc pairs Hall Hidx
    Hne Hacc; cbn [bracket_loop].
  - now intros [= <-].
  - cbv zeta.
    set (st := if Ascii.eqb c "(" then if_left idx queue acc
               else (queue, acc)).
    assert (Hst : snd st = acc)
      by (unfold st; destruct (Ascii.eqb c "("); reflexivity).
    assert (Hnext : all = (pre ++ [c]) ++ chrs)
      by (rewrite <- app_assoc; exact Hall).
    assert (Hidx' : idx + 1 = Z.of_nat (List.length (pre ++ [c])))
      by (rewrite length_app; simpl; lia).
    destruct (Ascii.eqb_spec c ")") as [->|Hnc].
    + unfold if_right.
      destruct (index idxs idx) as [r|] eqn:Er; [|discriminate].
      destruct (nth_error (rev (fst st)) 0) as [top|]; [|discriminate].
      destruct (index idxs top) as [l|]; [|discriminate].
      cbn [fst snd]. rewrite Hst.
      apply (IH (pre ++ [")"])); auto.
      * destruct acc; [contradiction|discriminate].
      * destruct acc as [|a0 acc]; [contradiction|]. cbn [app tl] in *.
        apply Forall_app. split; [exact Hacc|].
        repeat constructor. simpl. exists (List.length pre). split.
        -- rewrite Hall, nth_error_app2, Nat.sub_diag by lia. reflexivity.
        -- subst idx. now rewrite index_of_nat in Er.
    + apply (IH (pre ++ [c])); auto; rewrite Hst; assumption.
Qed.

(** X21.  The branch stage changes entries only in the column of an
    atom that directly follows a closing bracket: an entry [(i, j)]
    keeps its value unless [j - 1] is the anchor of a closing bracket
    of the stream. *)
Theorem branches_frame
  (n_atoms : Z) (m m' : matrix) (chrs : list ascii) (idxs : list Z)
  (i j : Z) :
  branches n_atoms m chrs idxs = Some m' ->
  (forall p, nth_error chrs p = Some ")" -> nth_error idxs p <> Some (j - 1)) ->
  entry m' i j = entry m i j.
Proof.
  unfold branches.
  destruct (bracket_pairs chrs idxs) as [pairs|] eqn:Ep; [|discriminate].
  assert (Hpairs : Forall (fun pr : Z * Z =>
                             exists p, nth_error chrs p = Some ")"
                                       /\ nth_error idxs p = Some (snd pr))
                     pairs).
  { unfold bracket_pairs in Ep.
    destruct (bracket_loop idxs chrs 0 [] [(-1, -1)]) as [ps|] eqn:E;
      [|discriminate].
    injection Ep as <-.
    eapply (bracket_loop_closers idxs chrs chrs [] 0 [] [(-1, -1)]); eauto;
      try discriminate; constructor. }
  unfold discard_trailing. rewrite boolean_mask_map.
  set (rights := filter _ (map snd pairs)).
  set (lefts := firstn (List.length rights) (map fst pairs)).
  destruct (process_overlaps rights _ lefts) as [final|]; [|discriminate].
  unfold rewire.
  destruct (gather_nd m _) as [cur|]; [|discriminate].
  destruct (scatter_nd_update m _ _) as [m1|] eqn:E1; [|discriminate].
  intros E2 Hfree.
  assert (Hright : forall r, In r rights -> j <> r + 1).
  { intros r Hr Hj. apply filter_In in Hr as [Hr _].
    apply in_map_iff in Hr as [pr [<- Hpr]].
    rewrite Forall_forall in Hpairs.
    destruct (Hpairs pr Hpr) as [p [Hp Ha]].
    apply (Hfree p Hp). rewrite Ha. f_equal. lia. }
  rewrite (scatter_other _ _ _ _ _ _ E2).
  - apply (scatter_other _ _ _ _ _ _ E1).
    intros Hin. apply in_map_iff in Hin as [r [[= <- Hj] Hr]].
    exact (Hright r Hr (eq_sym Hj)).
  - intros Hin. apply in_zip_with_nth in Hin as [k [l [r [_ [Hr [= -> Hj]]]]]].
    apply nth_error_In in Hr. exact (Hright r Hr Hj).
Qed.

(** The topology stream of "CC(C)C": the bracket closes on atom 2, so
    only column 3 changes; the bond (0, 1) is kept. *)
Lemma branches_frame_witness :
  exists m',
    branches 4 (chain_matrix 4) ["("; ")"] [1; 2] = Some m'
    /\ entry m' 0 1 = Some 1%Q.
Proof.
  destruct (branches 4 (chain_matrix 4) ["("; ")"] [1; 2]) as [m'|] eqn:E;
    [|vm_compute in E; discriminate E].
  exists m'. split; [reflexivity|].
  rewrite (branches_frame 4 (chain_matrix 4) m' ["("; ")"] [1; 2] 0 1 E).
  - reflexivity.
  - intros [|[|[|p]]] Hp; simpl in *; discriminate.
Defined.

End Rewiring.

(** ** No negative bond order *)
Module Orders.
Import Tensor TensorFacts FromSmiles Vocabulary Resolver Atoms Stages Triangle
  Conjugated.

Local Open Scope Z_scope.

(** After a scatter an entry is an old entry or one of the values. *)
Lemma scatter_entries idxs : forall (m : matrix) vals m' i j x,
  scatter_nd_update m idxs vals = Some m' -> entry m' i j = Some x ->
  entry m i j = Some x \/ In x vals.
Proof.
  induction idxs as [|[a b] idxs IH]; intros m [|v vals] m' i j x; simpl;
    try discriminate.
  - intros [= <-]. now left.
  - destruct (set_entry m a b v) as [m1|] eqn:E; [|discriminate].
    intros Hsc Hx. destruct (IH m1 vals m' i j x Hsc Hx) as [H1|Hin];
      [|now right; right].
    destruct (place_dec (a, b) (i, j)) as [[= -> ->]|Hne].
    + rewrite (set_entry_same _ _ _ _ _ E) in H1. injection H1 as ->.
      right. now left.
    + rewrite (set_entry_other _ _ _ _ _ _ _ E Hne) in H1. now left.
Qed.

Lemma scatter_nonnegative idxs (m : matrix) vals m' :
  nonnegative m -> Forall (fun v => (0 <= v)%Q) vals ->
  scatter_nd_update m idxs vals = Some m' -> nonnegative m'.
Proof.
  intros Hm Hv E i j x Hx.
  destruct (scatter_entries _ _ _ _ _ _ _ E Hx) as [H|H]; [eauto|].
  rewrite Forall_forall in Hv. auto.
Qed.

Lemma gather_nd_in (m : matrix) : forall idxs cur v,
  gather_nd m idxs = Some cur -> In v cur ->
  exists i j, entry m i j = Some v.
Proof.
  induction idxs as [|[a b] idxs IH]; intros cur v; simpl.
  - intros [= <-] [].
  - destruct (entry m a b) as [w|] eqn:Ew; [|discriminate].
    destruct (gather_nd m idxs) as [vs|] eqn:Eg; [|discriminate].
    intros [= <-] [<-|Hin]; [eauto|]. eapply IH; eauto.
Qed.

Lemma constant_nonnegative {A : Type} (v : Q) (l : list A) :
  (0 <= v)%Q -> Forall (fun v => (0 <= v)%Q) (map (fun _ => v) l).
Proof.
  intros Hv. apply Forall_forall. intros x Hx.
  apply in_map_iff in Hx as [y [<- _]]. exact Hv.
Qed.

Lemma chain_nonnegative (n : Z) : nonnegative (chain_matrix n).
Proof.
  intros i j x E.
  destruct (entry_inv _ _ _ _ _ (square_chain_matrix n) E) as [Hi Hj].
  simpl in Hi, Hj. rewrite chain_entry in E by lia. injection E as <-.
  destruct (j =? i + 1); discriminate.
Qed.

Lemma bond_orders_nonnegative (m m' : matrix) chrs idxs :
  nonnegative m -> bond_orders m chrs idxs = Some m' -> nonnegative m'.
Proof.
  intros Hm. unfold bond_orders.
  destruct (marked idxs chrs "=") as [ds|]; [|discriminate].
  destruct (marked idxs chrs "#") as [ts|]; [|discriminate].
  destruct (scatter_nd_update m _ _) as [m1|] eqn:E1; [|discriminate].
  intros E2. eapply scatter_nonnegative; [| |exact E2].
  - eapply scatter_nonnegative; [exact Hm| |exact E1].
    apply constant_nonnegative. discriminate.
  - apply constant_nonnegative. discriminate.
Qed.

Lemma branches_nonnegative (n : Z) (m m' : matrix) chrs idxs :
  nonnegative m -> branches n m chrs idxs = Some m' -> nonnegative m'.
Proof.
  intros Hm. unfold branches.
  destruct (bracket_pairs chrs idxs) as [pairs|]; [|discriminate].
  destruct (discard_trailing n pairs) as [lefts rights].
  destruct (process_overlaps rights _ lefts) as [final|]; [|discriminate].
  unfold rewire.
  destruct (gather_nd m _) as [cur|] eqn:Ec; [|discriminate].
  destruct (scatter_nd_update m _ _) as [m1|] eqn:E1; [|discriminate].
  intros E2. eapply scatter_nonnegative; [| |exact E2].
  - eapply scatter_nonnegative; [exact Hm| |exact E1].
    apply constant_nonnegative. discriminate.
  - apply Forall_forall. intros v Hv.
    destruct (gather_nd_in _ _ _ _ Ec Hv) as [i [j Hij]]. eauto.
Qed.

Lemma rings_nonnegative (m m' : matrix) chrs idxs :
  List.length chrs = List.length idxs -> nonnegative m ->
  rings m chrs idxs = Some m' -> nonnegative m'.
Proof.
  intros Hl Hm. unfold rings. rewrite ring_updates_eq by assumption.
  cbn [fst snd]. intros E. eapply scatter_nonnegative; [exact Hm| |exact E].
  apply constant_nonnegative. discriminate.
Qed.

Lemma half_more (o : Q) : (0 <= o)%Q -> (0 <= o + (1 # 2))%Q.
Proof.
  intros H. change (0 + 0 <= o + (1 # 2))%Q.
  apply Qplus_le_compat; [exact H|discriminate].
Qed.

Lemma aromaticity_nonnegative (m m' : matrix) (arom : list Z) :
  nonnegative m -> aromaticity m arom = Some m' -> nonnegative m'.
Proof.
  intros Hm. unfold aromaticity.
  destruct (submatrix m arom) as [sub|]; [|discriminate].
  destruct (gather_pairs arom _) as [gathered|]; [|discriminate].
  destruct (gather_nd m _) as [cur|] eqn:Ec; [|discriminate].
  intros E. eapply scatter_nonnegative; [exact Hm| |exact E].
  apply Forall_forall. intros v Hv. apply in_map_iff in Hv as [o [<- Ho]].
  destruct (gather_nd_in _ _ _ _ Ec Ho) as [i [j Hij]].
  assert (0 <= o)%Q by eauto.
  destruct (Qle_bool 1 o); [now apply half_more|assumption].
Qed.

Lemma full_nonnegative (n : nat) (m : matrix) :
  square n m -> nonnegative m -> nonnegative (full m).
Proof.
  intros Hs Hm i j x E.
  pose proof (entry_inv _ _ _ _ _ (full_square _ _ Hs) E) as Hin.
  destruct (entry_full _ _ _ _ Hs Hin) as [a [b [Ea [Eb Ef]]]].
  rewrite Ef in E. injection E as <-.
  change (0 + 0 <= a + b)%Q. apply Qplus_le_compat; eauto.
Qed.

Lemma submatrix_nonnegative (m sub : matrix) (idxs : list Z) :
  nonnegative m -> submatrix m idxs = Some sub -> nonnegative sub.
Proof.
  intros Hm Es i j x E.
  destruct (submatrix_entry _ _ _ _ _ _ Es E) as (a & b & _ & _ & He). eauto.
Qed.

Lemma sum_nonnegative (l : list Q) :
  Forall (fun v => (0 <= v)%Q) l -> (0 <= sum_Q l)%Q.
Proof.
  induction 1 as [|x l Hx _ IH]; simpl; [discriminate|].
  change (0 + 0 <= x + sum_Q l)%Q. now apply Qplus_le_compat.
Qed.

Lemma upper_band_nonnegative (M : matrix) :
  nonnegative M -> Forall (fun v => (0 <= v)%Q) (upper_band M).
Proof.
  intros HM. apply Forall_forall. intros x Hx. unfold upper_band in Hx.
  apply in_flat_map in Hx as [[kr row] [Hr Hx]].
  apply in_map_iff in Hx as [[kc v] [<- Hc]]. simpl.
  destruct (kc <? kr); [discriminate|].
  apply in_enumerate_iff in Hr, Hc. apply (HM kr kc).
  unfold entry. now rewrite Hr.
Qed.

Lemma mean_nonnegative (total : Q) (count : nat) :
  (0 <= total)%Q -> (0 <= total / inject_Z (Z.of_nat count))%Q.
Proof.
  intros H. unfold Qdiv. apply Qmult_le_0_compat; [exact H|].
  apply Qinv_le_0_compat. unfold Qle. simpl. lia.
Qed.

Lemma systems_loop_values (m : matrix) sp (adj : matrix) :
  nonnegative adj ->
  forall systems acc accv ups,
    systems_loop m sp adj systems acc accv = Some ups ->
    exists extra,
      snd ups = accv ++ extra /\ Forall (fun v => (0 <= v)%Q) extra.
Proof.
  intros Hadj.
  induction systems as [|system rest IH]; intros acc accv ups; simpl.
  - intros [= <-]. exists []. split; [now rewrite app_nil_r|constructor].
  - destruct (system_update m sp adj system) as [up|] eqn:Eu; [|discriminate].
    intros H. destruct (IH _ _ _ H) as [extra [-> Hall]].
    exists (snd up ++ extra). split; [now rewrite app_assoc|].
    apply Forall_app. split; [|exact Hall].
    unfold system_update in Eu.
    destruct (gather sp _); [|discriminate].
    destruct (submatrix adj _) as [sub|] eqn:Es; [|discriminate].
    destruct (gather_nd m _); [|discriminate].
    injection Eu as <-. cbn [snd]. apply Forall_forall. intros v Hv.
    apply repeat_spec in Hv. subst v. apply mean_nonnegative.
    apply sum_nonnegative, upper_band_nonnegative.
    eapply submatrix_nonnegative; eauto.
Qed.

Lemma conjugation_nonnegative (s : nat) (n : Z) (ats : list Z)
  (m m' : matrix) arom :
  square s m -> nonnegative m -> conjugation n ats m arom = Some m' ->
  nonnegative m'.
Proof.
  intros Hs Hm. unfold conjugation.
  destruct (sp2_candidates n ats (full m) arom) as [sp|]; [|discriminate].
  destruct (submatrix (full m) sp) as [adj|] eqn:Ea; [|discriminate].
  destruct (conjugate_systems sp adj) as [systems|]; [|discriminate].
  destruct (systems_loop m sp adj systems _ _) as [ups|] eqn:Eu;
    [|discriminate].
  assert (Hadj : nonnegative adj).
  { eapply submatrix_nonnegative; [|exact Ea].
    eapply full_nonnegative; eauto. }
  destruct (systems_loop_values _ _ _ Hadj _ _ _ _ Eu) as [extra [-> Hall]].
  cbn [app tl]. intros E.
  eapply scatter_nonnegative; [exact Hm|exact Hall|exact E].
Qed.

(** X22.  Whenever the decoder returns a molecule, no entry of the
    adjacency map is negative, after any stage: the rows of -1 that
    seed the update lists are dropped before every scatter, the stages
    write the orders 0, 1, 2 and 3 or move an order that was there, and
    the last two add one half or write the mean of orders that are not
    negative. *)
Theorem decoded_nonnegative (smiles : string) (st : stages) :
  decode smiles = Some st ->
  Forall nonnegative
    [chain st; after_bond_orders st; after_branches st; after_rings st;
     after_aromaticity st; resolved st].
Proof.
  intros H.
  destruct (decode_shapes smiles st H) as [Hl _].
  destruct (decode_stages smiles st H) as [H1 [H2 [H3 [H4 H5]]]].
  destruct (decoded_square smiles st H) as [_ [_ [_ [S4 _]]]].
  assert (U0 : nonnegative (chain st))
    by (rewrite (decode_chain smiles st H); apply chain_nonnegative).
  pose proof (bond_orders_nonnegative _ _ _ _ U0 H1) as U1.
  pose proof (branches_nonnegative _ _ _ _ _ U1 H2) as U2.
  pose proof (rings_nonnegative _ _ _ _ Hl U2 H3) as U3.
  pose proof (aromaticity_nonnegative _ _ _ U3 H4) as U4.
  pose proof (conjugation_nonnegative _ _ _ _ _ _ S4 U4 H5) as U5.
  repeat (apply Forall_cons; [assumption|]). apply Forall_nil.
Qed.

(** Acrolein, "C=CC=O". *)
Lemma decoded_nonnegative_witness :
  exists st, decode "C=CC=O" = Some st /\ nonnegative (resolved st).
Proof.
  assert (E : exists st, decode "C=CC=O" = Some st)
    by (eexists; vm_compute; reflexivity).
  destruct E as [st E]. exists st. split; [exact E|].
  pose proof (decoded_nonnegative _ st E) as H.
  repeat match goal with
         | H : Forall _ (_ :: _) |- _ => inversion H; clear H; subst
         end.
  assumption.
Defined.

End Orders.
